(** * webextanal: the API query engine (helpers/we-api-finder.js and its
    worker-pool flavour), embedded in Rocq.

    Layout of the development:
    - [Re]: the fragment of ECMAScript regular expressions the engine's
      patterns are written in (syntax tree, backtracking matcher, parser of
      pattern sources, [test] and global [replace]);
    - [Finder]: helpers/we-api-finder.js ([compileQuery], [QueryCompiler],
      [QueryMatcher]);
    - [Async]: the worker-pool flavour ([QueryMatcherWorkerPool] and the
      asynchronous [QueryCompiler]);
    - [AsyncMatcher]: the asynchronous matcher;
    - [TaskQueue]: helpers/concurrent-task-queue.js;
    - [ExtensionDirectory], [Filter], [ApiUsage], [Output]: bin/filter (the
      extension directory of a path, [filter-permissions], the start of
      [filter-api-usage], and the lines that [main] writes);
    - [MatcherProps], [CompilerProps], [AsyncCompilerProps], [Scenarios],
      [PoolProps], [PatternProps]: the properties of the engine;
    - [FuelProps]: the recursion bounds of [Re] are never reached;
    - [CompilerRunProps], [MatcherRunProps], [CommentProps], [StripProps]:
      a compiler and a matcher over any sequence of calls, and the copy
      without comments that the matcher stores;
    - [PoolRunProps], [AsyncMatcherProps], [PoolQueueProps],
      [PoolMessageProps], [AsyncPoolProps]: the worker pool at work;
    - [TaskQueueProps], [ExtensionDirectoryProps], [FilterProps],
      [ApiUsageProps], [OutputProps]: the task queue and the filters.

    JavaScript strings are sequences of UTF-16 code units.  They are modelled
    by [string]; every [ascii] stands for one code unit below 256. *)

From Stdlib Require Import String Ascii List Arith Bool ZArith Lia.
From stdpp Require Import base option list gmap strings.

(** ** Regular expressions *)

Module Re.

(** What a class escape stands for: [\s], [\d], [\w]. *)
Inductive esc_class := EscSpace | EscDigit | EscWord.

(** One member of a bracketed character class. *)
Inductive class_item :=
| CChar (c : ascii)
| CRange (lo hi : ascii)
| CEsc (neg : bool) (k : esc_class).

(** Patterns.  Groups leave no trace: a capture cannot be observed by
    [test] or by a replacement with the empty string, and there are no
    back-references in this fragment. *)
Inductive regex :=
| Eps
| Chr (c : ascii)
| Any (dotall : bool)
| Class (neg : bool) (items : list class_item)
| Seq (r1 r2 : regex)
| Alt (r1 r2 : regex)
| Star (greedy : bool) (r : regex)
| Plus (greedy : bool) (r : regex)
| Opt (greedy : bool) (r : regex)
| Bol
| Eol
| Look (ahead neg : bool) (r : regex).

Definition code (c : ascii) : nat := nat_of_ascii c.

(** WhiteSpace and LineTerminator code units below 256:
    TAB, LF, VT, FF, CR, SP and NBSP. *)
Definition is_space (c : ascii) : bool :=
  let n := code c in
  ((9 <=? n) && (n <=? 13)) || (n =? 32) || (n =? 160).

Definition is_digit (c : ascii) : bool :=
  let n := code c in (48 <=? n) && (n <=? 57).

Definition is_word (c : ascii) : bool :=
  let n := code c in
  ((65 <=? n) && (n <=? 90)) || ((97 <=? n) && (n <=? 122))
  || is_digit c || (n =? 95).

(** Line terminators below 256 (what [.] skips without the [s] flag). *)
Definition is_line_terminator (c : ascii) : bool :=
  let n := code c in (n =? 10) || (n =? 13).

Definition esc_matches (k : esc_class) (c : ascii) : bool :=
  match k with
  | EscSpace => is_space c
  | EscDigit => is_digit c
  | EscWord => is_word c
  end.

Definition item_matches (it : class_item) (c : ascii) : bool :=
  match it with
  | CChar a => Ascii.eqb a c
  | CRange lo hi => (code lo <=? code c) && (code c <=? code hi)
  | CEsc neg k => xorb neg (esc_matches k c)
  end.

Definition class_matches (neg : bool) (items : list class_item) (c : ascii)
  : bool :=
  xorb neg (existsb (fun it => item_matches it c) items).

(** Consume one code unit at position [i] when it satisfies [p]. *)
Definition one (p : ascii -> bool) (s : list ascii) (i : nat) : list nat :=
  match nth_error s i with
  | Some c => if p c then [S i] else []
  | None => []
  end.

Definition nonempty {A} (l : list A) : bool :=
  match l with [] => false | _ => true end.

(** Iterations of a quantified atom once its minimum is reached.  An
    iteration that consumes nothing is rejected (the empty check of
    RepeatMatcher), so every iteration moves forward and [fuel] bounds the
    number of iterations by the length of the input. *)
Fixpoint iter_star (fuel : nat) (step : nat -> list nat) (greedy : bool)
    (i : nat) : list nat :=
  match fuel with
  | 0 => [i]
  | S f =>
      let more :=
        flat_map (iter_star f step greedy)
                 (List.filter (fun e => i <? e) (step i)) in
      if greedy then more ++ [i] else i :: more
  end.

(** [ends r s i]: the end positions of the matches of [r] in [s] that start
    at [i], in the order in which a backtracking matcher finds them.  The
    head is the match that [exec] reports; [test] only needs to know whether
    there is one. *)
Fixpoint ends (r : regex) (s : list ascii) (i : nat) {struct r} : list nat :=
  match r with
  | Eps => [i]
  | Chr c => one (Ascii.eqb c) s i
  | Any dotall => one (fun c => dotall || negb (is_line_terminator c)) s i
  | Class neg items => one (class_matches neg items) s i
  | Seq r1 r2 => flat_map (ends r2 s) (ends r1 s i)
  | Alt r1 r2 => ends r1 s i ++ ends r2 s i
  | Star g r1 => iter_star (S (length s)) (ends r1 s) g i
  | Plus g r1 =>
      flat_map (iter_star (S (length s)) (ends r1 s) g) (ends r1 s i)
  | Opt g r1 =>
      let once := List.filter (fun e => i <? e) (ends r1 s i) in
      if g then once ++ [i] else i :: once
  | Bol => if i =? 0 then [i] else []
  | Eol => if i =? length s then [i] else []
  | Look true neg r1 =>
      if xorb neg (nonempty (ends r1 s i)) then [i] else []
  | Look false neg r1 =>
      if xorb neg
           (existsb (fun j => existsb (Nat.eqb i) (ends r1 s j))
                    (seq 0 (S i)))
      then [i] else []
  end.

(** RegExpBuiltinExec without the sticky flag: the first start position at
    or after [lastIndex] that has a match, with the end of that match. *)
Fixpoint exec_from (r : regex) (s : list ascii) (n i : nat)
  : option (nat * nat) :=
  match n with
  | 0 => None
  | S n' =>
      match ends r s i with
      | e :: _ => Some (i, e)
      | [] => exec_from r s n' (S i)
      end
  end.

Definition exec (r : regex) (s : list ascii) (lastIndex : nat)
  : option (nat * nat) :=
  exec_from r s (S (length s) - lastIndex) lastIndex.

(** RegExp.prototype.test of a pattern without flags. *)
Definition test (r : regex) (s : list ascii) : bool :=
  match exec r s 0 with Some _ => true | None => false end.

(** String.prototype.replace with a global pattern and the replacement
    [""]: every match is cut out; after an empty match the search resumes
    one code unit further. *)
Fixpoint remove_loop (fuel : nat) (r : regex) (s : list ascii)
    (lastIndex nextSourcePosition : nat) : list ascii :=
  match fuel with
  | 0 => drop nextSourcePosition s
  | S f =>
      match exec r s lastIndex with
      | None => drop nextSourcePosition s
      | Some (p, e) =>
          take (p - nextSourcePosition) (drop nextSourcePosition s)
          ++ remove_loop f r s (if e =? p then S e else e) e
      end
  end.

Definition remove_all (r : regex) (s : list ascii) : list ascii :=
  remove_loop (S (S (length s))) r s 0 0.

(** *** Pattern sources

    [new RegExp(source)] parses the source.  The parser below covers the
    syntax the engine's fragments are written in: literal code units, [.],
    identity and control escapes, [\s \d \w] and their complements, bracketed
    classes with ranges, groups, the four look-around assertions, [^], [$],
    [|], and the quantifiers [*], [+], [?] with their lazy forms.  It answers
    [None] where the constructor throws a SyntaxError (unbalanced groups,
    an unterminated class, a dangling quantifier or backslash) and also for
    syntax outside this fragment (braced quantifiers, back-references,
    [\b], hexadecimal and unicode escapes, named groups). *)

Definition isc (c : ascii) (lit : string) : bool :=
  match lit with
  | String a EmptyString => Ascii.eqb c a
  | _ => false
  end.

Definition chr (n : nat) : ascii := ascii_of_nat n.

(** The class escapes and control escapes shared by atoms and classes. *)
Definition escape_item (e : ascii) : option class_item :=
  if isc e "s" then Some (CEsc false EscSpace)
  else if isc e "S" then Some (CEsc true EscSpace)
  else if isc e "d" then Some (CEsc false EscDigit)
  else if isc e "D" then Some (CEsc true EscDigit)
  else if isc e "w" then Some (CEsc false EscWord)
  else if isc e "W" then Some (CEsc true EscWord)
  else if isc e "t" then Some (CChar (chr 9))
  else if isc e "n" then Some (CChar (chr 10))
  else if isc e "v" then Some (CChar (chr 11))
  else if isc e "f" then Some (CChar (chr 12))
  else if isc e "r" then Some (CChar (chr 13))
  else if is_word e then None
  else Some (CChar e).

(** [\b] is a backspace inside a class. *)
Definition class_escape (e : ascii) : option class_item :=
  if isc e "b" then Some (CChar (chr 8)) else escape_item e.

Definition escape_atom (e : ascii) : option regex :=
  match escape_item e with
  | Some (CChar c) => Some (Chr c)
  | Some it => Some (Class false [it])
  | None => None
  end.

(** Does the rest of a class continue the previous atom into a range? *)
Definition starts_range (s : list ascii) : bool :=
  match s with
  | d :: b :: _ => isc d "-" && negb (isc b "]")
  | _ => false
  end.

(** The members of a class, after the opening bracket (and [^]), up to
    and including the closing bracket. *)
Fixpoint parse_class (s : list ascii)
  : option (list class_item * list ascii) :=
  match s with
  | [] => None
  | c :: rest =>
      if isc c "]" then Some ([], rest)
      else if isc c "\" then
        match rest with
        | [] => None
        | e :: rest' =>
            match class_escape e with
            | None => None
            | Some it =>
                if starts_range rest' then None
                else
                  match parse_class rest' with
                  | Some (items, out) => Some (it :: items, out)
                  | None => None
                  end
            end
        end
      else
        match rest with
        | d :: b :: rest' =>
            if isc d "-" && negb (isc b "]") then
              if isc b "\" then None
              else if code c <=? code b then
                match parse_class rest' with
                | Some (items, out) => Some (CRange c b :: items, out)
                | None => None
                end
              else None
            else
              match parse_class rest with
              | Some (items, out) => Some (CChar c :: items, out)
              | None => None
              end
        | _ =>
            match parse_class rest with
            | Some (items, out) => Some (CChar c :: items, out)
            | None => None
            end
        end
  end.

(** An atom that starts with the code unit [c]. *)
Definition parse_atom (dotall : bool) (c : ascii) (rest : list ascii)
  : option (regex * list ascii) :=
  if isc c "." then Some (Any dotall, rest)
  else if isc c "\" then
    match rest with
    | [] => None
    | e :: rest' =>
        match escape_atom e with
        | Some a => Some (a, rest')
        | None => None
        end
    end
  else if isc c "[" then
    match rest with
    | [] => None
    | n :: rest' =>
        if isc n "^" then
          match parse_class rest' with
          | Some (items, out) => Some (Class true items, out)
          | None => None
          end
        else
          match parse_class rest with
          | Some (items, out) => Some (Class false items, out)
          | None => None
          end
    end
  else if isc c "*" || isc c "+" || isc c "?" || isc c "{" || isc c ")"
          || isc c "|" then None
  else Some (Chr c, rest).

(** An optional quantifier after the atom [a]. *)
Definition parse_quant (a : regex) (s : list ascii) : regex * list ascii :=
  match s with
  | [] => (a, s)
  | q :: rest =>
      let lazy :=
        match rest with
        | l :: rest' => if isc l "?" then Some rest' else None
        | [] => None
        end in
      let mk (f : bool -> regex -> regex) :=
        match lazy with
        | Some rest' => (f false a, rest')
        | None => (f true a, rest)
        end in
      if isc q "*" then mk Star
      else if isc q "+" then mk Plus
      else if isc q "?" then mk Opt
      else (a, s)
  end.

(** What an opening parenthesis starts. *)
Inductive group_kind := GGroup | GLook (ahead neg : bool).

Definition group_start (s : list ascii) : option (group_kind * list ascii) :=
  match s with
  | [] => Some (GGroup, s)
  | q :: rest =>
      if isc q "?" then
        match rest with
        | [] => None
        | k :: rest' =>
            if isc k ":" then Some (GGroup, rest')
            else if isc k "=" then Some (GLook true false, rest')
            else if isc k "!" then Some (GLook true true, rest')
            else if isc k "<" then
              match rest' with
              | k2 :: rest'' =>
                  if isc k2 "=" then Some (GLook false false, rest'')
                  else if isc k2 "!" then Some (GLook false true, rest'')
                  else None
              | [] => None
              end
            else None
        end
      else Some (GGroup, s)
  end.

(** Disjunction, Alternative and Term of the grammar, by recursive descent.
    Every call goes one level down in [fuel]. *)
Fixpoint parse_disj (fuel : nat) (dotall : bool) (s : list ascii)
  : option (regex * list ascii) :=
  match fuel with
  | 0 => None
  | S f =>
      match parse_alt f dotall s with
      | Some (r1, rest) =>
          match rest with
          | c :: rest' =>
              if isc c "|" then
                match parse_disj f dotall rest' with
                | Some (r2, out) => Some (Alt r1 r2, out)
                | None => None
                end
              else Some (r1, rest)
          | [] => Some (r1, rest)
          end
      | None => None
      end
  end
with parse_alt (fuel : nat) (dotall : bool) (s : list ascii)
  : option (regex * list ascii) :=
  match fuel with
  | 0 => None
  | S f =>
      match s with
      | [] => Some (Eps, s)
      | c :: _ =>
          if isc c ")" || isc c "|" then Some (Eps, s)
          else
            match parse_term f dotall s with
            | Some (t, rest) =>
                match parse_alt f dotall rest with
                | Some (r, out) => Some (Seq t r, out)
                | None => None
                end
            | None => None
            end
      end
  end
with parse_term (fuel : nat) (dotall : bool) (s : list ascii)
  : option (regex * list ascii) :=
  match fuel with
  | 0 => None
  | S f =>
      match s with
      | [] => None
      | c :: rest =>
          if isc c "^" then Some (Bol, rest)
          else if isc c "$" then Some (Eol, rest)
          else if isc c "(" then
            match group_start rest with
            | Some (k, inner) =>
                match parse_disj f dotall inner with
                | Some (r, close :: out) =>
                    if isc close ")" then
                      match k with
                      | GGroup => Some (parse_quant r out)
                      | GLook ahead neg => Some (Look ahead neg r, out)
                      end
                    else None
                | _ => None
                end
            | None => None
            end
          else
            match parse_atom dotall c rest with
            | Some (a, out) => Some (parse_quant a out)
            | None => None
            end
      end
  end.

Definition parse_fuel (s : list ascii) : nat := 4 * length s + 4.

(** The pattern of [new RegExp(source)]; [dotall] is the [s] flag. *)
Definition parse (dotall : bool) (source : string) : option regex :=
  let s := list_ascii_of_string source in
  match parse_disj (parse_fuel s) dotall s with
  | Some (r, []) => Some r
  | _ => None
  end.

End Re.

(** ** helpers/we-api-finder.js *)

Module Finder.
Import Re.

(** *** JavaScript values used by the engine *)

(** What a call can throw. *)
Inductive error :=
| SyntaxError (source : string)
| TypeError (message : string)
| Error (message : string).

(** How a call completes. *)
Inductive completion (A : Type) :=
| Normal (a : A)
| Throw (e : error).
Arguments Normal {A} a.
Arguments Throw {A} e.

(** A RegExp object without flags, given by the string that was handed to
    the constructor ([source] is that string as written, not the escaped
    text of the [.source] property, which the engine never reads).  What
    [test] answers depends on that string only.  The model does not tell
    two objects made from the same string apart. *)
Record RegExp := mkRegExp { source : string }.

#[global] Instance RegExp_eq_dec : EqDecision RegExp.
Proof. solve_decision. Defined.

#[global] Instance RegExp_countable : Countable RegExp :=
  inj_countable' source mkRegExp
    (fun r => match r with mkRegExp _ => eq_refl end).

(** [new RegExp(regexString)]: throws when the source is not a pattern.
    The model knows the patterns of the fragment of [Re] only: it answers
    with a SyntaxError for every other string, also for one that the
    constructor accepts (a braced quantifier, [\b], a named group).  The
    conditions that [compileQuery] returns are stated for queries whose
    parts are patterns of the fragment, and its throwing for a source that
    no constructor accepts. *)
Definition new_RegExp (regexString : string) : completion RegExp :=
  match parse false regexString with
  | Some _ => Normal (mkRegExp regexString)
  | None => Throw (SyntaxError regexString)
  end.

(** [regex.test(sourceText)].  A pattern without the [g] or [y] flag keeps
    no state between calls. *)
Definition RegExp_test (regex : RegExp) (sourceText : string) : bool :=
  match parse false (source regex) with
  | Some r => test r (list_ascii_of_string sourceText)
  | None => false
  end.

(** A Set of strings: its elements in insertion order, without repeats. *)
Definition Set_has (x : string) (s : list string) : bool :=
  bool_decide (x ∈ s).

Definition Set_add (x : string) (s : list string) : list string :=
  if Set_has x s then s else s ++ [x].

(** A Map with string keys: its entries in insertion order. *)
Fixpoint Map_get {V} (k : string) (m : list (string * V)) : option V :=
  match m with
  | [] => None
  | (k', v) :: m' => if decide (k = k') then Some v else Map_get k m'
  end.

Definition Map_has {V} (k : string) (m : list (string * V)) : bool :=
  match Map_get k m with Some _ => true | None => false end.

Fixpoint Map_set {V} (k : string) (v : V) (m : list (string * V))
  : list (string * V) :=
  match m with
  | [] => [(k, v)]
  | (k', v') :: m' =>
      if decide (k = k') then (k, v) :: m' else (k', v') :: Map_set k v m'
  end.

(** [s.split(".")]. *)
Fixpoint split_dot (s : string) : list string :=
  match s with
  | EmptyString => [EmptyString]
  | String c s' =>
      if Ascii.eqb c "."
      then EmptyString :: split_dot s'
      else
        match split_dot s' with
        | p :: ps => String c p :: ps
        | [] => [String c EmptyString]
        end
  end.

(** [parts.join(sep)]. *)
Fixpoint join (sep : string) (parts : list string) : string :=
  match parts with
  | [] => ""
  | [p] => p
  | p :: ps => p +:+ sep +:+ join sep ps
  end.

(** [s.startsWith(p)]. *)
Fixpoint startsWith (s p : string) {struct p} : bool :=
  match p with
  | EmptyString => true
  | String a p' =>
      match s with
      | EmptyString => false
      | String b s' => Ascii.eqb a b && startsWith s' p'
      end
  end.

(** *** The lexical fragments *)

Definition RE_BEFORE : string := "(?:[!%&()*+,\-./:;<=>?[^{|}~\n]|^)\s*".
Definition RE_AFTER : string := "\s*(?:[%&()*+,\-./:;<=>?[\]^{|}\n]|$)".
Definition RE_DOT : string := "\s*\??\.\s*".
Definition RE_CHROME_OR_BROWSER_DOT : string :=
  "(?:chrome|browser)" +:+ RE_DOT.
Definition RE_VAR_CHAR_START : string := "[A-Za-z_$]".
Definition RE_VAR_CHAR_END : string := RE_VAR_CHAR_START +:+ "[0-9]*".
Definition RE_ALIAS_DOT : string := RE_VAR_CHAR_END +:+ RE_DOT.
Definition RE_RHS_AFTER : string :=
  "\s*(?:[),;\]{}:]|\|\||\?\?|$|\n(?=\s*" +:+ RE_VAR_CHAR_START +:+ "))".

(** *** compileQuery *)

(** Code that reads and updates [sharedRegExps] and may throw.  The map is
    updated in place, so an update made before a throw stays. *)
Definition Compile (A : Type) : Type :=
  gmap string RegExp -> completion A * gmap string RegExp.

Definition ret {A} (a : A) : Compile A := fun shared => (Normal a, shared).

Definition bind {A B} (m : Compile A) (k : A -> Compile B) : Compile B :=
  fun shared =>
    match m shared with
    | (Normal a, shared') => k a shared'
    | (Throw e, shared') => (Throw e, shared')
    end.

Notation "'let*' x ':=' m 'in' k" := (bind m (fun x => k))
  (at level 10, x name, m at level 100, k at level 200,
   format "'[v' 'let*'  x  ':='  m  'in' '/' k ']'").

Definition newRegExp (regexString : string) : Compile RegExp :=
  fun shared =>
    match shared !! regexString with
    | Some re => (Normal re, shared)
    | None =>
        match new_RegExp regexString with
        | Normal re => (Normal re, <[regexString := re]> shared)
        | Throw e => (Throw e, shared)
        end
    end.

(** The source that [re_any] hands to [newRegExp], and likewise below. *)
Definition re_any_source (pattern : string) : string :=
  RE_BEFORE +:+ "(?:" +:+ pattern +:+ ")" +:+ RE_AFTER.
Definition re_dot_source (pattern : string) : string :=
  RE_ALIAS_DOT +:+ "(?:" +:+ pattern +:+ ")" +:+ RE_AFTER.
Definition re_rhs_source (pattern : string) : string :=
  RE_BEFORE +:+ "(?:" +:+ pattern +:+ ")" +:+ RE_RHS_AFTER.

Definition re_any (pattern : string) : Compile RegExp :=
  newRegExp (re_any_source pattern).
Definition re_dot (pattern : string) : Compile RegExp :=
  newRegExp (re_dot_source pattern).
Definition re_rhs (pattern : string) : Compile RegExp :=
  newRegExp (re_rhs_source pattern).

(** [parts[0]]; an index out of range reads [undefined], which string
    concatenation spells out. *)
Definition at0 (parts : list string) : string :=
  match parts with p :: _ => p | [] => "undefined" end.

Definition compileQuery (query : string) : Compile (list (list RegExp)) :=
  let parts := map (fun p => "(?:" +:+ p +:+ ")") (split_dot query) in
  let hasRoot :=
    startsWith query "browser." || startsWith query "chrome." in
  let compiledPatterns := [] in
  (* 1/x: Literal match, if possible. *)
  let* lit := re_any (join RE_DOT parts) in
  let compiledPatterns := compiledPatterns ++ [[lit]] in
  let* compiledPatterns :=
    if (2 <=? length parts) && negb hasRoot then
      (* 2/x: First part aliased *)
      let* a := re_rhs (RE_CHROME_OR_BROWSER_DOT +:+ at0 parts) in
      let* b := re_dot (join RE_DOT (drop 1 parts)) in
      ret (compiledPatterns ++ [[a; b]])
    else ret compiledPatterns in
  let* compiledPatterns :=
    if 3 <=? length parts then
      (* 3/x: First two parts aliased. *)
      let* a := re_rhs (join RE_DOT (take 2 parts)) in
      let* b := re_dot (join RE_DOT (drop 2 parts)) in
      ret (compiledPatterns ++ [[a; b]])
    else ret compiledPatterns in
  let* compiledPatterns :=
    if 4 <=? length parts then
      (* 4/x: First three parts aliased. *)
      let* a := re_rhs (join RE_DOT (take 3 parts)) in
      let* b := re_dot (join RE_DOT (drop 3 parts)) in
      ret (compiledPatterns ++ [[a; b]])
    else ret compiledPatterns in
  ret compiledPatterns.

(** *** QueryCompiler *)

Record QueryCompiler := mkQueryCompiler {
  qc_queriesAndPatterns : list (string * list (list RegExp));
  qc_sharedRegExps : gmap string RegExp
}.

Definition new_QueryCompiler : QueryCompiler :=
  mkQueryCompiler [] ∅.

(** [addQuery] returns how the call completed, the compiler afterwards and
    what was written with [console.warn]. *)
Definition addQuery (query : string) (qc : QueryCompiler)
  : completion unit * QueryCompiler * list string :=
  if Map_has query (qc_queriesAndPatterns qc) then
    (Normal tt, qc, ["Ignoring duplicate query: " +:+ query])
  else
    match compileQuery query (qc_sharedRegExps qc) with
    | (Normal compiledPatterns, shared) =>
        (Normal tt,
         mkQueryCompiler
           (Map_set query compiledPatterns (qc_queriesAndPatterns qc))
           shared,
         [])
    | (Throw e, shared) =>
        (Throw e, mkQueryCompiler (qc_queriesAndPatterns qc) shared, [])
    end.

(** *** QueryMatcher *)

(** [queriesAndPatterns] is the Map of the compiler itself, not a copy.
    The calls on a matcher do not change it, so a matcher is described by
    the entries it sees. *)
Record QueryMatcher := mkQueryMatcher {
  queriesAndPatterns : list (string * list (list RegExp));
  matchedQueries : list string;
  sourceTexts : list string
}.

Definition new_QueryMatcher
    (queriesAndPatterns : list (string * list (list RegExp)))
  : QueryMatcher :=
  mkQueryMatcher queriesAndPatterns [] [].

Definition newQueryMatcher (qc : QueryCompiler) : QueryMatcher :=
  new_QueryMatcher (qc_queriesAndPatterns qc).

(** The two comment patterns of [addSource], [/(?<!:)\/\/.*/g] and
    [/\/\*.*?\*\//sg]. *)
Definition line_comment_source : string := "(?<!:)\/\/.*".
Definition block_comment_source : string := "\/\*.*?\*\/".

Definition line_comment : regex :=
  Eval vm_compute in
    match parse false line_comment_source with Some r => r | None => Eps end.
Definition block_comment : regex :=
  Eval vm_compute in
    match parse true block_comment_source with Some r => r | None => Eps end.

Definition stripComments (sourceText : string) : string :=
  string_of_list_ascii
    (remove_all block_comment
       (remove_all line_comment (list_ascii_of_string sourceText))).

Definition addSource (sourceText : string) (qm : QueryMatcher)
  : QueryMatcher :=
  let sourceTextWithoutComments := stripComments sourceText in
  mkQueryMatcher
    (queriesAndPatterns qm)
    (matchedQueries qm)
    (Set_add sourceTextWithoutComments
       (Set_add sourceText (sourceTexts qm))).

(** [testMatch] of [findMatches]; the second component is
    [sharedRegExpResults] after the call. *)
Definition testMatch (sourceTexts : list string) (regex : RegExp)
    (sharedRegExpResults : gmap RegExp bool) : bool * gmap RegExp bool :=
  match sharedRegExpResults !! regex with
  | Some res => (res, sharedRegExpResults)
  | None =>
      let res := existsb (RegExp_test regex) sourceTexts in
      (res, <[regex := res]> sharedRegExpResults)
  end.

(** [ps.every(p => testMatch(p))]: stops at the first pattern that fails. *)
Fixpoint every_testMatch (sourceTexts : list string) (ps : list RegExp)
    (results : gmap RegExp bool) : bool * gmap RegExp bool :=
  match ps with
  | [] => (true, results)
  | p :: ps' =>
      match testMatch sourceTexts p results with
      | (true, results') => every_testMatch sourceTexts ps' results'
      | (false, results') => (false, results')
      end
  end.

(** [compiledPatterns.some(ps => ps.every(...))]: stops at the first
    condition that holds. *)
Fixpoint some_condition (sourceTexts : list string)
    (compiledPatterns : list (list RegExp)) (results : gmap RegExp bool)
  : bool * gmap RegExp bool :=
  match compiledPatterns with
  | [] => (false, results)
  | ps :: rest =>
      match every_testMatch sourceTexts ps results with
      | (true, results') => (true, results')
      | (false, results') => some_condition sourceTexts rest results'
      end
  end.

(** The loop over the entries of [queriesAndPatterns]. *)
Fixpoint findMatches_loop (sourceTexts : list string)
    (entries : list (string * list (list RegExp)))
    (matched : list string) (results : gmap RegExp bool)
  : list string * gmap RegExp bool :=
  match entries with
  | [] => (matched, results)
  | (query, compiledPatterns) :: entries' =>
      if Set_has query matched then
        findMatches_loop sourceTexts entries' matched results
      else
        match some_condition sourceTexts compiledPatterns results with
        | (true, results') =>
            findMatches_loop sourceTexts entries' (Set_add query matched)
              results'
        | (false, results') =>
            findMatches_loop sourceTexts entries' matched results'
        end
  end.

Definition findMatches (qm : QueryMatcher) : QueryMatcher :=
  let sharedRegExpResults : gmap RegExp bool := ∅ in
  let sourceTexts := sourceTexts qm in
  mkQueryMatcher
    (queriesAndPatterns qm)
    (findMatches_loop sourceTexts (queriesAndPatterns qm)
       (matchedQueries qm) sharedRegExpResults).1
    sourceTexts.

Definition getMatchedResults (qm : QueryMatcher) : list string :=
  matchedQueries qm.

(** [exports.QueryCompiler = QueryCompiler;]: the names the module
    exports.  [QueryMatcher] is not one of them. *)
Definition exports : list string := ["QueryCompiler"].

End Finder.

(** ** helpers/we-api-finder/async.js and worker.js *)

Module Async.

(** *** The worker threads and the promises, as the pool sees them *)

(** The state of a promise. *)
Inductive Promise :=
| Pending
| Fulfilled (value : list string)
| Rejected (reason : Finder.error).

(** A worker: the [workerData] it was started with, the [kTaskResolver]
    property that the pool hangs on the Worker object (the [resolve]
    function of a task, named by the promise it settles), the messages
    posted to it and not yet answered, and whether its thread has ended
    (after an uncaught error, or some time after [terminate()]): no event
    comes from a thread that has ended. *)
Record Worker := mkWorker {
  workerData : list (string * list (list Finder.RegExp));
  kTaskResolver : option nat;
  inbox : list (list string);
  ended : bool
}.

Record Task := mkTask {
  resolve : nat;
  task_sourceTexts : list string
}.

(** The fields of a QueryMatcherWorkerPool.  Workers are named by their
    index in [threads] below. *)
Record QueryMatcherWorkerPool := mkPool {
  queriesAndPatterns : list (string * list (list Finder.RegExp));
  numThreads : Z;
  workers : list nat;
  idleWorkers : list nat;
  taskQueue : list Task
}.

(** The pool together with the objects it refers to. *)
Record State := mkState {
  pool : QueryMatcherWorkerPool;
  threads : list Worker;
  promises : list Promise
}.

(** [new QueryMatcherWorkerPool(queriesAndPatterns)]; [numThreads] is what
    [getNumThreads()] reads from the environment. *)
Definition new_QueryMatcherWorkerPool (numThreads : Z)
    (queriesAndPatterns : list (string * list (list Finder.RegExp)))
  : QueryMatcherWorkerPool :=
  mkPool queriesAndPatterns numThreads [] [] [].

Definition initial (numThreads : Z)
    (queriesAndPatterns : list (string * list (list Finder.RegExp)))
  : State :=
  mkState (new_QueryMatcherWorkerPool numThreads queriesAndPatterns) [] [].

Definition set_pool (st : State) (p : QueryMatcherWorkerPool) : State :=
  mkState p (threads st) (promises st).

(** Calling a [resolve] function: only a pending promise changes.  A
    promise resolved with [Promise.reject(err)] is rejected with [err]. *)
Definition settle (p : nat) (outcome : Promise) (ps : list Promise)
  : list Promise :=
  match ps !! p with
  | Some Pending => <[p := outcome]> ps
  | _ => ps
  end.

(** *** worker.js *)

(** The handler of ["message"] in worker.js: what it posts to the parent,
    or what it throws.  [QueryMatcher] is what the worker takes from
    [require("../we-api-finder")]; it is [undefined] when the module does
    not export that name, and [new QueryMatcher(...)] then throws a
    TypeError. *)
Definition worker_onmessage
    (queriesAndPatterns : list (string * list (list Finder.RegExp)))
    (sourceTexts : list string) : Finder.completion (list string) :=
  if bool_decide ("QueryMatcher" ∈ Finder.exports) then
    let qm := Finder.new_QueryMatcher queriesAndPatterns in
    let qm := fold_left (fun qm t => Finder.addSource t qm) sourceTexts qm in
    Finder.Normal (Finder.getMatchedResults (Finder.findMatches qm))
  else
    Finder.Throw (Finder.TypeError "QueryMatcher is not a constructor").

(** *** QueryMatcherWorkerPool *)

Definition getFreeWorker (st : State) : option nat * State :=
  let p := pool st in
  match idleWorkers p with
  | worker :: idle' =>
      (Some worker,
       set_pool st
         (mkPool (queriesAndPatterns p) (numThreads p) (workers p) idle'
            (taskQueue p)))
  | [] =>
      if (Z.of_nat (length (workers p)) <? numThreads p)%Z then
        let worker := length (threads st) in
        (Some worker,
         mkState
           (mkPool (queriesAndPatterns p) (numThreads p)
              (workers p ++ [worker]) [] (taskQueue p))
           (threads st ++ [mkWorker (queriesAndPatterns p) None [] false])
           (promises st))
      else (None, st)
  end.

(** [worker[kTaskResolver] = task.resolve; worker.postMessage(...)]. *)
Definition dispatch (worker : nat) (task : Task) (st : State) : State :=
  match threads st !! worker with
  | Some w =>
      mkState (pool st)
        (<[worker :=
             mkWorker (workerData w) (Some (resolve task))
               (inbox w ++ [task_sourceTexts task]) (ended w)]> (threads st))
        (promises st)
  | None => st
  end.

Definition set_taskQueue (st : State) (q : list Task) : State :=
  let p := pool st in
  set_pool st
    (mkPool (queriesAndPatterns p) (numThreads p) (workers p)
       (idleWorkers p) q).

(** The loop of [_runNextTask], over the tasks that are waiting. *)
Fixpoint runNextTask_loop (queue : list Task) (st : State) : State :=
  match queue with
  | [] => set_taskQueue st []
  | task :: queue' =>
      match getFreeWorker st with
      | (None, st') => set_taskQueue st' queue
      | (Some worker, st') => runNextTask_loop queue' (dispatch worker task st')
      end
  end.

Definition _runNextTask (st : State) : State :=
  runNextTask_loop (taskQueue (pool st)) st.

(** [queryResultsForSourceTexts]: the promise returned is the last one of
    [promises] right after the call. *)
Definition queryResultsForSourceTexts (sourceTexts : list string)
    (st : State) : nat * State :=
  let promise := length (promises st) in
  let st1 := mkState (pool st) (threads st) (promises st ++ [Pending]) in
  let st2 :=
    set_taskQueue st1 (taskQueue (pool st1) ++ [mkTask promise sourceTexts]) in
  (promise, _runNextTask st2).

Definition end_thread (w : Worker) : Worker :=
  mkWorker (workerData w) (kTaskResolver w) (inbox w) true.

(** [terminateAllWorkers]: [worker.terminate()] is not awaited and the
    listeners stay on the workers.  The threads stop some time later (see
    [on_exit]); what a thread has posted before it stops still arrives. *)
Definition terminateAllWorkers (st : State) : State :=
  let p := pool st in
  mkState
    (mkPool (queriesAndPatterns p) (numThreads p) [] [] (taskQueue p))
    (threads st)
    (promises st).

(** The thread of a worker on which [terminate()] was called stops.  The
    workers that were terminated are the ones that have left [workers].
    [None]: the thread has ended before, or was not terminated. *)
Definition on_exit (worker : nat) (st : State) : option State :=
  match threads st !! worker with
  | Some th =>
      if ended th || bool_decide (worker ∈ workers (pool st)) then None
      else
        Some
          (mkState (pool st) (<[worker := end_thread th]> (threads st))
             (promises st))
  | None => None
  end.

(** The listener for ["message"], called with what a live worker has
    posted in answer to its oldest message.  [None]: the worker has
    nothing to answer. *)
Definition on_message (worker : nat) (result : list string) (st : State)
  : option State :=
  match threads st !! worker with
  | Some (mkWorker data (Some r) (msg :: rest) false) =>
      let p := pool st in
      Some
        (_runNextTask
           (mkState
              (mkPool (queriesAndPatterns p) (numThreads p) (workers p)
                 (idleWorkers p ++ [worker]) (taskQueue p))
              (<[worker := mkWorker data (Some r) rest false]> (threads st))
              (settle r (Fulfilled result) (promises st))))
  | _ => None
  end.

(** The listener for ["error"]: the thread of a live worker ends with an
    uncaught error.  [None]: the thread has ended before, or no task was
    ever given to the worker (the pool gives one to every worker it
    starts). *)
Definition on_error (worker : nat) (err : Finder.error) (st : State)
  : option State :=
  match threads st !! worker with
  | Some (mkWorker data (Some r) msgs false) =>
      Some
        (mkState (pool st)
           (<[worker := mkWorker data (Some r) msgs true]> (threads st))
           (settle r (Rejected err) (promises st)))
      (* Note: Not pushed into idleWorkers since it has been terminated. *)
  | _ => None
  end.

(** A live worker takes its oldest message and runs the handler of
    worker.js on it.  What the handler posts arrives at the listener for
    ["message"]; what it throws is an uncaught error of the thread and
    arrives at the listener for ["error"].  [None]: the worker has no
    message, or its thread has ended. *)
Definition worker_turn (worker : nat) (st : State) : option State :=
  match threads st !! worker with
  | Some (mkWorker data (Some r) (msg :: rest) false) =>
      match worker_onmessage data msg with
      | Finder.Normal result => on_message worker result st
      | Finder.Throw err => on_error worker err st
      end
  | _ => None
  end.

(** What can happen to a pool: a call of one of its methods, the turn of a
    worker, an uncaught error of a thread that has another cause, and the
    end of a thread that was terminated. *)
Inductive event :=
| CallGetFreeWorker
| CallQueryResults (sourceTexts : list string)
| CallTerminateAll
| WorkerMessage (worker : nat)
| WorkerError (worker : nat) (err : Finder.error)
| WorkerExit (worker : nat).

Definition step (e : event) (st : State) : option State :=
  match e with
  | CallGetFreeWorker => Some (getFreeWorker st).2
  | CallQueryResults sourceTexts =>
      Some (queryResultsForSourceTexts sourceTexts st).2
  | CallTerminateAll => Some (terminateAllWorkers st)
  | WorkerMessage worker => worker_turn worker st
  | WorkerError worker err => on_error worker err st
  | WorkerExit worker => on_exit worker st
  end.

Fixpoint run (es : list event) (st : State) : option State :=
  match es with
  | [] => Some st
  | e :: es' =>
      match step e st with
      | Some st' => run es' st'
      | None => None
      end
  end.

(** The states a pool can be in. *)
Definition reachable (numThreads : Z)
    (queriesAndPatterns : list (string * list (list Finder.RegExp)))
    (st : State) : Prop :=
  exists es, run es (initial numThreads queriesAndPatterns) = Some st.

(** *** The asynchronous QueryCompiler *)

Record QueryCompiler := mkQueryCompiler {
  qcInternal : Finder.QueryCompiler;
  workerPool : option QueryMatcherWorkerPool
}.

Definition new_QueryCompiler : QueryCompiler :=
  mkQueryCompiler Finder.new_QueryCompiler None.

Definition addQuery_message : string :=
  "addQuery cannot be called after newQueryMatcher!".

Definition addQuery (query : string) (qc : QueryCompiler)
  : Finder.completion unit * QueryCompiler * list string :=
  match workerPool qc with
  | Some _ => (Finder.Throw (Finder.Error addQuery_message), qc, [])
  | None =>
      match Finder.addQuery query (qcInternal qc) with
      | (c, qcInternal', warnings) =>
          (c, mkQueryCompiler qcInternal' None, warnings)
      end
  end.

Record AsyncQueryMatcher := mkAsyncQueryMatcher {
  matchedQueries : option (list string);
  sourceTexts : list string
}.

(** [newQueryMatcher]; [numThreads] is what [getNumThreads()] reads from the
    environment if the pool has to be created. *)
Definition newQueryMatcher (numThreads : Z) (qc : QueryCompiler)
  : AsyncQueryMatcher * QueryCompiler :=
  let workerPool' :=
    match workerPool qc with
    | Some p => p
    | None =>
        new_QueryMatcherWorkerPool numThreads
          (Finder.qc_queriesAndPatterns (qcInternal qc))
    end in
  (mkAsyncQueryMatcher None [],
   mkQueryCompiler (qcInternal qc) (Some workerPool')).

Definition destroy (qc : QueryCompiler) : QueryCompiler :=
  match workerPool qc with
  | Some _ => mkQueryCompiler (qcInternal qc) None
  | None => qc
  end.

End Async.

(** ** The asynchronous matcher *)

Module AsyncMatcher.
Import Async.

(** [addSource(sourceText)]: the text goes into the Set as it is. *)
Definition addSource (sourceText : string) (qm : AsyncQueryMatcher)
  : AsyncQueryMatcher :=
  mkAsyncQueryMatcher (matchedQueries qm)
    (Finder.Set_add sourceText (sourceTexts qm)).

(** [findMatches()] up to its [await]: the task is handed to the pool.
    The task holds the Set itself, which is copied when the message is
    posted to a worker; the task of the model holds the texts of the Set
    at the call, which is the same as long as the matcher is given no text
    while its task waits for a worker. *)
Definition findMatches_call (qm : AsyncQueryMatcher) (st : State)
  : nat * State :=
  queryResultsForSourceTexts (sourceTexts qm) st.

(** [findMatches()] after its [await].  [None]: the promise of the pool is
    pending and the call stays suspended. *)
Definition findMatches_resume (qm : AsyncQueryMatcher) (outcome : Promise)
  : option (Finder.completion AsyncQueryMatcher) :=
  match outcome with
  | Pending => None
  | Fulfilled value =>
      Some (Finder.Normal (mkAsyncQueryMatcher (Some value) (sourceTexts qm)))
  | Rejected reason => Some (Finder.Throw reason)
  end.

Definition getMatchedResults_message : string :=
  "Attempted to get results before findMatches resolved".

Definition getMatchedResults (qm : AsyncQueryMatcher)
  : Finder.completion (list string) :=
  match matchedQueries qm with
  | None => Finder.Throw (Finder.Error getMatchedResults_message)
  | Some results => Finder.Normal results
  end.

End AsyncMatcher.

(** ** helpers/concurrent-task-queue.js *)

Module TaskQueue.

Section ConcurrentTaskQueue.
(** What a task callback yields, and what it throws. *)
Context {V E : Type}.

(** The state of a promise. *)
Inductive Promise :=
| Pending
| Fulfilled (value : V)
| Rejected (reason : E).

(** What [runTaskCallback()] does when it is called: it throws at once, or
    it returns a value or a promise, on which [_runNextTask] awaits.  A
    callback is taken not to call [queueTask] of the same queue before it
    returns. *)
Inductive Callback :=
| Throws (e : E)
| Returns.

(** An entry of [tasks]; [resolve] and [reject] are the two functions of
    the promise that [queueTask] makes with [new Promise], named by its
    index in [promises]. *)
Record Task := mkTask {
  promise : nat;
  runTaskCallback : Callback
}.

(** The queue, with the objects around it: the calls of [_runNextTask]
    that are suspended at their [await] (each with the task whose callback
    it awaits), the promises of the tasks, the callbacks called so far, in
    the order of the calls, and the promises that [queueTask] has returned.
    [queueTask] is an [async] function: what it returns to its caller is a
    promise of its own, resolved with the promise of the task.  It is
    pending while the call runs and takes the state of the promise of the
    task in a later microtask (see [follow]).  The promise of a task and
    the promise returned for it have the same index. *)
Record State := mkState {
  max : Z;
  size : Z;
  tasks : list Task;
  awaiting : list Task;
  promises : list Promise;
  called : list nat;
  returned : list Promise
}.

(** [new ConcurrentTaskQueue(max)]. *)
Definition new_ConcurrentTaskQueue (max : Z) : State :=
  mkState max 0 [] [] [] [] [].

(** [task.resolve(v)] and [task.reject(e)]: only a pending promise
    changes. *)
Definition settle (p : nat) (outcome : Promise) (ps : list Promise)
  : list Promise :=
  match ps !! p with
  | Some Pending => <[p := outcome]> ps
  | _ => ps
  end.

(** One call of [_runNextTask], from the test of its loop up to its first
    [await] or its end.  A callback that throws is answered in the same
    turn, and the loop goes on; at an [await] the call is suspended. *)
Fixpoint runNextTask_loop (waiting : list Task) (st : State) : State :=
  match waiting with
  | [] =>
      mkState (max st) (size st) [] (awaiting st) (promises st) (called st)
        (returned st)
  | task :: waiting' =>
      if (size st <? max st)%Z then
        (* const task = this.tasks.shift(); ++this.size; *)
        match runTaskCallback task with
        | Throws e =>
            (* task.reject(e); --this.size; *)
            runNextTask_loop waiting'
              (mkState (max st) (size st + 1 - 1) waiting' (awaiting st)
                 (settle (promise task) (Rejected e) (promises st))
                 (called st ++ [promise task]) (returned st))
        | Returns =>
            mkState (max st) (size st + 1) waiting' (awaiting st ++ [task])
              (promises st) (called st ++ [promise task]) (returned st)
        end
      else
        mkState (max st) (size st) waiting (awaiting st) (promises st)
          (called st) (returned st)
  end.

Definition _runNextTask (st : State) : State :=
  runNextTask_loop (tasks st) st.

(** [queueTask(runTaskCallback)]: the index of the promise of the task
    and of the promise returned, and the state when the call returns.  The
    promise returned is pending then, whatever has become of the promise of
    the task. *)
Definition queueTask (runTaskCallback : Callback) (st : State)
  : nat * State :=
  let p := length (promises st) in
  (p,
   _runNextTask
     (mkState (max st) (size st) (tasks st ++ [mkTask p runTaskCallback])
        (awaiting st) (promises st ++ [Pending]) (called st)
        (returned st ++ [Pending]))).

(** The microtask in which the promise that [queueTask] returned takes the
    state of the promise of its task.  [None]: the promise of the task is
    pending, or the promise returned is settled. *)
Definition follow (p : nat) (st : State) : option State :=
  match promises st !! p, returned st !! p with
  | Some Pending, _ => None
  | Some outcome, Some Pending =>
      Some
        (mkState (max st) (size st) (tasks st) (awaiting st) (promises st)
           (called st) (<[p := outcome]> (returned st)))
  | _, _ => None
  end.

(** Take the first task of promise [p] out of a list. *)
Fixpoint take_task (p : nat) (l : list Task) : option (Task * list Task) :=
  match l with
  | [] => None
  | t :: l' =>
      if decide (promise t = p) then Some (t, l')
      else
        match take_task p l' with
        | Some (t', rest) => Some (t', t :: rest)
        | None => None
        end
  end.

(** The call of [_runNextTask] that awaits the callback of the task of
    promise [p] goes on, once what the callback returned is settled with
    [outcome]: the task is answered, [size] goes down and the loop is
    tested again.  [None]: no call awaits that callback. *)
Definition resume (p : nat) (outcome : V + E) (st : State) : option State :=
  match take_task p (awaiting st) with
  | Some (task, awaiting') =>
      let answer :=
        match outcome with
        | inl v => Fulfilled v
        | inr e => Rejected e
        end in
      Some
        (_runNextTask
           (mkState (max st) (size st - 1) (tasks st) awaiting'
              (settle (promise task) answer (promises st)) (called st)
              (returned st)))
  | None => None
  end.

(** What can happen to a queue. *)
Inductive event :=
| QueueTask (runTaskCallback : Callback)
| CallbackSettles (p : nat) (outcome : V + E)
| ReturnedFollows (p : nat).

Definition step (e : event) (st : State) : option State :=
  match e with
  | QueueTask cb => Some (queueTask cb st).2
  | CallbackSettles p outcome => resume p outcome st
  | ReturnedFollows p => follow p st
  end.

Fixpoint run (es : list event) (st : State) : option State :=
  match es with
  | [] => Some st
  | e :: es' =>
      match step e st with
      | Some st' => run es' st'
      | None => None
      end
  end.

End ConcurrentTaskQueue.

Arguments Promise : clear implicits.
Arguments Callback : clear implicits.
Arguments Task : clear implicits.
Arguments State : clear implicits.
Arguments event : clear implicits.

End TaskQueue.

(** ** bin/filter: the extension directory of a path *)

Module ExtensionDirectory.
Import Re Finder.

(** [r1] followed by [r2], for patterns as the parser builds them: a
    sequence that ends in [Eps]. *)
Fixpoint followed_by (r1 r2 : regex) : regex :=
  match r1 with
  | Eps => r2
  | Seq a b => Seq a (followed_by b r2)
  | _ => Seq r1 r2
  end.

(** [r{n}]. *)
Fixpoint times (n : nat) (r : regex) : regex :=
  match n with
  | 0 => Eps
  | S n' => followed_by r (times n' r)
  end.

Definition pattern (source : string) : regex :=
  match parse false source with Some r => r | None => Eps end.

(** [/^(?:.*\/)?\d+\/[a-f0-9]{64}(?=\/| |$)/]: the directories that
    webextaware creates. *)
Definition webextaware : regex :=
  Eval vm_compute in
    followed_by (pattern "^(?:.*\/)?\d+\/")
      (followed_by (times 64 (pattern "[a-f0-9]"))
         (pattern "(?=\/| |$)")).

(** [/^(?:.*\/)?unzipped\/1\/\d+\/\d\/\d+\/\d+(?=\/|$)/]: the directories
    of the network share. *)
Definition unzipped : regex :=
  Eval vm_compute in
    pattern "^(?:.*\/)?unzipped\/1\/\d+\/\d\/\d+\/\d+(?=\/|$)".

(** The pattern that is matched against the full path. *)
Definition regexUnzipped_source : string :=
  join "/(?:\./)?"
    ["^(?:.*/)?unzipped[^/]*"; "1"; "\d+"; "\d+"; "\d+";
     "\d+(/\.|(?=/|$))"].

Definition regexUnzipped : regex :=
  Eval vm_compute in pattern regexUnzipped_source.

(** [s.slice(from, to)] for indices that are not negative. *)
Definition slice (s : string) (from to : nat) : string :=
  substring from (to - from) s.

(** [match[0]] of a match from [p] to [e]. *)
Definition matched (s : string) (m : nat * nat) : string :=
  slice s m.1 m.2.

(** [getExtensionDirectory(filepath)]; [cwd] is what [process.cwd()]
    returned when the function first needed it.  [None] stands for
    [undefined]. *)
Definition getExtensionDirectory (cwd : string) (filepath : string)
  : option string :=
  match exec webextaware (list_ascii_of_string filepath) 0 with
  | Some m => Some (matched filepath m)
  | None =>
      match exec unzipped (list_ascii_of_string filepath) 0 with
      | Some m => Some (matched filepath m)
      | None =>
          let cwdDir := cwd +:+ "/" in
          let abspath := cwdDir +:+ filepath in
          match exec regexUnzipped (list_ascii_of_string abspath) 0 with
          | Some m =>
              if String.length cwdDir <? String.length (matched abspath m)
              then
                Some
                  (slice abspath (String.length cwdDir)
                     (String.length (matched abspath m)))
              else None
          | None => None
          end
      end
  end.

End ExtensionDirectory.

(** ** bin/filter: the permissions filter *)

Module Filter.
Import ExtensionDirectory.

(** An item of an array in a manifest, as far as the filter can tell items
    apart: a string, or anything else. *)
Inductive item :=
| IString (s : string)
| IOther.

(** The value of a property of a manifest: an array, or anything else
    ([undefined] when the property is missing, [null], a string, a number,
    a boolean, an object). *)
Inductive value :=
| VArray (items : list item)
| VOther.

(** [s.split(sep)] for a separator of one code unit. *)
Fixpoint split (sep : ascii) (s : string) : list string :=
  match s with
  | EmptyString => [EmptyString]
  | String c s' =>
      if Ascii.eqb c sep
      then EmptyString :: split sep s'
      else
        match split sep s' with
        | p :: ps => String c p :: ps
        | [] => [String c EmptyString]
        end
  end.

(** [permissions.includes(p)] for a string [p]: only a string is the same
    value as a string. *)
Definition includes (permissions : list item) (p : string) : bool :=
  existsb
    (fun v => match v with IString s => String.eqb s p | IOther => false end)
    permissions.

Record PermissionsFilter := mkPermissionsFilter {
  anyOfPermissionsLists : list (list string)
}.

Definition new_PermissionsFilter (args : list string) : PermissionsFilter :=
  mkPermissionsFilter (map (fun perms => split "," perms) args).

Definition _matchesArgs (this : PermissionsFilter) (permissions : list item)
  : bool :=
  existsb
    (fun allOfPermissions =>
       forallb (fun p => includes permissions p) allOfPermissions)
    (anyOfPermissionsLists this).

(** What [getManifest(extdir)] does: it throws (the file cannot be read or
    is not the JSON of an object), or it returns the manifest, of which the
    filter reads two properties. *)
Inductive manifest_result :=
| ManifestThrows (e : string)
| Manifest (permissions optional_permissions : value).

Definition quote : string := String (ascii_of_nat 34) EmptyString.

Definition not_an_extension_directory (line : string) : string :=
  "Not an extension directory: " +:+ quote +:+ line +:+ quote.

(** [filter(logger, line)]; [cwd] is the working directory and
    [getManifest] is what the function of that name does for every
    directory at the time of the call.  The result is the answer and what
    was handed to [logger.warn]. *)
Definition filter (this : PermissionsFilter) (cwd : string)
    (getManifest : string -> manifest_result) (line : string)
  : bool * list string :=
  match getExtensionDirectory cwd line with
  | None | Some EmptyString => (false, [not_an_extension_directory line])
  | Some extdir =>
      match getManifest extdir with
      | ManifestThrows e => (false, ["Invalid manifest: " +:+ e])
      | Manifest permissions optional_permissions =>
          match permissions, optional_permissions with
          | VOther, VArray os => (_matchesArgs this os, [])
          | VArray ps, VOther => (_matchesArgs this ps, [])
          | VArray ps, VArray os => (_matchesArgs this (ps ++ os), [])
          | VOther, VOther => (false, []) (* = this._matchesArgs([]) *)
          end
      end
  end.

End Filter.

(** ** bin/filter: the api-usage filter *)

Module ApiUsage.
Import Finder ExtensionDirectory.

Record ApiUsageFilter := mkApiUsageFilter {
  qc : Async.QueryCompiler;
  logUsage : bool;
  seenExts : list string
}.

(** The loop of the constructor over its arguments.  The result is how the
    loop ends, with the compiler and [logUsage] if it ends well, and what
    was written with [console.warn]. *)
Fixpoint args_loop (args : list string) (qc : Async.QueryCompiler)
    (logUsage : bool) (warnings : list string)
  : completion (Async.QueryCompiler * bool) * list string :=
  match args with
  | [] => (Normal (qc, logUsage), warnings)
  | arg :: args' =>
      if startsWith arg "--" then
        if String.eqb arg "--log-usage" then
          args_loop args' qc true warnings
        else (Throw (Error ("Unsupported argument: " +:+ arg)), warnings)
      else
        match Async.addQuery arg qc with
        | (Normal _, qc', w) => args_loop args' qc' logUsage (warnings ++ w)
        | (Throw e, _, w) => (Throw e, warnings ++ w)
        end
  end.

(** [new FILTERS["api-usage"](args)]. *)
Definition new_ApiUsageFilter (args : list string)
  : completion ApiUsageFilter * list string :=
  match args_loop args Async.new_QueryCompiler false [] with
  | (Normal (qc, logUsage), warnings) =>
      (Normal (mkApiUsageFilter qc logUsage []), warnings)
  | (Throw e, warnings) => (Throw e, warnings)
  end.

(** How [filter(logger, line)] goes on after its first lines: it returns
    [false], with a warning or without, or it hands the task of reading
    the extension directory to [ioTaskQueue]. *)
Inductive filter_start :=
| ReturnsFalse (warnings : list string)
| QueuesTask (extdir : string).

(** [filter(logger, line)] up to [this.ioTaskQueue.queueTask(...)]. *)
Definition filter (cwd line : string) (this : ApiUsageFilter)
  : filter_start * ApiUsageFilter :=
  match getExtensionDirectory cwd line with
  | None | Some EmptyString =>
      (ReturnsFalse [Filter.not_an_extension_directory line], this)
  | Some extdir =>
      if Set_has extdir (seenExts this) then
        (* Already seen before, handled by previous lines. *)
        (ReturnsFalse [], this)
      else
        (QueuesTask extdir,
         mkApiUsageFilter (qc this) (logUsage this)
           (Set_add extdir (seenExts this)))
  end.

End ApiUsage.

(** ** bin/filter: the lines that are written *)

Module Output.

(** What [filterCmd.filter(logger, line)] has done with its logger when
    it resolves: whether the line is wanted, the output line (the line
    itself unless [replaceOutputLine] was called) and the warnings. *)
Record Answer := mkAnswer {
  wantLine : bool;
  outputLine : string;
  warnings : list string
}.

(** How the promise of [filterCmd.filter] has settled. *)
Inductive Filtered :=
| Resolves (a : Answer)
| Throws (e : string).

Inductive Promise :=
| Pending
| Fulfilled
| Rejected (e : string).

(** The asynchronous function that [main] starts for a line of the input:
    the line, how its filter has settled, if it has, and the promise of
    the function, which is the [previousPromise] of the next line. *)
Record Started := mkStarted {
  line : string;
  filtered : option Filtered;
  pendingPromise : Promise
}.

(** The functions started so far, in the order of the lines, and what was
    written with [console.log] and with [console.warn]. *)
Record State := mkState {
  started : list Started;
  console_log : list string;
  console_warn : list string
}.

Definition initial : State := mkState [] [] [].

(** What the function of a line writes after its two [await]s: the
    output line if the line is wanted, and two lines for every warning. *)
Definition logged (a : Answer) : list string :=
  if wantLine a then [outputLine a] else [].

Definition warned (line : string) (a : Answer) : list string :=
  flat_map (fun warning => ["Warning in " +:+ line; warning]) (warnings a).

(** A function goes on as far as it can: it waits for its filter, which
    may throw, then for [previousPromise], which may be rejected, and then
    writes. *)
Definition resume (previousPromise : Promise) (p : Started)
    (out err : list string) : Started * (list string * list string) :=
  match pendingPromise p with
  | Pending =>
      match filtered p with
      | None => (p, (out, err))
      | Some (Throws e) =>
          (mkStarted (line p) (filtered p) (Rejected e), (out, err))
      | Some (Resolves a) =>
          match previousPromise with
          | Pending => (p, (out, err))
          | Rejected e =>
              (mkStarted (line p) (filtered p) (Rejected e), (out, err))
          | Fulfilled =>
              (mkStarted (line p) (filtered p) Fulfilled,
               (out ++ logged a, err ++ warned (line p) a))
          end
      end
  | _ => (p, (out, err))
  end.

(** Every function that can go on does, in the order of the lines. *)
Fixpoint go_on (previousPromise : Promise) (ps : list Started)
    (out err : list string) : list Started * (list string * list string) :=
  match ps with
  | [] => ([], (out, err))
  | p :: ps' =>
      let (p', w) := resume previousPromise p out err in
      let (ps'', w') := go_on (pendingPromise p') ps' w.1 w.2 in
      (p' :: ps'', w')
  end.

(** What can happen: a line is read, or the filter of the line number [i]
    settles. *)
Inductive event :=
| ReadLine (line : string)
| FilterSettles (i : nat) (f : Filtered).

(** [None]: the event cannot happen (no filter of that line is awaited).
    The first [previousPromise] is [Promise.resolve()]. *)
Definition step (e : event) (st : State) : option State :=
  match e with
  | ReadLine l =>
      Some
        (mkState (started st ++ [mkStarted l None Pending])
           (console_log st) (console_warn st))
  | FilterSettles i f =>
      match started st !! i with
      | Some p =>
          match filtered p with
          | None =>
              let (ps, w) :=
                go_on Fulfilled
                  (<[i := mkStarted (line p) (Some f) (pendingPromise p)]>
                     (started st))
                  (console_log st) (console_warn st) in
              Some (mkState ps w.1 w.2)
          | Some _ => None
          end
      | None => None
      end
  end.

Fixpoint run (es : list event) (st : State) : option State :=
  match es with
  | [] => Some st
  | e :: es' =>
      match step e st with
      | Some st' => run es' st'
      | None => None
      end
  end.

End Output.

(** ** Properties of the synchronous matcher *)

Module MatcherProps.
Import Re Finder.

(** A pattern matches when it matches any of the stored source texts; a
    condition when all its patterns do; a compiled query when one of its
    conditions does. *)
Definition pattern_matches (texts : list string) (p : RegExp) : bool :=
  existsb (RegExp_test p) texts.
Definition condition_matches (texts : list string) (ps : list RegExp)
  : bool :=
  forallb (pattern_matches texts) ps.
Definition query_matches (texts : list string) (conds : list (list RegExp))
  : bool :=
  existsb (condition_matches texts) conds.

(** Every cached result is the result of the test it stands for. *)
Definition results_ok (texts : list string) (results : gmap RegExp bool)
  : Prop :=
  forall p b, results !! p = Some b -> b = pattern_matches texts p.

Lemma results_ok_empty texts : results_ok texts ∅.
Proof. intros p b H. by rewrite lookup_empty in H. Qed.

Lemma testMatch_ok texts p results :
  results_ok texts results ->
  (testMatch texts p results).1 = pattern_matches texts p /\
  results_ok texts (testMatch texts p results).2.
Proof.
  intros Hok. unfold testMatch.
  destruct (results !! p) as [b|] eqn:Hp; simpl.
  - split; [by apply Hok | done].
  - split; [done |].
    intros p' b'. rewrite lookup_insert. case_decide; [|by apply Hok].
    intros [= <-]. by subst.
Qed.

Lemma every_testMatch_ok texts ps : forall results,
  results_ok texts results ->
  (every_testMatch texts ps results).1 = condition_matches texts ps /\
  results_ok texts (every_testMatch texts ps results).2.
Proof.
  induction ps as [|p ps IH]; intros results Hok; simpl; [done|].
  destruct (testMatch_ok texts p results Hok) as [H1 H2].
  destruct (testMatch texts p results) as [[] results']; simpl in *;
    rewrite <- H1; simpl; [by apply IH | done].
Qed.

Lemma some_condition_ok texts conds : forall results,
  results_ok texts results ->
  (some_condition texts conds results).1 = query_matches texts conds /\
  results_ok texts (some_condition texts conds results).2.
Proof.
  induction conds as [|ps conds IH]; intros results Hok; simpl; [done|].
  destruct (every_testMatch_ok texts ps results Hok) as [H1 H2].
  destruct (every_testMatch texts ps results) as [[] results']; simpl in *;
    rewrite <- H1; simpl; [done | by apply IH].
Qed.

Lemma Set_has_true x s : Set_has x s = true <-> x ∈ s.
Proof. unfold Set_has. by rewrite bool_decide_eq_true. Qed.

Lemma elem_of_Set_add x y s : x ∈ Set_add y s <-> x ∈ s \/ x = y.
Proof.
  unfold Set_add. destruct (Set_has y s) eqn:Hy.
  - apply Set_has_true in Hy. split; [by left | by intros [ | -> ]].
  - rewrite elem_of_app, list_elem_of_singleton. done.
Qed.

Lemma Set_add_has x s : x ∈ s -> Set_add x s = s.
Proof.
  intros H. unfold Set_add.
  by rewrite (proj2 (Set_has_true x s) H).
Qed.

Lemma findMatches_loop_spec texts entries : forall matched results q,
  results_ok texts results ->
  q ∈ (findMatches_loop texts entries matched results).1 <->
  q ∈ matched \/
  exists conds, (q, conds) ∈ entries /\ query_matches texts conds = true.
Proof.
  induction entries as [|[query conds] entries IH];
    intros matched results q Hok; simpl.
  - split; [by left|]. intros [H|(conds & H & _)]; [done|].
    by apply elem_of_nil in H.
  - destruct (Set_has query matched) eqn:Hhas.
    + rewrite IH by done. apply Set_has_true in Hhas.
      split; intros [H|(c & Hin & Hm)]; auto.
      * right. exists c. split; [by right | done].
      * apply elem_of_cons in Hin as [ [= -> ->] | Hin]; [by left|].
        right. by exists c.
    + destruct (some_condition_ok texts conds results Hok) as [H1 H2].
      destruct (some_condition texts conds results) as [[] results'];
        simpl in *; rewrite IH by done.
      * rewrite elem_of_Set_add.
        split.
        -- intros [[H | -> ]|(c & Hin & Hm)]; auto.
           ++ right. exists conds. split; [by left | done].
           ++ right. exists c. split; [by right | done].
        -- intros [H|(c & Hin & Hm)]; auto.
           apply elem_of_cons in Hin as [ [= -> ->] | Hin]; [by left; right|].
           right. by exists c.
      * split; intros [H|(c & Hin & Hm)]; auto.
        -- right. exists c. split; [by right | done].
        -- apply elem_of_cons in Hin as [ [= -> ->] | Hin]; [congruence|].
           right. by exists c.
Qed.

Lemma query_matches_true texts conds :
  query_matches texts conds = true <->
  exists ps, ps ∈ conds /\
    forall p, p ∈ ps ->
      exists t, t ∈ texts /\ RegExp_test p t = true.
Proof.
  unfold query_matches, condition_matches, pattern_matches.
  rewrite existsb_exists. split.
  - intros (ps & Hin & Hall). exists ps.
    split; [by apply list_elem_of_In|].
    intros p Hp. rewrite forallb_forall in Hall.
    apply list_elem_of_In, Hall, existsb_exists in Hp as (t & Ht & Htest).
    exists t. split; [by apply list_elem_of_In | done].
  - intros (ps & Hin & Hall). exists ps.
    split; [by apply list_elem_of_In|].
    apply forallb_forall. intros p Hp.
    apply list_elem_of_In, Hall in Hp as (t & Ht & Htest).
    apply existsb_exists. exists t.
    split; [by apply list_elem_of_In | done].
Qed.

(** The calls made on one matcher. *)
Inductive call := AddSource (sourceText : string) | FindMatches.

Definition do_call (c : call) (qm : QueryMatcher) : QueryMatcher :=
  match c with
  | AddSource sourceText => addSource sourceText qm
  | FindMatches => findMatches qm
  end.

Definition do_calls (cs : list call) (qm : QueryMatcher) : QueryMatcher :=
  fold_left (fun qm c => do_call c qm) cs qm.

(** The texts handed to [addSource] in a sequence of calls. *)
Fixpoint added (cs : list call) : list string :=
  match cs with
  | [] => []
  | AddSource t :: cs' => t :: added cs'
  | FindMatches :: cs' => added cs'
  end.

Lemma do_calls_sourceTexts cs : forall qm x,
  x ∈ sourceTexts (do_calls cs qm) <->
  x ∈ sourceTexts qm \/
  exists t, t ∈ added cs /\ (x = t \/ x = stripComments t).
Proof.
  induction cs as [|c cs IH]; intros qm x; simpl.
  - split; [by left|]. intros [H|(t & H & _)]; [done|].
    by apply elem_of_nil in H.
  - rewrite IH. destruct c as [t|]; simpl.
    + rewrite !elem_of_Set_add. split.
      * intros [[[H | -> ]| ->]|(t' & Hin & H)]; auto.
        -- right. exists t. split; [by left | by left].
        -- right. exists t. split; [by left | by right].
        -- right. exists t'. split; [by right | done].
      * intros [H|(t' & Hin & H)]; [by left; left; left|].
        apply elem_of_cons in Hin as [ -> | Hin].
        -- destruct H as [ -> | -> ]; [by left; left; right | by left; right].
        -- right. by exists t'.
    + done.
Qed.

Lemma findMatches_elem (qm : QueryMatcher) (q : string) :
  q ∈ matchedQueries (findMatches qm) <->
  q ∈ matchedQueries qm \/
  exists conds ps,
    (q, conds) ∈ queriesAndPatterns qm /\ ps ∈ conds /\
    forall p, p ∈ ps ->
      exists t, t ∈ sourceTexts qm /\ RegExp_test p t = true.
Proof.
  unfold findMatches. simpl.
  rewrite findMatches_loop_spec by apply results_ok_empty.
  split; (intros [H|H]; [by left | right]).
  - destruct H as (conds & Hin & Hm).
    apply query_matches_true in Hm as (ps & Hps & Hall). by exists conds, ps.
  - destruct H as (conds & ps & Hin & Hps & Hall). exists conds.
    split; [done|]. apply query_matches_true. by exists ps.
Qed.

(** *** Monotonicity *)

Lemma do_call_matched c qm :
  matchedQueries qm ⊆ matchedQueries (do_call c qm).
Proof.
  intros q Hq. destruct c; simpl; [done|].
  apply findMatches_elem. by left.
Qed.

Lemma do_calls_matched cs : forall qm,
  matchedQueries qm ⊆ matchedQueries (do_calls cs qm).
Proof.
  induction cs as [|c cs IH]; intros qm; simpl; [done|].
  etrans; [apply (do_call_matched c) | apply IH].
Qed.

Lemma do_calls_app cs1 cs2 qm :
  do_calls (cs1 ++ cs2) qm = do_calls cs2 (do_calls cs1 qm).
Proof. unfold do_calls. by rewrite fold_left_app. Qed.

(** C3.  No call of [addSource] or [findMatches] removes a query from the
    matched set, and the matched set after a prefix of a sequence of such
    calls is included in the matched set after the whole sequence. *)
Theorem matchedQueries_monotone :
  (forall (c : call) (qm : QueryMatcher),
     matchedQueries qm ⊆ matchedQueries (do_call c qm)) /\
  (forall (cs1 cs2 : list call) (qm : QueryMatcher),
     matchedQueries (do_calls cs1 qm)
     ⊆ matchedQueries (do_calls (cs1 ++ cs2) qm)).
Proof.
  split; [apply do_call_matched|].
  intros cs1 cs2 qm. rewrite do_calls_app. apply do_calls_matched.
Qed.

(** *** Adding a text again *)

Lemma addSource_twice t qm : addSource t (addSource t qm) = addSource t qm.
Proof.
  unfold addSource. simpl. f_equal.
  rewrite (Set_add_has t).
  - apply Set_add_has. apply elem_of_Set_add. by right.
  - apply elem_of_Set_add. left. apply elem_of_Set_add. by right.
Qed.

(** Matchers that agree on everything but the order of their source texts
    find the same queries. *)
Lemma findMatches_same_texts qm1 qm2 :
  queriesAndPatterns qm1 = queriesAndPatterns qm2 ->
  matchedQueries qm1 = matchedQueries qm2 ->
  (forall x, x ∈ sourceTexts qm1 <-> x ∈ sourceTexts qm2) ->
  forall q,
    q ∈ matchedQueries (findMatches qm1) <->
    q ∈ matchedQueries (findMatches qm2).
Proof.
  intros Hqp Hm Ht q. rewrite !findMatches_elem, Hqp, Hm.
  split; (intros [H|(conds & ps & Hin & Hps & Hall)]; [by left | right]);
    exists conds, ps; (split; [done|]); (split; [done|]);
    intros p Hp; destruct (Hall p Hp) as (t & Hin' & Htest);
    exists t; (split; [by apply Ht | done]).
Qed.

(** The compiler after [addQuery] of each query of a list. *)
Definition compiler_of (queries : list string) : QueryCompiler :=
  fold_left (fun qc q => (addQuery q qc).1.2) queries new_QueryCompiler.

(** What a fresh matcher of [compiler_of queries] reports after the texts
    are added and [findMatches()] is called. *)
Definition results_for (queries texts : list string) : list string :=
  getMatchedResults
    (findMatches
       (fold_left (fun qm t => addSource t qm) texts
          (newQueryMatcher (compiler_of queries)))).

(** C4, as stated, fails: two texts that are comments only have the same
    copy without comments (the empty text), but their raw copies are kept
    and searched, so adding both finds more than adding either. *)
Lemma same_stripped_not_equivalent :
  let a := "/* ns.api */" in
  let b := "/* tabs.create */" in
  let queries := ["ns.api"; "tabs.create"] in
  stripComments a = stripComments b /\
  results_for queries [a; b] = ["ns.api"; "tabs.create"] /\
  results_for queries [a] = ["ns.api"] /\
  results_for queries [b] = ["tabs.create"].
Proof. vm_compute. done. Qed.

(** C4, amended.  Adding the same text twice leaves the matcher as adding
    it once does, for every text and every matcher; and when two texts have
    the same copy without comments and one of them has no comment (it is
    that copy), adding both, in either order, finds the same queries as
    adding the other one alone. *)
Theorem addSource_deduplicates :
  (forall (qm : QueryMatcher) (a : string),
     addSource a (addSource a qm) = addSource a qm) /\
  (forall (qm : QueryMatcher) (a b : string),
     stripComments a = stripComments b ->
     b = stripComments b ->
     addSource b (addSource a qm) = addSource a qm /\
     forall q,
       q ∈ matchedQueries (findMatches (addSource a (addSource b qm))) <->
       q ∈ matchedQueries (findMatches (addSource a qm))).
Proof.
  split; [intros qm a; apply addSource_twice|].
  intros qm a b Hab Hb.
  assert (Hin : b ∈ sourceTexts (addSource a qm)).
  { simpl. apply elem_of_Set_add. right. congruence. }
  split.
  - unfold addSource at 1. rewrite <- Hb.
    destruct (addSource a qm) as [qp m ts] eqn:E. simpl in *. f_equal.
    rewrite (Set_add_has b ts Hin). by apply Set_add_has.
  - apply findMatches_same_texts; [done | done |].
    intros x. unfold addSource. cbn [sourceTexts].
    rewrite !elem_of_Set_add, <- Hb. rewrite <- Hb in Hab. rewrite Hab.
    tauto.
Qed.

(** Both parts at work: a text with a comment whose copy without comments
    is not free of comments itself, added twice; and a text with a comment
    next to its copy without comments. *)
Lemma addSource_deduplicates_witness :
  let qm := newQueryMatcher (compiler_of ["ns.api"]) in
  stripComments "x://**/* y */" = "x:/* y */" /\
  stripComments "x:/* y */" = "x:" /\
  addSource "x://**/* y */" (addSource "x://**/* y */" qm)
  = addSource "x://**/* y */" qm /\
  addSource "ns.api" (addSource "ns/**/.api" qm)
  = addSource "ns/**/.api" qm /\
  forall q,
    q ∈ matchedQueries
          (findMatches (addSource "ns/**/.api" (addSource "ns.api" qm))) <->
    q ∈ matchedQueries (findMatches (addSource "ns/**/.api" qm)).
Proof.
  split; [vm_compute; reflexivity|]. split; [vm_compute; reflexivity|].
  split.
  - apply (proj1 addSource_deduplicates).
  - apply (proj2 addSource_deduplicates
             (newQueryMatcher (compiler_of ["ns.api"])) "ns/**/.api" "ns.api");
      vm_compute; reflexivity.
Defined.

End MatcherProps.

(** ** Properties of the compiler *)

Module CompilerProps.
Import Re Finder.

#[local] Arguments String.append !_ _ / : simpl nomatch.

(** [sharedRegExps] holds, under every source, a RegExp of that source. *)
Definition interned (shared : gmap string RegExp) : Prop :=
  forall s re, shared !! s = Some re -> source re = s.

Lemma interned_empty : interned ∅.
Proof. intros s re H. by rewrite lookup_empty in H. Qed.

Lemma newRegExp_spec src shared :
  interned shared ->
  match newRegExp src shared with
  | (Normal re, shared') => source re = src /\ interned shared'
  | (Throw e, shared') =>
      e = SyntaxError src /\ parse false src = None /\ shared' = shared
  end.
Proof.
  intros Hs. unfold newRegExp, new_RegExp.
  destruct (shared !! src) as [re|] eqn:Hre.
  - split; [by apply Hs | done].
  - destruct (parse false src) eqn:Hp; [|done].
    split; [done|]. intros s re. rewrite lookup_insert.
    case_decide; [|by apply Hs]. by intros [= <-].
Qed.

(** *** The sources of the conditions of a query *)

(** These definitions name what [compileQuery] hands to [newRegExp], from
    the parts that [split_dot] finds in the query.  A part, as a group of
    its own: *)
Definition wrap (p : string) : string := "(?:" +:+ p +:+ ")".

(** [BODY(k..m)]: the parts [k] to [m] (counted from 1), each in a group,
    joined by [DOT]. *)
Definition BODY (ps : list string) (k m : nat) : string :=
  join RE_DOT (map wrap (take (m + 1 - k) (drop (k - 1) ps))).

Definition HOST_DOT : string := "(?:chrome|browser)" +:+ RE_DOT.

(** The sources of the conditions for a query whose parts are [ps]. *)
Definition spec_conditions (query : string) : list (list string) :=
  let ps := split_dot query in
  let n := length ps in
  let p1 := hd "" ps in
  [[re_any_source (BODY ps 1 n)]]
  ++ (if bool_decide (2 <= n /\ p1 <> "browser" /\ p1 <> "chrome")
      then [[re_rhs_source (HOST_DOT +:+ wrap p1);
             re_dot_source (BODY ps 2 n)]]
      else [])
  ++ (if bool_decide (3 <= n)
      then [[re_rhs_source (BODY ps 1 2); re_dot_source (BODY ps 3 n)]]
      else [])
  ++ (if bool_decide (4 <= n)
      then [[re_rhs_source (BODY ps 1 3); re_dot_source (BODY ps 4 n)]]
      else []).

Lemma split_dot_cons query : exists p ps, split_dot query = p :: ps.
Proof.
  induction query as [|c s IH]; simpl; [by eexists _, _|].
  destruct (Ascii.eqb c "."); [by eexists _, _|].
  destruct IH as (p & ps & ->). by eexists _, _.
Qed.

(** A word without dots, followed by a dot, starts the query exactly when
    it is the first of at least two parts. *)
Fixpoint no_dot (w : string) : bool :=
  match w with
  | EmptyString => true
  | String c w' => negb (Ascii.eqb c ".") && no_dot w'
  end.

Lemma startsWith_first_part w : forall query,
  no_dot w = true ->
  startsWith query (w +:+ ".") = true <->
  exists ps, split_dot query = w :: ps /\ ps <> [].
Proof.
  induction w as [|a w IH]; intros query Hw.
  - destruct query as [|c s]; cbn [String.append startsWith split_dot].
    + split; [done|]. by intros (ps & [= <-] & ?).
    + rewrite andb_true_r, (Ascii.eqb_sym "."%char c).
      destruct (Ascii.eqb c ".") eqn:E.
      * split; [|done]. intros _. exists (split_dot s). split; [done|].
        by destruct (split_dot_cons s) as (p & ps & ->).
      * split; [done|]. intros (ps & H & _).
        by destruct (split_dot_cons s) as (p & ps' & Hs); rewrite Hs in H.
  - cbn [no_dot] in Hw.
    apply andb_true_iff in Hw as [Ha Hw]. apply negb_true_iff in Ha.
    destruct query as [|c s]; cbn [String.append startsWith split_dot].
    + split; [done|]. by intros (ps & [=] & ?).
    + destruct (Ascii.eqb_spec a c) as [<-|Hc].
      * rewrite Ha, andb_true_l, (IH s Hw). split.
        -- intros (ps & -> & Hne). by exists ps.
        -- intros (ps & H & Hne).
           destruct (split_dot_cons s) as (p & ps' & Hs); rewrite Hs in *.
           injection H as -> ->. by exists ps.
      * rewrite andb_false_l. split; [done|]. intros (ps & H & _).
        destruct (Ascii.eqb c "."); [done|].
        destruct (split_dot_cons s) as (p & ps' & Hs); rewrite Hs in *.
        congruence.
Qed.

Lemma hasRoot_spec query :
  startsWith query "browser." || startsWith query "chrome." = true <->
  2 <= length (split_dot query) /\
  (hd "" (split_dot query) = "browser" \/ hd "" (split_dot query) = "chrome").
Proof.
  rewrite orb_true_iff.
  rewrite (startsWith_first_part "browser" query eq_refl).
  rewrite (startsWith_first_part "chrome" query eq_refl).
  destruct (split_dot query) as [|p [|p' ps]]; simpl.
  - split; [by intros [(? & ? & ?)|(? & ? & ?)] | lia].
  - split; [|lia]. by intros [(? & [= <- <-] & ?)|(? & [= <- <-] & ?)].
  - split.
    + intros [(? & [= <- <-] & ?)|(? & [= <- <-] & ?)]; (split; [lia|]); auto.
    + intros [_ [->| ->]]; [left | right]; by eexists.
Qed.

Section Conditions.
Variable query : string.
Let ps := split_dot query.
Let parts := map (fun p => "(?:" +:+ p +:+ ")") ps.
Let n := length ps.

Lemma parts_length : length parts = n.
Proof. apply length_map. Qed.

Lemma parts_all : join RE_DOT parts = BODY ps 1 n.
Proof.
  unfold BODY, n. change (1 - 1) with 0.
  by rewrite Nat.add_sub, drop_0, firstn_all.
Qed.

Lemma parts_from k : join RE_DOT (drop k parts) = BODY ps (S k) n.
Proof.
  unfold BODY, parts. replace (S k - 1) with k by lia.
  rewrite skipn_map, take_ge; [done|].
  rewrite length_drop. unfold n. lia.
Qed.

Lemma parts_upto k : join RE_DOT (take k parts) = BODY ps 1 k.
Proof.
  unfold BODY, parts. change (1 - 1) with 0.
  by rewrite Nat.add_sub, drop_0, firstn_map.
Qed.

Lemma parts_first :
  RE_CHROME_OR_BROWSER_DOT +:+ at0 parts = HOST_DOT +:+ wrap (hd "" ps).
Proof.
  unfold parts, ps. by destruct (split_dot_cons query) as (p & l & ->).
Qed.

Lemma first_aliased_test :
  (2 <=? length parts)
  && negb (startsWith query "browser." || startsWith query "chrome.")
  = bool_decide (2 <= n /\ hd "" ps <> "browser" /\ hd "" ps <> "chrome").
Proof.
  rewrite parts_length. apply eq_true_iff_eq.
  rewrite andb_true_iff, negb_true_iff, bool_decide_eq_true.
  rewrite Nat.leb_le, <- not_true_iff_false, hasRoot_spec.
  fold ps n. tauto.
Qed.

Lemma leb_bool_decide k : (k <=? length parts) = bool_decide (k <= n).
Proof.
  rewrite parts_length. apply eq_true_iff_eq.
  by rewrite Nat.leb_le, bool_decide_eq_true.
Qed.
End Conditions.

(** One step of [compileQuery]: split on how the next [newRegExp] ends. *)
Ltac intern_step :=
  match goal with
  | Hs : interned ?sh |- context [newRegExp ?src ?sh] =>
      let H := fresh "H" in
      pose proof (newRegExp_spec src sh Hs) as H;
      destruct (newRegExp src sh) as [[?re|?e] ?sh'];
      [destruct H as [? ?] | destruct H as (-> & ? & ->)];
      cbn [fst snd]
  end.

Ltac rejected_source :=
  eexists; split; [|split; [reflexivity | eassumption]];
  cbn [concat app]; set_solver.

(** [compileQuery] returns RegExps of exactly the sources of
    [spec_conditions], in that order, or throws because [new RegExp] rejects
    one of these sources. *)
Lemma compileQuery_sources (query : string) (shared : gmap string RegExp) :
  interned shared ->
  match compileQuery query shared with
  | (Normal compiledPatterns, shared') =>
      map (map source) compiledPatterns = spec_conditions query /\
      interned shared'
  | (Throw e, _) =>
      exists src,
        src ∈ concat (spec_conditions query) /\
        e = SyntaxError src /\ parse false src = None
  end.
Proof.
  intros Hs. unfold compileQuery, spec_conditions, re_any, re_rhs, re_dot.
  rewrite first_aliased_test, !leb_bool_decide.
  rewrite parts_all, parts_first, !parts_from, !parts_upto.
  set (ps := split_dot query). set (n := length ps).
  unfold bind, ret.
  repeat match goal with
         | |- context [bool_decide ?P] => destruct (bool_decide P)
         end;
    repeat intern_step; cbn [map app]; try rejected_source;
    (split; [congruence | assumption]).
Qed.

Lemma newRegExp_throw src shared e shared' :
  newRegExp src shared = (Throw e, shared') -> e = SyntaxError src.
Proof.
  unfold newRegExp, new_RegExp.
  destruct (shared !! src); [done|].
  destruct (parse false src); [done|]. by intros [= <- _].
Qed.

Lemma compileQuery_throw query shared e shared' :
  compileQuery query shared = (Throw e, shared') ->
  exists src, e = SyntaxError src.
Proof.
  unfold compileQuery, bind, ret, re_any, re_rhs, re_dot.
  repeat match goal with
         | |- context [if ?b then _ else _] => destruct b
         end;
    repeat match goal with
           | |- context [newRegExp ?src ?sh] =>
               let H := fresh "H" in
               pose proof (newRegExp_throw src sh) as H;
               destruct (newRegExp src sh) as [[?re|?e] ?sh']
           end;
    intros [= <- <-]; eauto.
Qed.

(** *** The source of [re_dot] *)

(** [IDENT] and [dot(B)] in the words of the specification. *)
Definition spec_IDENT : string := "[A-Za-z_$][A-Za-z_$0-9]*".
Definition spec_dot (B : string) : string :=
  (spec_IDENT +:+ RE_DOT) +:+ "(?:" +:+ B +:+ ")" +:+ RE_AFTER.

(** C8, as stated, fails: the identifier fragment in front of [DOT] is
    [[A-Za-z_$][0-9]*], not [[A-Za-z_$][A-Za-z_$0-9]*]. *)
Lemma re_dot_source_not_spec_dot :
  re_dot "(?:create)" ∅
  = (Normal (mkRegExp (re_dot_source "(?:create)")),
     {[ re_dot_source "(?:create)" := mkRegExp (re_dot_source "(?:create)") ]})
  /\ re_dot_source "(?:create)"
     = "[A-Za-z_$][0-9]*\s*\??\.\s*(?:(?:create))\s*(?:[%&()*+,\-./:;<=>?[\]^{|}\n]|$)"
  /\ re_dot_source "(?:create)" <> spec_dot "(?:create)".
Proof.
  split; [|split].
  - unfold re_dot, newRegExp. rewrite lookup_empty.
    replace (new_RegExp (re_dot_source "(?:create)"))
      with (Normal (mkRegExp (re_dot_source "(?:create)")))
      by (vm_compute; reflexivity).
    by rewrite insert_empty.
  - vm_compute. reflexivity.
  - vm_compute. discriminate.
Qed.

End CompilerProps.

(** ** Properties of the asynchronous compiler *)

Module AsyncCompilerProps.
Import Finder Async.

(** The calls made on one asynchronous compiler; [newQueryMatcher] comes
    with the thread count that the environment gives at that moment. *)
Inductive call :=
| AddQuery (query : string)
| NewQueryMatcher (numThreads : Z)
| Destroy.

Definition do_call (c : call) (qc : QueryCompiler) : QueryCompiler :=
  match c with
  | AddQuery query => (addQuery query qc).1.2
  | NewQueryMatcher numThreads => (newQueryMatcher numThreads qc).2
  | Destroy => destroy qc
  end.

Definition do_calls (cs : list call) (qc : QueryCompiler) : QueryCompiler :=
  fold_left (fun qc c => do_call c qc) cs qc.

(** [newQueryMatcher] has been called, and [destroy] has not been called
    since. *)
Definition vended (cs : list call) : Prop :=
  exists cs1 numThreads cs2,
    cs = cs1 ++ NewQueryMatcher numThreads :: cs2 /\ Destroy ∉ cs2.

(** The query-to-CompiledQuery map of the compiler. *)
Definition compiled (qc : QueryCompiler)
  : list (string * list (list RegExp)) :=
  qc_queriesAndPatterns (qcInternal qc).

Lemma do_calls_snoc cs c qc :
  do_calls (cs ++ [c]) qc = do_call c (do_calls cs qc).
Proof. unfold do_calls. by rewrite fold_left_app. Qed.

Lemma vended_snoc cs c :
  vended (cs ++ [c]) <->
  match c with
  | AddQuery _ => vended cs
  | NewQueryMatcher _ => True
  | Destroy => False
  end.
Proof.
  split.
  - intros (cs1 & n & cs2 & Heq & Hnd).
    destruct cs2 as [|c2 cs2 _] using rev_ind.
    + apply app_inj_tail in Heq as [_ ->]. done.
    + rewrite app_comm_cons, app_assoc in Heq.
      apply app_inj_tail in Heq as [-> ->].
      rewrite elem_of_app, list_elem_of_singleton in Hnd.
      destruct c2; [|done|tauto].
      exists cs1, n, cs2. split; [done | tauto].
  - destruct c as [q|n|]; [|intros _|done].
    + intros (cs1 & n & cs2 & -> & Hnd).
      exists cs1, n, (cs2 ++ [AddQuery q]).
      split; [by rewrite <- app_assoc|].
      rewrite elem_of_app, list_elem_of_singleton. by intros [?|?].
    + exists cs, n, []. split; [done | apply not_elem_of_nil].
Qed.

Lemma workerPool_addQuery q qc :
  workerPool (addQuery q qc).1.2 = workerPool qc.
Proof.
  unfold addQuery. destruct (workerPool qc) eqn:E; [done|].
  by destruct (Finder.addQuery q (qcInternal qc)) as [[c qc'] w].
Qed.

(** The compiler holds a pool exactly when a matcher has been vended and
    the compiler has not been destroyed since. *)
Lemma workerPool_vended cs :
  is_Some (workerPool (do_calls cs new_QueryCompiler)) <-> vended cs.
Proof.
  induction cs as [|c cs IH] using rev_ind.
  - simpl. split; [by intros [? [=]]|].
    intros (cs1 & n & cs2 & Heq & _). by destruct cs1.
  - rewrite do_calls_snoc, vended_snoc.
    destruct c as [q|n|]; simpl.
    + by rewrite workerPool_addQuery.
    + split; [done | by eexists].
    + unfold destroy.
      destruct (workerPool (do_calls cs new_QueryCompiler)) eqn:E;
        simpl; [|rewrite E]; split; try done; by intros [? [=]].
Qed.

Lemma sync_addQuery_throw q qc e :
  (Finder.addQuery q qc).1.1 = Throw e ->
  (exists src, e = SyntaxError src) /\
  qc_queriesAndPatterns (Finder.addQuery q qc).1.2 = qc_queriesAndPatterns qc.
Proof.
  unfold Finder.addQuery.
  destruct (Map_has q (qc_queriesAndPatterns qc)); [discriminate|].
  pose proof (CompilerProps.compileQuery_throw q (qc_sharedRegExps qc)) as H.
  destruct (compileQuery q (qc_sharedRegExps qc)) as [[c|e'] sh];
    cbn [fst snd]; [discriminate|].
  intros [= ->]. split; [by eapply H | reflexivity].
Qed.

(** C5, as stated, fails: after [destroy()] the compiler accepts queries
    again, although [newQueryMatcher] has been called on it before. *)
Lemma addQuery_after_destroy_returns :
  let cs := [AddQuery "tabs.create"; NewQueryMatcher 4; Destroy] in
  let qc := do_calls cs new_QueryCompiler in
  NewQueryMatcher 4 ∈ cs /\
  (addQuery "storage.local.get" qc).1.1 = Normal tt /\
  map fst (compiled (addQuery "storage.local.get" qc).1.2)
  = ["tabs.create"; "storage.local.get"].
Proof.
  split; [set_solver|]. vm_compute. done.
Qed.

(** C5, amended.  After any calls on a fresh compiler, [addQuery] throws
    the error ["addQuery cannot be called after newQueryMatcher!"] exactly
    when [newQueryMatcher] has been called and [destroy] has not been
    called since; whenever [addQuery] throws, the query-to-CompiledQuery
    map is unchanged; and while no matcher is vended, [addQuery] of a
    duplicate query does not throw and leaves the compiler unchanged. *)
Theorem addQuery_after_newQueryMatcher (cs : list call) (q : string) :
  let qc := do_calls cs new_QueryCompiler in
  ((addQuery q qc).1.1 = Throw (Error addQuery_message) <-> vended cs) /\
  (forall e,
     (addQuery q qc).1.1 = Throw e ->
     compiled (addQuery q qc).1.2 = compiled qc) /\
  (~ vended cs ->
   Map_has q (compiled qc) = true ->
   (addQuery q qc).1.1 = Normal tt /\ (addQuery q qc).1.2 = qc).
Proof.
  intros qc. pose proof (workerPool_vended cs) as Hv. fold qc in Hv.
  unfold addQuery, compiled.
  destruct (workerPool qc) as [p|] eqn:Hp.
  - split; [|split].
    + split; [intros _; apply Hv; by eexists | done].
    + done.
    + intros Hn. destruct Hn. apply Hv. by eexists.
  - destruct (Finder.addQuery q (qcInternal qc)) as [[c qc'] w] eqn:E.
    simpl. split; [|split].
    + split.
      * intros ->.
        destruct (sync_addQuery_throw q (qcInternal qc)
                    (Error addQuery_message)) as [[src [=]] _].
        by rewrite E.
      * intros H. apply Hv in H as [? [=]].
    + intros e ->.
      destruct (sync_addQuery_throw q (qcInternal qc) e) as [_ H];
        [by rewrite E | by rewrite E in H].
    + intros _ Hdup. unfold Finder.addQuery in E. rewrite Hdup in E.
      injection E as <- <- <-. split; [done|].
      destruct qc as [qi wp]. simpl in *. by subst.
Qed.

End AsyncCompilerProps.

(** ** Boundary behaviour of the patterns *)

Module Scenarios.
Import Re Finder.

(** Does the pattern of [source] match the whole of [text]? *)
Definition matches_whole (source text : string) : bool :=
  match parse false source with
  | Some r =>
      let s := list_ascii_of_string text in
      existsb (Nat.eqb (length s)) (ends r s 0)
  | None => false
  end.

(** C9.  With the single query [ns.api], a matcher that was given the text
    [ns?.api] reports the query and a matcher that was given only the text
    [ns??.api] reports nothing; [DOT] matches [?.] and does not match
    [??.]. *)
Theorem optional_chaining_separator :
  MatcherProps.results_for ["ns.api"] ["ns?.api"] = ["ns.api"] /\
  MatcherProps.results_for ["ns.api"] ["ns??.api"] = [] /\
  matches_whole RE_DOT "?." = true /\
  matches_whole RE_DOT "??." = false.
Proof. vm_compute. done. Qed.

End Scenarios.

(** ** Properties of the worker pool *)

Module PoolProps.
Import Async.

(** *** The turn of a worker and the end of a thread *)

Lemma worker_turn_cases w st st' :
  worker_turn w st = Some st' ->
  (exists result, on_message w result st = Some st') \/
  (exists err, on_error w err st = Some st').
Proof.
  unfold worker_turn.
  destruct (threads st !! w) as [[data [r|] [|msg rest] []]|]; try done.
  destruct (worker_onmessage data msg) as [result|err]; eauto.
Qed.

Lemma on_exit_Some w st st' :
  on_exit w st = Some st' ->
  exists th,
    threads st !! w = Some th /\ ended th = false /\
    (w ∉ workers (pool st)) /\
    st' = mkState (pool st) (<[w := end_thread th]> (threads st))
            (promises st).
Proof.
  unfold on_exit. destruct (threads st !! w) as [th|]; [|done].
  destruct (ended th) eqn:He; [done|]. simpl.
  case_bool_decide as Hw; [done|]. intros [= <-]. by exists th.
Qed.

(** The threads after the end of one of them. *)
Lemma end_thread_lookup w th0 (ths : list Worker) w' th' :
  ths !! w = Some th0 ->
  <[w := end_thread th0]> ths !! w' = Some th' ->
  exists th, ths !! w' = Some th /\ (th' = th \/ th' = end_thread th).
Proof.
  intros Hw H. apply list_lookup_insert_Some in H.
  destruct H as [(-> & <- & _)|[Hne H]]; [exists th0 | exists th']; auto.
Qed.

(** *** The number of workers *)

(** The pool keeps its [numThreads] and never has more workers. *)
Definition bounded (n : Z) (st : State) : Prop :=
  numThreads (pool st) = n /\
  (Z.of_nat (length (workers (pool st))) <= n)%Z.

Lemma getFreeWorker_bounded n st :
  bounded n st -> bounded n (getFreeWorker st).2.
Proof.
  intros [Hn Hle]. unfold getFreeWorker, bounded.
  destruct (idleWorkers (pool st)) as [|w idle]; simpl.
  - rewrite Hn. destruct (Z.ltb_spec (Z.of_nat (length (workers (pool st)))) n);
      simpl; [|done].
    split; [done|]. rewrite length_app. simpl. lia.
  - done.
Qed.

Lemma dispatch_pool worker task st :
  pool (dispatch worker task st) = pool st.
Proof. unfold dispatch. by destruct (threads st !! worker). Qed.

Lemma runNextTask_loop_bounded n queue : forall st,
  bounded n st -> bounded n (runNextTask_loop queue st).
Proof.
  induction queue as [|task queue IH]; intros st Hb; simpl; [done|].
  pose proof (getFreeWorker_bounded n st Hb) as Hb'.
  destruct (getFreeWorker st) as [[w|] st']; simpl in *; [|done].
  apply IH. unfold bounded. by rewrite dispatch_pool.
Qed.

Lemma step_bounded n e st st' :
  (0 <= n)%Z -> step e st = Some st' -> bounded n st -> bounded n st'.
Proof.
  intros Hn Hstep Hb.
  assert (Herr : forall w err, on_error w err st = Some st' -> bounded n st').
  { intros w err H. unfold on_error in H.
    destruct (threads st !! w) as [[data [r|] msgs []]|]; try done.
    by injection H as <-. }
  destruct e as [|texts| |w|w err|w]; simpl in Hstep.
  - injection Hstep as <-. by apply getFreeWorker_bounded.
  - injection Hstep as <-. unfold queryResultsForSourceTexts, _runNextTask.
    simpl. by apply runNextTask_loop_bounded.
  - injection Hstep as <-. destruct Hb as [Hb _]. split; simpl; [done | lia].
  - apply worker_turn_cases in Hstep as [[result Hstep]|[err Hstep]];
      [|by eapply Herr].
    unfold on_message in Hstep.
    destruct (threads st !! w) as [[data [r|] [|msg rest] []]|]; try done.
    injection Hstep as <-. unfold _runNextTask. simpl.
    by apply runNextTask_loop_bounded.
  - by eapply Herr.
  - by apply on_exit_Some in Hstep as (th & _ & _ & _ & ->).
Qed.

Lemma run_bounded n es : forall st st',
  (0 <= n)%Z -> run es st = Some st' -> bounded n st -> bounded n st'.
Proof.
  induction es as [|e es IH]; intros st st' Hn Hrun Hb; simpl in Hrun.
  - by injection Hrun as <-.
  - destruct (step e st) as [st1|] eqn:E; [|done].
    eapply IH; [done | done |]. by eapply step_bounded.
Qed.

(** C6, as stated, fails: [numThreads] is what [getNumThreads()] returns,
    and that is [parseInt] of WE_API_FINDER_NUM_THREADS when the variable
    is set.  With [-1] the new pool has no worker, which is more than
    [numThreads]; it never starts one. *)
Lemma workers_exceed_negative_numThreads :
  let st := initial (-1) [] in
  reachable (-1) [] st /\
  numThreads (pool st) = (-1)%Z /\
  ~ (Z.of_nat (length (workers (pool st))) <= numThreads (pool st))%Z /\
  (getFreeWorker st).1 = None.
Proof.
  split; [by exists []|]. split; [done|]. split; [|done]. simpl. lia.
Qed.

(** C6, amended.  In every state that a pool whose [numThreads] is not
    negative can reach, there are at most [numThreads] workers; in every
    state of a pool, [getFreeWorker] hands out the head of the idle queue,
    without starting a worker, whenever that queue is not empty; and in a
    state that the pool can reach it starts a worker only when the idle
    queue is empty and the bound is not reached. *)
Theorem workers_bounded_idle_reused
    (n : Z) (qp : list (string * list (list Finder.RegExp))) (st : State) :
  (0 <= n)%Z ->
  reachable n qp st ->
  numThreads (pool st) = n /\
  (Z.of_nat (length (workers (pool st))) <= n)%Z /\
  (forall (st0 : State) worker idle,
     idleWorkers (pool st0) = worker :: idle ->
     (getFreeWorker st0).1 = Some worker /\
     threads (getFreeWorker st0).2 = threads st0 /\
     workers (pool (getFreeWorker st0).2) = workers (pool st0) /\
     idleWorkers (pool (getFreeWorker st0).2) = idle) /\
  (threads (getFreeWorker st).2 <> threads st ->
   idleWorkers (pool st) = [] /\
   (Z.of_nat (length (workers (pool st))) < n)%Z /\
   (Z.of_nat (length (workers (pool (getFreeWorker st).2))) <= n)%Z).
Proof.
  intros Hn [es Hrun].
  assert (Hb : bounded n st).
  { eapply run_bounded; [done | done |]. split; simpl; [done | lia]. }
  destruct Hb as [Hnum Hle]. split; [done|]. split; [done|]. split.
  - intros st0 worker idle Hidle. unfold getFreeWorker. by rewrite Hidle.
  - pose proof (getFreeWorker_bounded n st (conj Hnum Hle)) as [_ Hle'].
    revert Hle'. unfold getFreeWorker.
    destruct (idleWorkers (pool st)) as [|w idle]; simpl; [|done].
    rewrite Hnum.
    destruct (Z.ltb_spec (Z.of_nat (length (workers (pool st)))) n);
      simpl; [done|]. by intros _ [].
Qed.

Lemma workers_bounded_idle_reused_witness :
  let st :=
    mkState (mkPool [] 2 [0] [] [])
      [mkWorker [] (Some 0) [["a"]] false]
      [Pending] in
  numThreads (pool st) = 2%Z /\
  (Z.of_nat (length (workers (pool st))) <= 2)%Z /\
  (forall (st0 : State) worker idle,
     idleWorkers (pool st0) = worker :: idle ->
     (getFreeWorker st0).1 = Some worker /\
     threads (getFreeWorker st0).2 = threads st0 /\
     workers (pool (getFreeWorker st0).2) = workers (pool st0) /\
     idleWorkers (pool (getFreeWorker st0).2) = idle) /\
  (threads (getFreeWorker st).2 <> threads st ->
   idleWorkers (pool st) = [] /\
   (Z.of_nat (length (workers (pool st))) < 2)%Z /\
   (Z.of_nat (length (workers (pool (getFreeWorker st).2))) <= 2)%Z).
Proof.
  apply (workers_bounded_idle_reused 2 []); [lia|].
  exists [CallQueryResults ["a"]].
  vm_compute. reflexivity.
Defined.

(** *** Workers, tasks and promises *)

(** What holds of a pool while [queue] is the list of waiting tasks: idle
    workers have nothing to answer and appear once; a worker has at most one
    message to answer, and while it has one, its [kTaskResolver] is the
    [resolve] of a promise that no other worker holds and that is pending as
    long as the worker lives; the promises of the waiting tasks are pending,
    distinct, and held by no worker. *)
Record Inv (queue : list Task) (st : State) : Prop := {
  inv_idle : forall w,
    w ∈ idleWorkers (pool st) ->
    exists th, threads st !! w = Some th /\ inbox th = [];
  inv_nodup : NoDup (idleWorkers (pool st));
  inv_inbox : forall w th,
    threads st !! w = Some th -> length (inbox th) <= 1;
  inv_busy : forall w th,
    threads st !! w = Some th -> inbox th <> [] ->
    exists p, kTaskResolver th = Some p /\
      (ended th = false -> promises st !! p = Some Pending);
  inv_owner : forall w1 w2 th1 th2 p,
    threads st !! w1 = Some th1 -> threads st !! w2 = Some th2 ->
    inbox th1 <> [] ->
    kTaskResolver th1 = Some p -> kTaskResolver th2 = Some p -> w1 = w2;
  inv_queue : forall t,
    t ∈ queue ->
    promises st !! resolve t = Some Pending /\
    forall w th,
      threads st !! w = Some th -> kTaskResolver th <> Some (resolve t);
  inv_queue_nodup : NoDup (map resolve queue);
  inv_fresh : forall w th p,
    threads st !! w = Some th -> kTaskResolver th = Some p ->
    p < length (promises st)
}.

Lemma Inv_initial n qp : Inv [] (initial n qp).
Proof.
  split; simpl; try done.
  - intros w H. by apply elem_of_nil in H.
  - constructor.
  - intros t H. by apply elem_of_nil in H.
  - constructor.
Qed.

Lemma Inv_set_taskQueue queue q st :
  Inv queue st -> Inv queue (set_taskQueue st q).
Proof. intros []. by split. Qed.

(** [getFreeWorker] keeps the invariant and hands out a worker that has
    nothing to answer and is not idle afterwards. *)
Lemma getFreeWorker_Inv queue st :
  Inv queue st ->
  Inv queue (getFreeWorker st).2 /\
  promises (getFreeWorker st).2 = promises st /\
  forall w,
    (getFreeWorker st).1 = Some w ->
    (w ∉ idleWorkers (pool (getFreeWorker st).2)) /\
    (exists th,
       threads (getFreeWorker st).2 !! w = Some th /\ inbox th = []).
Proof.
  intros HI. unfold getFreeWorker.
  destruct (idleWorkers (pool st)) as [|w0 idle] eqn:Hidle.
  - destruct (Z.of_nat (length (workers (pool st))) <? numThreads (pool st))%Z;
      simpl; [|split; [done|]; by split].
    set (fresh := mkWorker (queriesAndPatterns (pool st)) None [] false).
    assert (Hlk : forall w th,
      (threads st ++ [fresh]) !! w = Some th ->
      threads st !! w = Some th \/ (w = length (threads st) /\ th = fresh)).
    { intros w th H. apply lookup_app_Some in H as [H|[Hle H]]; [by left|].
      right. destruct (w - length (threads st)) as [|k] eqn:E; [|done].
      injection H as <-. split; [lia | done]. }
    split; [|split; [done|]].
    + split; simpl.
      * intros w H. by apply elem_of_nil in H.
      * constructor.
      * intros w th H. apply Hlk in H as [H|[_ ->]]; [|simpl; lia].
        by eapply inv_inbox.
      * intros w th H Hne. apply Hlk in H as [H|[_ ->]]; [|done].
        by eapply inv_busy.
      * intros w1 w2 th1 th2 p H1 H2 Hne Hp1 Hp2.
        apply Hlk in H1 as [H1|[_ ->]]; [|done].
        apply Hlk in H2 as [H2|[_ ->]]; [|done].
        by eapply inv_owner.
      * intros t Ht. destruct (inv_queue _ _ HI t Ht) as [Hp Hno].
        split; [done|]. intros w th H.
        apply Hlk in H as [H|[_ ->]]; [by eapply Hno | done].
      * by eapply inv_queue_nodup.
      * intros w th p H Hp. apply Hlk in H as [H|[_ ->]]; [|done].
        by eapply inv_fresh.
    + intros w [= <-]. split; [apply not_elem_of_nil|].
      exists fresh. split; [|done].
      by rewrite lookup_app_r, Nat.sub_diag.
  - simpl. pose proof (inv_nodup _ _ HI) as Hnd. rewrite Hidle in Hnd.
    apply NoDup_cons in Hnd as [Hnin Hnd].
    split; [|split; [done|]].
    + destruct HI. split; simpl; try done.
      intros w Hw. apply inv_idle0. rewrite Hidle. by right.
    + intros w [= <-]. split; [done|].
      apply (inv_idle _ _ HI). rewrite Hidle. by left.
Qed.

Lemma dispatch_Inv task queue st w th :
  Inv (task :: queue) st ->
  w ∉ idleWorkers (pool st) ->
  threads st !! w = Some th -> inbox th = [] ->
  Inv queue (dispatch w task st).
Proof.
  intros HI Hnin Hw Hin. unfold dispatch. rewrite Hw, Hin. simpl.
  set (new := mkWorker (workerData th) (Some (resolve task))
                [task_sourceTexts task] (ended th)).
  assert (Hlk : forall w' th',
    <[w := new]> (threads st) !! w' = Some th' ->
    (w' = w /\ th' = new) \/ (w' <> w /\ threads st !! w' = Some th')).
  { intros w' th' H. apply list_lookup_insert_Some in H.
    destruct H as [(-> & -> & _)|[Hne H]]; [by left | by right]. }
  destruct (inv_queue _ _ HI task) as [Htask Hnone]; [by left|].
  pose proof (inv_queue_nodup _ _ HI) as Hnd. simpl in Hnd.
  apply NoDup_cons in Hnd as [Hfirst Hnd].
  split; simpl.
  - intros w' Hw'. destruct (inv_idle _ _ HI w' Hw') as (th' & H1 & H2).
    exists th'. split; [|done]. rewrite list_lookup_insert_ne; [done|].
    by intros ->.
  - by eapply inv_nodup.
  - intros w' th' H. apply Hlk in H as [[_ ->]|[_ H]]; [simpl; lia|].
    by eapply inv_inbox.
  - intros w' th' H Hne. apply Hlk in H as [[_ ->]|[_ H]].
    + by exists (resolve task).
    + by eapply inv_busy.
  - intros w1 w2 th1 th2 p H1 H2 Hne Hp1 Hp2.
    apply Hlk in H1 as [[-> ->]|[Hn1 H1]];
      apply Hlk in H2 as [[-> ->]|[Hn2 H2]]; try done.
    + simpl in Hp1. injection Hp1 as <-. by destruct (Hnone w2 th2 H2).
    + simpl in Hp2. injection Hp2 as <-. by destruct (Hnone w1 th1 H1).
    + by eapply inv_owner.
  - intros t Ht. destruct (inv_queue _ _ HI t) as [Hp Hno]; [by right|].
    split; [done|]. intros w' th' H.
    apply Hlk in H as [[_ ->]|[_ H]]; [|by eapply Hno].
    simpl. intros [= Heq]. apply Hfirst. rewrite Heq.
    apply list_elem_of_In, in_map, list_elem_of_In, Ht.
  - done.
  - intros w' th' p H Hp. apply Hlk in H as [[_ ->]|[_ H]].
    + simpl in Hp. injection Hp as <-. by eapply lookup_lt_Some.
    + by eapply inv_fresh.
Qed.

(** A pool whose waiting tasks are its [taskQueue]. *)
Definition InvS (st : State) : Prop := Inv (taskQueue (pool st)) st.

Lemma runNextTask_loop_Inv queue : forall st,
  Inv queue st -> InvS (runNextTask_loop queue st).
Proof.
  induction queue as [|task queue IH]; intros st HI; simpl.
  - by apply Inv_set_taskQueue.
  - destruct (getFreeWorker_Inv _ _ HI) as (HI' & _ & Hw).
    destruct (getFreeWorker st) as [[w|] st']; simpl in *.
    + destruct (Hw w eq_refl) as (Hnin & th & Hth & Hin).
      apply IH. by eapply dispatch_Inv.
    + by apply Inv_set_taskQueue.
Qed.

Lemma queryResultsForSourceTexts_Inv texts st :
  InvS st -> InvS (queryResultsForSourceTexts texts st).2.
Proof.
  intros HI. unfold queryResultsForSourceTexts, _runNextTask. simpl.
  apply runNextTask_loop_Inv. apply Inv_set_taskQueue.
  unfold InvS in HI. set (q := taskQueue (pool st)) in *.
  assert (Hlk : forall p x,
    promises st !! p = Some x -> (promises st ++ [Pending]) !! p = Some x).
  { intros p x. apply lookup_app_l_Some. }
  split; simpl.
  - by eapply inv_idle.
  - by eapply inv_nodup.
  - by eapply inv_inbox.
  - intros w th H Hne. destruct (inv_busy _ _ HI w th H Hne) as (p & Hp & Hpend).
    exists p. split; [done|]. intros He. by apply Hlk, Hpend.
  - by eapply inv_owner.
  - intros t Ht. apply elem_of_app in Ht as [Ht|Ht].
    + destruct (inv_queue _ _ HI t Ht) as [Hp Hno]. split; [by apply Hlk|done].
    + apply list_elem_of_singleton in Ht as ->. simpl. split.
      * by rewrite lookup_app_r, Nat.sub_diag.
      * intros w th H Hp. pose proof (inv_fresh _ _ HI w th _ H Hp). lia.
  - rewrite map_app. simpl. apply NoDup_app. split; [by eapply inv_queue_nodup|].
    split; [|apply NoDup_singleton].
    intros p Hp Hp'. apply list_elem_of_singleton in Hp' as ->.
    apply list_elem_of_In, in_map_iff in Hp as (t & Heq & Ht).
    apply list_elem_of_In in Ht.
    destruct (inv_queue _ _ HI t Ht) as [Hpend _].
    apply lookup_lt_Some in Hpend. lia.
  - intros w th p H Hp. rewrite length_app. simpl.
    pose proof (inv_fresh _ _ HI w th p H Hp). lia.
Qed.

Lemma settle_length p o ps : length (settle p o ps) = length ps.
Proof.
  unfold settle. destruct (ps !! p) as [[]|]; try done. apply length_insert.
Qed.

Lemma settle_lookup_ne p p' o ps : p' <> p -> settle p o ps !! p' = ps !! p'.
Proof.
  intros Hne. unfold settle. destruct (ps !! p) as [[]|]; try done.
  by apply list_lookup_insert_ne.
Qed.

Lemma settle_pending p o ps :
  ps !! p = Some Pending -> settle p o ps !! p = Some o.
Proof.
  intros H. unfold settle. rewrite H.
  apply list_lookup_insert_eq. by eapply lookup_lt_Some.
Qed.

Lemma terminateAllWorkers_Inv st : InvS st -> InvS (terminateAllWorkers st).
Proof.
  unfold InvS. intros HI. unfold terminateAllWorkers. simpl.
  destruct HI. split; simpl; try done.
  - intros w H. by apply elem_of_nil in H.
  - constructor.
Qed.

Lemma on_exit_Inv w st st' : on_exit w st = Some st' -> InvS st -> InvS st'.
Proof.
  unfold InvS. intros Hstep HI.
  apply on_exit_Some in Hstep as (th0 & Hw & _ & _ & ->). simpl.
  set (q := taskQueue (pool st)) in *.
  pose proof (fun w' th' =>
    end_thread_lookup w th0 (threads st) w' th' Hw) as Hlk.
  split; simpl.
  - intros w' Hw'. destruct (inv_idle _ _ HI w' Hw') as (th & Hth & Hi).
    destruct (decide (w' = w)) as [->|Hne].
    + exists (end_thread th0). split.
      * apply list_lookup_insert_eq. by eapply lookup_lt_Some.
      * rewrite Hw in Hth. by injection Hth as <-.
    + exists th. split; [|done]. by rewrite list_lookup_insert_ne.
  - by eapply inv_nodup.
  - intros w' th' H. apply Hlk in H as (th & H & [->| ->]);
      simpl; by eapply inv_inbox.
  - intros w' th' H Hne. apply Hlk in H as (th & H & [->| ->]).
    + by eapply inv_busy.
    + destruct (inv_busy _ _ HI w' th H Hne) as (p & Hp & _). by exists p.
  - intros w1 w2 th1' th2' p H1 H2 Hne Hp1 Hp2.
    apply Hlk in H1 as (th1 & H1 & Ho1).
    apply Hlk in H2 as (th2 & H2 & Ho2).
    apply (inv_owner _ _ HI w1 w2 th1 th2 p H1 H2).
    + by destruct Ho1 as [->| ->].
    + by destruct Ho1 as [->| ->].
    + by destruct Ho2 as [->| ->].
  - intros t Ht. destruct (inv_queue _ _ HI t Ht) as [Hp Hno].
    split; [done|]. intros w' th' H.
    apply Hlk in H as (th & H & [->| ->]); simpl; by eapply Hno.
  - by eapply inv_queue_nodup.
  - intros w' th' p H Hp. apply Hlk in H as (th & H & Ho).
    apply (inv_fresh _ _ HI w' th p H). by destruct Ho as [->| ->].
Qed.

Lemma on_message_Inv w result st st' :
  on_message w result st = Some st' -> InvS st -> InvS st'.
Proof.
  unfold on_message, InvS. intros Hstep HI.
  destruct (threads st !! w) as [[data [r|] [|msg rest] []]|] eqn:Hw;
    try done.
  injection Hstep as <-. unfold _runNextTask. simpl.
  apply runNextTask_loop_Inv.
  set (q := taskQueue (pool st)) in *.
  pose proof (inv_inbox _ _ HI w _ Hw) as Hlen. simpl in Hlen.
  destruct rest; [|simpl in Hlen; lia]. clear Hlen.
  set (new := mkWorker data (Some r) [] false).
  assert (Hnin : w ∉ idleWorkers (pool st)).
  { intros Hin. destruct (inv_idle _ _ HI w Hin) as (th & Hth & Hi).
    rewrite Hw in Hth. injection Hth as <-. done. }
  assert (Hlk : forall w' th',
    <[w := new]> (threads st) !! w' = Some th' ->
    exists th, threads st !! w' = Some th /\
      kTaskResolver th' = kTaskResolver th /\ ended th' = ended th /\
      ((w' = w /\ inbox th' = []) \/ (w' <> w /\ th' = th))).
  { intros w' th' H. apply list_lookup_insert_Some in H.
    destruct H as [(-> & <- & _)|[Hne H]].
    - eexists. split; [done|]. do 2 (split; [done|]). by left.
    - exists th'. do 3 (split; [done|]). by right. }
  assert (Hother : forall w' th p,
    threads st !! w' = Some th -> inbox th <> [] -> w' <> w ->
    kTaskResolver th = Some p -> p <> r).
  { intros w' th p H Hne Hw' Hp ->. apply Hw'.
    by eapply (inv_owner _ _ HI w' w th _ r). }
  split; simpl.
  - intros w' Hw'. apply elem_of_app in Hw' as [Hw'|Hw'].
    + destruct (inv_idle _ _ HI w' Hw') as (th & Hth & Hi). exists th.
      split; [|done]. rewrite list_lookup_insert_ne; [done|]. by intros ->.
    + apply list_elem_of_singleton in Hw' as ->. exists new. split; [|done].
      apply list_lookup_insert_eq. by eapply lookup_lt_Some.
  - apply NoDup_app. split; [by eapply inv_nodup|].
    split; [|apply NoDup_singleton].
    intros x Hx Hx'. by apply list_elem_of_singleton in Hx' as ->.
  - intros w' th' H. apply Hlk in H as (th & H & _ & _ & [[_ ->]|[_ ->]]);
      [simpl; lia | by eapply inv_inbox].
  - intros w' th' H Hne.
    apply Hlk in H as (th & H & _ & _ & [[_ Hi]|[Hw' ->]]); [done|].
    destruct (inv_busy _ _ HI w' th H Hne) as (p & Hp & Hpend).
    exists p. split; [done|]. intros He.
    rewrite settle_lookup_ne; [by apply Hpend | by eapply Hother].
  - intros w1 w2 th1' th2' p H1 H2 Hne Hp1 Hp2.
    apply Hlk in H1 as (th1 & H1 & Hr1 & _ & [[_ Hi]|[Hw1 ->]]); [done|].
    apply Hlk in H2 as (th2 & H2 & Hr2 & _ & _).
    apply (inv_owner _ _ HI w1 w2 th1 th2 p H1 H2 Hne Hp1). congruence.
  - intros t Ht. destruct (inv_queue _ _ HI t Ht) as [Hp Hno]. split.
    + rewrite settle_lookup_ne; [done|]. intros Heq.
      apply (Hno w _ Hw). simpl. by rewrite Heq.
    + intros w' th' H. apply Hlk in H as (th & H & -> & _). by eapply Hno.
  - by eapply inv_queue_nodup.
  - intros w' th' p H Hp. rewrite settle_length.
    apply Hlk in H as (th & H & Hr & _). rewrite Hr in Hp.
    by eapply inv_fresh.
Qed.

Lemma on_error_Inv w err st st' :
  on_error w err st = Some st' -> InvS st -> InvS st'.
Proof.
  unfold on_error, InvS. intros Hstep HI.
  destruct (threads st !! w) as [[data [r|] msgs []]|] eqn:Hw; try done.
  injection Hstep as <-. simpl.
  set (q := taskQueue (pool st)) in *.
  set (new := mkWorker data (Some r) msgs true).
  assert (Hlk : forall w' th',
    <[w := new]> (threads st) !! w' = Some th' ->
    exists th, threads st !! w' = Some th /\
      kTaskResolver th' = kTaskResolver th /\ inbox th' = inbox th /\
      ((w' = w /\ ended th' = true) \/ (w' <> w /\ th' = th))).
  { intros w' th' H. apply list_lookup_insert_Some in H.
    destruct H as [(-> & <- & _)|[Hne H]].
    - eexists. split; [done|]. do 2 (split; [done|]). by left.
    - exists th'. do 3 (split; [done|]). by right. }
  split; simpl.
  - intros w' Hw'. destruct (inv_idle _ _ HI w' Hw') as (th & Hth & Hi).
    destruct (decide (w' = w)) as [->|Hne].
    + exists new. split.
      * apply list_lookup_insert_eq. by eapply lookup_lt_Some.
      * rewrite Hw in Hth. by injection Hth as <-.
    + exists th. split; [|done]. by rewrite list_lookup_insert_ne.
  - by eapply inv_nodup.
  - intros w' th' H. apply Hlk in H as (th & H & _ & -> & _).
    by eapply inv_inbox.
  - intros w' th' H Hne. apply Hlk in H as (th & H & Hr & Hi & Hor).
    rewrite Hi in Hne. destruct (inv_busy _ _ HI w' th H Hne) as (p & Hp & Hpend).
    exists p. split; [congruence|]. intros He.
    destruct Hor as [[_ Hend]|[Hw' ->]]; [congruence|].
    rewrite settle_lookup_ne; [by apply Hpend|].
    intros ->. apply Hw'. by eapply (inv_owner _ _ HI w' w th _ r).
  - intros w1 w2 th1' th2' p H1 H2 Hne Hp1 Hp2.
    apply Hlk in H1 as (th1 & H1 & Hr1 & Hi1 & _).
    apply Hlk in H2 as (th2 & H2 & Hr2 & _ & _).
    apply (inv_owner _ _ HI w1 w2 th1 th2 p H1 H2); congruence.
  - intros t Ht. destruct (inv_queue _ _ HI t Ht) as [Hp Hno]. split.
    + rewrite settle_lookup_ne; [done|]. intros Heq.
      apply (Hno w _ Hw). simpl. by rewrite Heq.
    + intros w' th' H. apply Hlk in H as (th & H & -> & _). by eapply Hno.
  - by eapply inv_queue_nodup.
  - intros w' th' p H Hp. rewrite settle_length.
    apply Hlk in H as (th & H & Hr & _). rewrite Hr in Hp.
    by eapply inv_fresh.
Qed.

Lemma step_Inv e st st' : step e st = Some st' -> InvS st -> InvS st'.
Proof.
  destruct e as [|texts| |w|w err|w]; simpl; intros Hstep HI.
  - injection Hstep as <-. unfold InvS in *.
    destruct (getFreeWorker_Inv _ _ HI) as (HI' & _ & _).
    replace (taskQueue (pool (getFreeWorker st).2))
      with (taskQueue (pool st)); [done|].
    unfold getFreeWorker. destruct (idleWorkers (pool st)); simpl; [|done].
    by destruct (_ <? _)%Z.
  - injection Hstep as <-. by apply queryResultsForSourceTexts_Inv.
  - injection Hstep as <-. by apply terminateAllWorkers_Inv.
  - apply worker_turn_cases in Hstep as [[result Hstep]|[err Hstep]];
      [by eapply on_message_Inv | by eapply on_error_Inv].
  - by eapply on_error_Inv.
  - by eapply on_exit_Inv.
Qed.

Lemma run_Inv es : forall st st',
  run es st = Some st' -> InvS st -> InvS st'.
Proof.
  induction es as [|e es IH]; intros st st' Hrun HI; simpl in Hrun.
  - by injection Hrun as <-.
  - destruct (step e st) as [st1|] eqn:E; [|done].
    eapply IH; [done|]. by eapply step_Inv.
Qed.

Lemma reachable_Inv n qp st : reachable n qp st -> InvS st.
Proof.
  intros [es Hrun]. eapply run_Inv; [done|]. apply Inv_initial.
Qed.

(** *** A worker whose thread has ended *)

(** The thread of [w] has ended and [w] is not in the idle queue. *)
Definition retired (w : nat) (st : State) : Prop :=
  (exists th, threads st !! w = Some th /\ ended th = true) /\
  w ∉ idleWorkers (pool st).

Lemma getFreeWorker_retired w st :
  retired w st ->
  retired w (getFreeWorker st).2 /\ (getFreeWorker st).1 <> Some w.
Proof.
  intros [(th & Hth & He) Hnin]. unfold getFreeWorker, retired.
  destruct (idleWorkers (pool st)) as [|w0 idle] eqn:Hidle.
  - destruct (_ <? _)%Z; simpl.
    + split; [split|].
      * exists th. split; [|done]. by apply lookup_app_l_Some.
      * apply not_elem_of_nil.
      * intros [= Heq]. apply lookup_lt_Some in Hth. lia.
    + split; [|done]. split; [by exists th|]. by rewrite Hidle.
  - simpl. apply not_elem_of_cons in Hnin as [Hne Hnin].
    split; [by split; [exists th|]|]. by intros [= ->].
Qed.

Lemma dispatch_retired w w' task st :
  retired w st -> retired w (dispatch w' task st).
Proof.
  intros [(th & Hth & He) Hnin]. unfold dispatch, retired.
  destruct (threads st !! w') as [th'|] eqn:Hw'; simpl; [|by split; [exists th|]].
  split; [|done]. destruct (decide (w' = w)) as [->|Hne].
  - rewrite Hw' in Hth. injection Hth as ->. eexists. split.
    + apply list_lookup_insert_eq. by eapply lookup_lt_Some.
    + done.
  - exists th. split; [|done]. by rewrite list_lookup_insert_ne.
Qed.

Lemma runNextTask_loop_retired w queue : forall st,
  retired w st -> retired w (runNextTask_loop queue st).
Proof.
  induction queue as [|task queue IH]; intros st Hr; simpl; [done|].
  destruct (getFreeWorker_retired w st Hr) as [Hr' _].
  destruct (getFreeWorker st) as [[w'|] st']; simpl in *; [|done].
  by apply IH, dispatch_retired.
Qed.

Lemma step_retired w e st st' :
  step e st = Some st' -> retired w st -> retired w st'.
Proof.
  intros Hstep Hr.
  assert (Herr : forall w' err,
    on_error w' err st = Some st' -> retired w st').
  { intros w' err H. unfold on_error in H.
    destruct (threads st !! w') as [[data [r|] msgs []]|] eqn:Hw'; try done.
    injection H as <-. destruct Hr as [(th & Hth & He) Hnin].
    split; simpl; [|done].
    assert (w' <> w) as Hne.
    { intros ->. rewrite Hw' in Hth. by injection Hth as <-. }
    exists th. split; [|done]. by rewrite list_lookup_insert_ne. }
  destruct e as [|texts| |w'|w' err|w']; simpl in Hstep.
  - injection Hstep as <-. by apply getFreeWorker_retired.
  - injection Hstep as <-. unfold queryResultsForSourceTexts, _runNextTask.
    simpl. by apply runNextTask_loop_retired.
  - injection Hstep as <-. destruct Hr as [(th & Hth & He) _].
    split; simpl; [by exists th | apply not_elem_of_nil].
  - apply worker_turn_cases in Hstep as [[result Hstep]|[err Hstep]];
      [|by eapply Herr].
    unfold on_message in Hstep.
    destruct (threads st !! w') as [[data [r|] [|msg rest] []]|] eqn:Hw';
      try done.
    injection Hstep as <-. unfold _runNextTask. simpl.
    apply runNextTask_loop_retired.
    destruct Hr as [(th & Hth & He) Hnin].
    assert (w' <> w) as Hne.
    { intros ->. rewrite Hw' in Hth. by injection Hth as <-. }
    split; simpl.
    + exists th. split; [|done]. by rewrite list_lookup_insert_ne.
    + rewrite elem_of_app, list_elem_of_singleton. by intros [?|?].
  - by eapply Herr.
  - apply on_exit_Some in Hstep as (th0 & Hw' & He0 & _ & ->).
    destruct Hr as [(th & Hth & He) Hnin]. split; simpl; [|done].
    assert (w' <> w) as Hne.
    { intros ->. rewrite Hw' in Hth. injection Hth as <-. congruence. }
    exists th. split; [|done]. by rewrite list_lookup_insert_ne.
Qed.

Lemma run_retired w es : forall st st',
  run es st = Some st' -> retired w st -> retired w st'.
Proof.
  induction es as [|e es IH]; intros st st' Hrun Hr; simpl in Hrun.
  - by injection Hrun as <-.
  - destruct (step e st) as [st1|] eqn:E; [|done].
    eapply IH; [done|]. by eapply step_retired.
Qed.

(** C7.  In a state that a pool can reach, let a live worker have a task
    dispatched to it (a message it has not answered).  When the worker
    emits an error, its [kTaskResolver] is the [resolve] of a promise that
    was pending and is now rejected with that error; the worker is not put
    into the idle queue; and whatever happens afterwards, it is never in the
    idle queue again and [getFreeWorker] never hands it out. *)
Theorem worker_error_rejects_task
    (n : Z) (qp : list (string * list (list Finder.RegExp)))
    (st : State) (w : nat) (th : Worker) (err : Finder.error) :
  reachable n qp st ->
  threads st !! w = Some th ->
  inbox th <> [] ->
  ended th = false ->
  exists p st',
    kTaskResolver th = Some p /\
    promises st !! p = Some Pending /\
    on_error w err st = Some st' /\
    promises st' !! p = Some (Rejected err) /\
    idleWorkers (pool st') = idleWorkers (pool st) /\
    (w ∉ idleWorkers (pool st')) /\
    (forall es st'',
       run es st' = Some st'' ->
       (w ∉ idleWorkers (pool st'')) /\ (getFreeWorker st'').1 <> Some w).
Proof.
  intros Hreach Hth Hbusy Halive.
  pose proof (reachable_Inv _ _ _ Hreach) as HI. unfold InvS in HI.
  destruct (inv_busy _ _ HI w th Hth Hbusy) as (p & Hp & Hpend).
  specialize (Hpend Halive).
  assert (Hnin : w ∉ idleWorkers (pool st)).
  { intros Hin. destruct (inv_idle _ _ HI w Hin) as (th' & Hth' & Hi).
    rewrite Hth in Hth'. by injection Hth' as <-. }
  destruct th as [data r msgs e]. simpl in *. subst r e.
  eexists p, _. split; [done|]. split; [done|].
  unfold on_error. rewrite Hth. split; [done|]. simpl.
  split; [by apply settle_pending|]. split; [done|]. split; [done|].
  intros es st'' Hrun.
  assert (Hr : retired w st'').
  { eapply run_retired; [done|]. split; simpl; [|done].
    eexists. split.
    - apply list_lookup_insert_eq. by eapply lookup_lt_Some.
    - reflexivity. }
  split; [apply Hr | by apply getFreeWorker_retired].
Qed.

Lemma worker_error_rejects_task_witness :
  let st :=
    mkState (mkPool [] 2 [0; 1] [] [])
      [mkWorker [] (Some 0) [["a"]] false; mkWorker [] (Some 1) [["b"]] false]
      [Pending; Pending] in
  exists p st',
    kTaskResolver (mkWorker [] (Some 1) [["b"]] false) = Some p /\
    promises st !! p = Some Pending /\
    on_error 1 (Finder.Error "boom") st = Some st' /\
    promises st' !! p = Some (Rejected (Finder.Error "boom")) /\
    idleWorkers (pool st') = idleWorkers (pool st) /\
    (1 ∉ idleWorkers (pool st')) /\
    (forall es st'',
       run es st' = Some st'' ->
       (1 ∉ idleWorkers (pool st'')) /\ (getFreeWorker st'').1 <> Some 1).
Proof.
  apply (worker_error_rejects_task 2 []).
  - exists [CallQueryResults ["a"]; CallQueryResults ["b"]].
    vm_compute. reflexivity.
  - reflexivity.
  - simpl. discriminate.
  - reflexivity.
Defined.

End PoolProps.

(** ** Properties of the patterns *)

Module PatternProps.
Import Re Finder.

#[local] Arguments isc : simpl never.

(** The code units of a string. *)
Definition chars (s : string) : list ascii := list_ascii_of_string s.

Lemma chars_app s1 s2 : chars (s1 +:+ s2) = chars s1 ++ chars s2.
Proof. induction s1 as [|c s1 IH]; simpl; [done | by rewrite <- IH]. Qed.

(** *** Parsing a pattern in front of more text *)

Lemma isc_eq c a : isc c (String a EmptyString) = true -> c = a.
Proof. unfold isc. apply Ascii.eqb_eq. Qed.

(** The text that follows starts with a closing parenthesis. *)
Definition closes (ext : list ascii) : Prop :=
  exists t, ext = ")"%char :: t.

(** The text that follows does not start with a quantifier. *)
Definition no_quant (ext : list ascii) : Prop :=
  match ext with
  | [] => True
  | c :: _ => isc c "*" = false /\ isc c "+" = false /\ isc c "?" = false
  end.

Lemma closes_no_quant ext : closes ext -> no_quant ext.
Proof. by intros [t ->]. Qed.

Lemma parse_class_ext_len n : forall s items out ext,
  length s <= n ->
  parse_class s = Some (items, out) ->
  parse_class (s ++ ext) = Some (items, out ++ ext).
Proof.
  induction n as [|n IH]; intros s items out ext Hlen H.
  { destruct s; [done | simpl in Hlen; lia]. }
  destruct s as [|c rest]; [done|]. simpl in Hlen.
  cbn [parse_class app] in *.
  destruct (isc c "]"); [by injection H as <- <-|].
  destruct (isc c "\").
  - destruct rest as [|e rest']; [done|]. cbn [app]. simpl in Hlen.
    destruct (class_escape e) as [it|]; [|done].
    destruct (starts_range rest') eqn:Hsr; [done|].
    destruct (parse_class rest') as [[items' out']|] eqn:Hp; [|done].
    injection H as <- <-.
    replace (starts_range (rest' ++ ext)) with false.
    + by rewrite (IH rest' items' out' ext) by (done || lia).
    + destruct rest' as [|d [|b rest'']]; [done| |done].
      cbn [parse_class] in Hp. destruct (isc d "]") eqn:Hd.
      * apply isc_eq in Hd as ->. by destruct ext.
      * by destruct (isc d "\").
  - destruct rest as [|d [|b rest']]; cbn [app].
    + done.
    + destruct (parse_class [d]) as [[items' out']|] eqn:Hp; [|done].
      injection H as <- <-. cbn [parse_class] in Hp.
      destruct (isc d "]") eqn:Hd; [|by destruct (isc d "\")].
      injection Hp as <- <-. apply isc_eq in Hd as ->.
      destruct ext as [|x t]; cbn [app parse_class]; [done|].
      by replace (isc "]" "-") with false by reflexivity.
    + simpl in Hlen. destruct (isc d "-" && negb (isc b "]")).
      * destruct (isc b "\"); [done|].
        destruct (code c <=? code b); [|done].
        destruct (parse_class rest') as [[items' out']|] eqn:Hp; [|done].
        injection H as <- <-.
        by rewrite (IH rest' items' out' ext) by (done || lia).
      * destruct (parse_class (d :: b :: rest')) as [[items' out']|] eqn:Hp;
          [|done].
        injection H as <- <-.
        change (d :: b :: rest' ++ ext) with ((d :: b :: rest') ++ ext).
        by rewrite (IH (d :: b :: rest') items' out' ext)
          by (done || simpl; lia).
Qed.

Lemma parse_class_ext s items out ext :
  parse_class s = Some (items, out) ->
  parse_class (s ++ ext) = Some (items, out ++ ext).
Proof. by apply (parse_class_ext_len (length s)). Qed.

Lemma parse_atom_ext d c rest a out ext :
  parse_atom d c rest = Some (a, out) ->
  parse_atom d c (rest ++ ext) = Some (a, out ++ ext).
Proof.
  unfold parse_atom. intros H.
  destruct (isc c "."); [by injection H as <- <-|].
  destruct (isc c "\").
  - destruct rest as [|e rest']; [done|]. cbn [app].
    destruct (escape_atom e); [|done]. by injection H as <- <-.
  - destruct (isc c "[").
    + destruct rest as [|n rest']; [done|]. cbn [app].
      destruct (isc n "^").
      * destruct (parse_class rest') as [[items out']|] eqn:Hp; [|done].
        injection H as <- <-. by rewrite (parse_class_ext _ _ _ ext Hp).
      * destruct (parse_class (n :: rest')) as [[items out']|] eqn:Hp; [|done].
        injection H as <- <-.
        change (n :: rest' ++ ext) with ((n :: rest') ++ ext).
        by rewrite (parse_class_ext _ _ _ ext Hp).
    + destruct (_ || _); [done|]. by injection H as <- <-.
Qed.

Lemma parse_quant_ext a s ext :
  ((parse_quant a s).2 = [] -> no_quant ext) ->
  parse_quant a (s ++ ext)
  = ((parse_quant a s).1, (parse_quant a s).2 ++ ext).
Proof.
  intros Hok. destruct ext as [|c t].
  { rewrite !app_nil_r. by destruct (parse_quant a s). }
  destruct s as [|q [|l rest]]; cbn [app parse_quant fst snd] in *.
  - destruct (Hok eq_refl) as (-> & -> & ->). done.
  - destruct (isc q "*"); [|destruct (isc q "+"); [|destruct (isc q "?")]];
      cbn [fst snd] in *;
      try (destruct (Hok eq_refl) as (_ & _ & ->); done).
    done.
  - destruct (isc l "?"); by repeat destruct (isc q _).
Qed.

Lemma group_start_ext s k inner ext :
  s <> [] ->
  group_start s = Some (k, inner) ->
  group_start (s ++ ext) = Some (k, inner ++ ext).
Proof.
  intros Hne H. destruct s as [|q rest]; [done|].
  cbn [app group_start] in *.
  destruct (isc q "?"); [|by injection H as <- <-].
  destruct rest as [|k1 rest']; [done|]. cbn [app].
  repeat (destruct (isc k1 _); [by injection H as <- <-|]).
  destruct (isc k1 "<"); [|done].
  destruct rest' as [|k2 rest'']; [done|]. cbn [app].
  repeat (destruct (isc k2 _); [by injection H as <- <-|]). done.
Qed.

Lemma parse_alt_nil f d r out :
  parse_alt f d [] = Some (r, out) -> out = [].
Proof. destruct f; simpl; [done|]. by intros [= _ <-]. Qed.

(** A pattern that parses on its own parses the same way in front of more
    text, as long as that text does not continue it. *)
Lemma parse_ext f d :
  (forall s r out ext,
     parse_disj f d s = Some (r, out) -> (out = [] -> closes ext) ->
     parse_disj f d (s ++ ext) = Some (r, out ++ ext)) /\
  (forall s r out ext,
     parse_alt f d s = Some (r, out) -> (out = [] -> closes ext) ->
     parse_alt f d (s ++ ext) = Some (r, out ++ ext)) /\
  (forall s r out ext,
     parse_term f d s = Some (r, out) -> (out = [] -> no_quant ext) ->
     parse_term f d (s ++ ext) = Some (r, out ++ ext)).
Proof.
  induction f as [|f (IHd & IHa & IHt)]; [by repeat split|].
  split; [|split]; intros s r out ext H Hok.
  - cbn [parse_disj] in *.
    destruct (parse_alt f d s) as [[r1 rest]|] eqn:Ha; [|done].
    destruct rest as [|c rest'].
    + injection H as <- <-. rewrite (IHa s r1 [] ext Ha Hok).
      destruct (Hok eq_refl) as [t ->]. reflexivity.
    + rewrite (IHa s r1 (c :: rest') ext Ha) by done. cbn [app].
      destruct (isc c "|"); [|by injection H as <- <-].
      destruct (parse_disj f d rest') as [[r2 out']|] eqn:Hd; [|done].
      injection H as <- <-. by rewrite (IHd rest' r2 out' ext Hd Hok).
  - cbn [parse_alt] in *. destruct s as [|c s'].
    + injection H as <- <-. destruct (Hok eq_refl) as [t ->]. done.
    + cbn [app]. destruct (isc c ")" || isc c "|").
      { by injection H as <- <-. }
      destruct (parse_term f d (c :: s')) as [[t rest]|] eqn:Ht; [|done].
      destruct (parse_alt f d rest) as [[r' out']|] eqn:Ha; [|done].
      injection H as <- <-.
      change (c :: s' ++ ext) with ((c :: s') ++ ext).
      rewrite (IHt (c :: s') t rest ext Ht).
      * by rewrite (IHa rest r' out' ext Ha Hok).
      * intros ->. apply closes_no_quant, Hok. by eapply parse_alt_nil.
  - cbn [parse_term] in *. destruct s as [|c rest]; [done|]. cbn [app].
    destruct (isc c "^"); [by injection H as <- <-|].
    destruct (isc c "$"); [by injection H as <- <-|].
    destruct (isc c "(").
    + destruct (group_start rest) as [[k inner]|] eqn:Hg; [|done].
      destruct (parse_disj f d inner) as [[r' [|close out']]|] eqn:Hd;
        try done.
      destruct (isc close ")") eqn:Hc; [|done].
      assert (rest <> []) as Hne.
      { intros ->. injection Hg as <- <-.
        destruct f; [done|]. cbn [parse_disj parse_alt] in Hd.
        destruct f; done. }
      rewrite (group_start_ext rest k inner ext Hne Hg).
      rewrite (IHd inner r' (close :: out') ext Hd) by done.
      cbn [app]. rewrite Hc. destruct k.
      * injection H as H. rewrite parse_quant_ext.
        -- rewrite H. done.
        -- rewrite H. done.
      * by injection H as <- <-.
    + destruct (parse_atom d c rest) as [[a out']|] eqn:Hat; [|done].
      injection H as H. rewrite (parse_atom_ext d c rest a out' ext Hat).
      rewrite parse_quant_ext; rewrite H; done.
Qed.

(** More fuel does not change what has been parsed. *)
Lemma parse_fuel_mono f d :
  (forall s v f', parse_disj f d s = Some v -> f <= f' ->
     parse_disj f' d s = Some v) /\
  (forall s v f', parse_alt f d s = Some v -> f <= f' ->
     parse_alt f' d s = Some v) /\
  (forall s v f', parse_term f d s = Some v -> f <= f' ->
     parse_term f' d s = Some v).
Proof.
  induction f as [|f (IHd & IHa & IHt)]; [by repeat split|].
  split; [|split]; intros s v f' H Hle;
    (destruct f' as [|f']; [lia|]); assert (f <= f') as Hle' by lia.
  - cbn [parse_disj] in *.
    destruct (parse_alt f d s) as [[r1 rest]|] eqn:Ha; [|done].
    rewrite (IHa s _ f' Ha Hle').
    destruct rest as [|c rest']; [done|].
    destruct (isc c "|"); [|done].
    destruct (parse_disj f d rest') as [[r2 out']|] eqn:Hd; [|done].
    by rewrite (IHd rest' _ f' Hd Hle').
  - cbn [parse_alt] in *. destruct s as [|c s']; [done|].
    destruct (isc c ")" || isc c "|"); [done|].
    destruct (parse_term f d (c :: s')) as [[t rest]|] eqn:Ht; [|done].
    rewrite (IHt _ _ f' Ht Hle').
    destruct (parse_alt f d rest) as [[r' out']|] eqn:Ha; [|done].
    by rewrite (IHa _ _ f' Ha Hle').
  - cbn [parse_term] in *. destruct s as [|c rest]; [done|].
    destruct (isc c "^"); [done|]. destruct (isc c "$"); [done|].
    destruct (isc c "("); [|done].
    destruct (group_start rest) as [[k inner]|]; [|done].
    destruct (parse_disj f d inner) as [[r' out]|] eqn:Hd; [|done].
    by rewrite (IHd _ _ f' Hd Hle').
Qed.

(** *** The fuel of the parser is never used up *)

Lemma parse_class_length_len n : forall s items out,
  length s <= n ->
  parse_class s = Some (items, out) -> length out < length s.
Proof.
  induction n as [|n IH]; intros s items out Hlen H.
  { destruct s; [done | simpl in Hlen; lia]. }
  destruct s as [|c rest]; [done|].
  cbn [parse_class] in H. cbn [length] in *.
  destruct (isc c "]"); [injection H as _ <-; lia|].
  destruct (isc c "\").
  - destruct rest as [|e rest']; [done|].
    destruct (class_escape e); [|done].
    destruct (starts_range rest'); [done|].
    destruct (parse_class rest') as [[items' out']|] eqn:Hp; [|done].
    injection H as _ <-. apply IH in Hp; simpl in *; lia.
  - destruct rest as [|d [|b rest']].
    + done.
    + destruct (parse_class [d]) as [[items' out']|] eqn:Hp; [|done].
      injection H as _ <-. apply IH in Hp; simpl in *; lia.
    + destruct (isc d "-" && negb (isc b "]")).
      * destruct (isc b "\"); [done|].
        destruct (code c <=? code b); [|done].
        destruct (parse_class rest') as [[items' out']|] eqn:Hp; [|done].
        injection H as _ <-. apply IH in Hp; simpl in *; lia.
      * destruct (parse_class (d :: b :: rest')) as [[items' out']|] eqn:Hp;
          [|done].
        injection H as _ <-. apply IH in Hp; simpl in *; lia.
Qed.

Lemma parse_class_length s items out :
  parse_class s = Some (items, out) -> length out < length s.
Proof. by apply (parse_class_length_len (length s)). Qed.

Lemma parse_atom_length d c rest a out :
  parse_atom d c rest = Some (a, out) -> length out <= length rest.
Proof.
  unfold parse_atom. intros H.
  destruct (isc c "."); [by injection H as _ <-|].
  destruct (isc c "\").
  - destruct rest as [|e rest']; [done|].
    destruct (escape_atom e); [|done]. injection H as _ <-. simpl. lia.
  - destruct (isc c "[").
    + destruct rest as [|n rest']; [done|]. destruct (isc n "^").
      * destruct (parse_class rest') as [[items out']|] eqn:Hp; [|done].
        injection H as _ <-. apply parse_class_length in Hp. simpl. lia.
      * destruct (parse_class (n :: rest')) as [[items out']|] eqn:Hp;
          [|done].
        injection H as _ <-. apply parse_class_length in Hp. lia.
    + destruct (_ || _); [done|]. by injection H as _ <-.
Qed.

Lemma parse_quant_length a s : length (parse_quant a s).2 <= length s.
Proof.
  destruct s as [|q [|l rest]]; cbn [parse_quant]; [done| |].
  - repeat destruct (isc q _); simpl; lia.
  - destruct (isc l "?"); repeat destruct (isc q _); simpl; lia.
Qed.

Lemma group_start_length s k inner :
  group_start s = Some (k, inner) -> length inner <= length s.
Proof.
  unfold group_start. intros H. destruct s as [|q rest]; [by injection H as _ <-|].
  destruct (isc q "?"); [|by injection H as _ <-].
  destruct rest as [|k1 rest']; [done|].
  repeat (destruct (isc k1 _); [injection H as _ <-; simpl; lia|]).
  destruct (isc k1 "<"); [|done].
  destruct rest' as [|k2 rest'']; [done|].
  repeat (destruct (isc k2 _); [injection H as _ <-; simpl; lia|]). done.
Qed.

(** What has been parsed with some fuel is parsed with three levels for
    every code unit consumed. *)
Lemma parse_fuel_needed f d :
  (forall s r out,
     parse_disj f d s = Some (r, out) ->
     exists k, length s = k + length out /\
       parse_disj (3 * k + 3) d s = Some (r, out)) /\
  (forall s r out,
     parse_alt f d s = Some (r, out) ->
     exists k, length s = k + length out /\
       parse_alt (3 * k + 2) d s = Some (r, out)) /\
  (forall s r out,
     parse_term f d s = Some (r, out) ->
     exists k, length s = S k + length out /\
       parse_term (3 * k + 4) d s = Some (r, out)).
Proof.
  induction f as [|f (IHd & IHa & IHt)]; [by repeat split|].
  split; [|split]; intros s r out H.
  - cbn [parse_disj] in H.
    destruct (parse_alt f d s) as [[r1 rest]|] eqn:Ha; [|done].
    destruct (IHa _ _ _ Ha) as (k1 & Hk1 & Ha').
    destruct (parse_fuel_mono (3 * k1 + 2) d) as (_ & Hma & _).
    destruct rest as [|c rest'].
    + injection H as <- <-. exists k1. split; [done|].
      replace (3 * k1 + 3) with (S (3 * k1 + 2)) by lia.
      cbn [parse_disj]. by rewrite Ha'.
    + destruct (isc c "|") eqn:Hc.
      * destruct (parse_disj f d rest') as [[r2 out']|] eqn:Hd; [|done].
        injection H as <- <-.
        destruct (IHd _ _ _ Hd) as (k2 & Hk2 & Hd').
        destruct (parse_fuel_mono (3 * k2 + 3) d) as (Hmd & _ & _).
        exists (k1 + 1 + k2). simpl in Hk1. split; [lia|].
        replace (3 * (k1 + 1 + k2) + 3)
          with (S (3 * k1 + 3 * k2 + 5)) by lia.
        cbn [parse_disj].
        rewrite (Hma _ _ (3 * k1 + 3 * k2 + 5) Ha') by lia. rewrite Hc.
        by rewrite (Hmd _ _ (3 * k1 + 3 * k2 + 5) Hd') by lia.
      * injection H as <- <-. exists k1. split; [done|].
        replace (3 * k1 + 3) with (S (3 * k1 + 2)) by lia.
        cbn [parse_disj]. by rewrite Ha', Hc.
  - cbn [parse_alt] in H. destruct s as [|c s'].
    + injection H as <- <-. by exists 0.
    + destruct (isc c ")" || isc c "|") eqn:Hc.
      { injection H as <- <-. exists 0. split; [done|].
        cbn [parse_alt Nat.mul Nat.add]. by rewrite Hc. }
      destruct (parse_term f d (c :: s')) as [[t rest]|] eqn:Ht; [|done].
      destruct (parse_alt f d rest) as [[r' out']|] eqn:Ha; [|done].
      injection H as <- <-.
      destruct (IHt _ _ _ Ht) as (k1 & Hk1 & Ht').
      destruct (IHa _ _ _ Ha) as (k2 & Hk2 & Ha').
      destruct (parse_fuel_mono (3 * k1 + 4) d) as (_ & _ & Hmt).
      destruct (parse_fuel_mono (3 * k2 + 2) d) as (_ & Hma & _).
      exists (S k1 + k2). split; [lia|].
      replace (3 * (S k1 + k2) + 2) with (S (3 * k1 + 3 * k2 + 4)) by lia.
      cbn [parse_alt]. rewrite Hc.
      rewrite (Hmt _ _ (3 * k1 + 3 * k2 + 4) Ht') by lia.
      by rewrite (Hma _ _ (3 * k1 + 3 * k2 + 4) Ha') by lia.
  - cbn [parse_term] in H. destruct s as [|c rest]; [done|].
    destruct (isc c "^") eqn:H1.
    { injection H as <- <-. exists 0. split; [done|].
      cbn [parse_term Nat.mul Nat.add]. by rewrite H1. }
    destruct (isc c "$") eqn:H2.
    { injection H as <- <-. exists 0. split; [done|].
      cbn [parse_term Nat.mul Nat.add]. by rewrite H1, H2. }
    destruct (isc c "(") eqn:H3.
    + destruct (group_start rest) as [[k inner]|] eqn:Hg; [|done].
      destruct (parse_disj f d inner) as [[r' [|close out']]|] eqn:Hd;
        try done.
      destruct (isc close ")") eqn:Hc; [|done].
      destruct (IHd _ _ _ Hd) as (k1 & Hk1 & Hd').
      destruct (parse_fuel_mono (3 * k1 + 3) d) as (Hmd & _ & _).
      pose proof (group_start_length _ _ _ Hg) as Hgl. simpl in Hk1.
      assert (Hres : exists k0, length (c :: rest) = S k0 + length out /\
                       S k1 <= k0).
      { destruct k.
        - injection H as H. pose proof (parse_quant_length r' out') as Hq.
          rewrite H in Hq. simpl in *.
          exists (length rest - length out). lia.
        - injection H as _ <-. simpl. exists (length rest - length out'). lia. }
      destruct Hres as (k0 & Hk0 & Hle). exists k0. split; [done|].
      replace (3 * k0 + 4) with (S (3 * k0 + 3)) by lia.
      cbn [parse_term]. rewrite H1, H2, H3, Hg.
      rewrite (Hmd _ _ (3 * k0 + 3) Hd') by lia. by rewrite Hc.
    + destruct (parse_atom d c rest) as [[a out']|] eqn:Hat; [|done].
      injection H as H. apply parse_atom_length in Hat as Hlen.
      pose proof (parse_quant_length a out') as Hq. rewrite H in Hq.
      simpl in Hq. exists (length rest - length out).
      split; [cbn [length]; lia|].
      replace (3 * (length rest - length out) + 4)
        with (S (3 * (length rest - length out) + 3)) by lia.
      cbn [parse_term]. by rewrite H1, H2, H3, Hat, H.
Qed.

(** A source that parses with some fuel parses with the fuel that [parse]
    gives: [parse] fails only where no amount of fuel helps. *)
Theorem parse_fuel_enough d source f r :
  parse_disj f d (chars source) = Some (r, []) -> parse d source = Some r.
Proof.
  intros H. destruct (parse_fuel_needed f d) as (Hd & _ & _).
  destruct (Hd _ _ _ H) as (k & Hk & H').
  destruct (parse_fuel_mono (3 * k + 3) d) as (Hm & _ & _).
  unfold parse. fold (chars source).
  rewrite (Hm _ _ (parse_fuel (chars source)) H'); [done|].
  unfold parse_fuel. simpl in Hk. lia.
Qed.

(** *** The patterns of [re_any] and [re_rhs] *)

(** [BEFORE] is two terms: a group and [\s*]. *)
Definition before_group_source : string :=
  "(?:[!%&()*+,\-./:;<=>?[^{|}~\n]|^)".
Definition spaces_source : string := "\s*".

Definition before_group : regex :=
  Eval vm_compute in
    match parse_term 20 false (chars before_group_source) with
    | Some (r, _) => r
    | None => Eps
    end.
Definition spaces : regex := Star true (Class false [CEsc false EscSpace]).

(** What follows [\s*] in [AFTER] and in [RHS_AFTER]. *)
Definition after_end : regex :=
  Eval vm_compute in
    match parse_term 20 false (chars "(?:[%&()*+,\-./:;<=>?[\]^{|}\n]|$)") with
    | Some (r, _) => r
    | None => Eps
    end.
Definition rhs_after_end : regex :=
  Eval vm_compute in
    match
      parse_term 20 false
        (chars "(?:[),;\]{}:]|\|\||\?\?|$|\n(?=\s*[A-Za-z_$]))")
    with
    | Some (r, _) => r
    | None => Eps
    end.

(** The pattern of [BEFORE (?:B) tail] when [b] is the pattern of [B]. *)
Definition wrapped (b tail_end : regex) : regex :=
  Seq before_group (Seq spaces (Seq b (Seq spaces (Seq tail_end Eps)))).

Lemma parse_alt_cons f d c s :
  isc c ")" = false -> isc c "|" = false ->
  parse_alt (S f) d (c :: s)
  = match parse_term f d (c :: s) with
    | Some (t, rest) =>
        match parse_alt f d rest with
        | Some (r, out) => Some (Seq t r, out)
        | None => None
        end
    | None => None
    end.
Proof. intros H1 H2. cbn [parse_alt]. by rewrite H1, H2. Qed.

Lemma parse_term_group f d inner r out :
  parse_disj f d inner = Some (r, ")"%char :: out) ->
  parse_term (S f) d ("("%char :: "?"%char :: ":"%char :: inner)
  = Some (parse_quant r out).
Proof. intros H. cbn [parse_term group_start]. unfold isc. simpl. by rewrite H. Qed.

Lemma parse_disj_done f d s r :
  parse_alt f d s = Some (r, []) -> parse_disj (S f) d s = Some (r, []).
Proof. intros H. cbn [parse_disj]. by rewrite H. Qed.

(** One term in front of an alternative. *)
Lemma parse_alt_prepend (T ext : list ascii) (t r : regex) (f0 F : nat) :
  parse_term f0 false T = Some (t, []) ->
  (exists c T', T = c :: T' /\ isc c ")" = false /\ isc c "|" = false) ->
  no_quant ext ->
  f0 <= F ->
  parse_alt F false ext = Some (r, []) ->
  parse_alt (S F) false (T ++ ext) = Some (Seq t r, []).
Proof.
  intros HT (c & T' & -> & Hc1 & Hc2) Hq Hle Hext.
  cbn [app]. rewrite parse_alt_cons by done.
  change (c :: T' ++ ext) with ((c :: T') ++ ext).
  destruct (parse_ext f0 false) as (_ & _ & He).
  destruct (parse_fuel_mono f0 false) as (_ & _ & Hm).
  rewrite (Hm _ _ F (He (c :: T') t [] ext HT (fun _ => Hq)) Hle).
  cbn [app]. by rewrite Hext.
Qed.

(** The group of the body and what follows it. *)
Lemma parse_group_tail (postL : list ascii) (tail : regex)
    (BL : list ascii) (b : regex) (F : nat) :
  parse_alt 30 false postL = Some (tail, []) ->
  (exists t, postL = "\"%char :: t) ->
  parse_disj (parse_fuel BL) false BL = Some (b, []) ->
  30 + parse_fuel BL <= F ->
  parse_alt (S (S F)) false (chars "(?:" ++ BL ++ chars ")" ++ postL)
  = Some (Seq b tail, []).
Proof.
  intros Hpost [t Ht] Hb HF.
  destruct (parse_ext (parse_fuel BL) false) as (Hd & _ & _).
  pose proof (Hd BL b [] (")"%char :: postL) Hb
                (fun _ => ex_intro _ postL eq_refl)) as Hin.
  cbn [app] in Hin. clear Hd.
  assert (HB : parse_disj F false (BL ++ ")"%char :: postL)
               = Some (b, ")"%char :: postL)).
  { destruct (parse_fuel_mono (parse_fuel BL) false) as (Hm & _ & _).
    apply (Hm _ _ F Hin). lia. }
  assert (Hgroup :
    parse_term (S F) false (chars "(?:" ++ BL ++ chars ")" ++ postL)
    = Some (b, postL)).
  { change (chars "(?:" ++ BL ++ chars ")" ++ postL)
      with ("("%char :: "?"%char :: ":"%char :: BL ++ ")"%char :: postL).
    rewrite (parse_term_group F false _ b postL HB). by rewrite Ht. }
  assert (Htail : parse_alt (S F) false postL = Some (tail, [])).
  { destruct (parse_fuel_mono 30 false) as (_ & Hm & _).
    apply (Hm _ _ (S F) Hpost). lia. }
  change (chars "(?:" ++ BL ++ chars ")" ++ postL)
    with ("("%char :: (chars "?:" ++ BL ++ chars ")" ++ postL)).
  rewrite parse_alt_cons by reflexivity.
  change ("("%char :: (chars "?:" ++ BL ++ chars ")" ++ postL))
    with (chars "(?:" ++ BL ++ chars ")" ++ postL).
  by rewrite Hgroup, Htail.
Qed.

Ltac prepend_term T t :=
  apply (parse_alt_prepend T _ t _ 20);
  [vm_compute; reflexivity | by eexists _, _ | done | lia |].

Lemma parse_wrapped_chars (postL : list ascii) (tail_end : regex)
    (BL : list ascii) (b : regex) (F : nat) :
  parse_alt 30 false postL = Some (Seq spaces (Seq tail_end Eps), []) ->
  (exists t, postL = "\"%char :: t) ->
  parse_disj (parse_fuel BL) false BL = Some (b, []) ->
  100 + parse_fuel BL <= F ->
  parse_disj F false
    (chars RE_BEFORE ++ chars "(?:" ++ BL ++ chars ")" ++ postL)
  = Some (wrapped b tail_end, []).
Proof.
  intros Hpost Ht Hb HF.
  do 5 (destruct F as [|F]; [lia|]).
  apply parse_disj_done.
  change (chars RE_BEFORE) with (chars before_group_source ++ chars spaces_source).
  rewrite <- app_assoc. unfold wrapped.
  prepend_term (chars before_group_source) before_group.
  prepend_term (chars spaces_source) spaces.
  apply parse_group_tail; [done | done | done | lia].
Qed.

Lemma parse_disj_of_parse d B b :
  parse d B = Some b ->
  parse_disj (parse_fuel (chars B)) d (chars B) = Some (b, []).
Proof.
  unfold parse. fold (chars B).
  destruct (parse_disj _ d (chars B)) as [[r [|c out]]|]; try done.
  by intros [= ->].
Qed.

Lemma parse_wrapped (B post : string) (b tail_end : regex) :
  parse_alt 30 false (chars post) = Some (Seq spaces (Seq tail_end Eps), []) ->
  (exists t, chars post = "\"%char :: t) ->
  parse false B = Some b ->
  parse false (RE_BEFORE +:+ "(?:" +:+ B +:+ ")" +:+ post)
  = Some (wrapped b tail_end).
Proof.
  intros Hpost Hfirst HB. apply parse_disj_of_parse in HB.
  unfold parse. fold (chars (RE_BEFORE +:+ "(?:" +:+ B +:+ ")" +:+ post)).
  rewrite !chars_app.
  rewrite (parse_wrapped_chars (chars post) tail_end (chars B) b);
    [done | done | done | done |].
  unfold parse_fuel. rewrite !length_app.
  change (length (chars RE_BEFORE)) with 37.
  change (length (chars "(?:")) with 3. lia.
Qed.

Lemma parse_re_any_source B b :
  parse false B = Some b ->
  parse false (re_any_source B) = Some (wrapped b after_end).
Proof.
  apply parse_wrapped; [vm_compute; reflexivity | by eexists].
Qed.

Lemma parse_re_rhs_source B b :
  parse false B = Some b ->
  parse false (re_rhs_source B) = Some (wrapped b rhs_after_end).
Proof.
  apply parse_wrapped; [vm_compute; reflexivity | by eexists].
Qed.

(** *** The pattern of [re_dot] *)

Definition ident_start_class : list class_item :=
  [CRange "A" "Z"; CRange "a" "z"; CChar "_"; CChar "$"].
Definition digit_class : list class_item := [CRange "0" "9"].
Definition ident_rest_class : list class_item :=
  [CRange "A" "Z"; CRange "a" "z"; CChar "_"; CChar "$"; CRange "0" "9"].

(** The pattern of [START REST* DOT (?:B) AFTER] when [b] is the pattern of
    [B] and [rest] is the class of [REST]. *)
Definition aliased (rest : list class_item) (b : regex) : regex :=
  Seq (Class false ident_start_class)
    (Seq (Star true (Class false rest))
       (Seq spaces
          (Seq (Opt true (Chr "?"))
             (Seq (Chr ".")
                (Seq spaces (Seq b (Seq spaces (Seq after_end Eps)))))))).

Lemma parse_aliased (rest_source B : string) (rest : list class_item)
    (b : regex) :
  parse_term 20 false (chars rest_source)
  = Some (Star true (Class false rest), []) ->
  (exists t, chars rest_source = "["%char :: t) ->
  parse false B = Some b ->
  parse false
    (((RE_VAR_CHAR_START +:+ rest_source) +:+ RE_DOT)
     +:+ "(?:" +:+ B +:+ ")" +:+ RE_AFTER)
  = Some (aliased rest b).
Proof.
  intros Hrest [t Ht] HB. apply parse_disj_of_parse in HB.
  unfold parse.
  fold (chars (((RE_VAR_CHAR_START +:+ rest_source) +:+ RE_DOT)
               +:+ "(?:" +:+ B +:+ ")" +:+ RE_AFTER)).
  rewrite !chars_app.
  change (chars RE_DOT)
    with (chars "\s*" ++ chars "\??" ++ chars "\." ++ chars "\s*").
  rewrite <- !app_assoc.
  set (X := chars "(?:" ++ chars B ++ chars ")" ++ chars RE_AFTER).
  assert (HF : 100 + parse_fuel (chars B)
               <= parse_fuel (chars RE_VAR_CHAR_START ++ chars rest_source ++
                    chars "\s*" ++ chars "\??" ++ chars "\." ++
                    chars "\s*" ++ X)).
  { unfold parse_fuel, X. rewrite !length_app, Ht.
    change (length (chars RE_VAR_CHAR_START)) with 10.
    change (length (chars "\s*")) with 3.
    change (length (chars "\??")) with 3.
    change (length (chars "\.")) with 2.
    change (length (chars "(?:")) with 3.
    change (length (chars RE_AFTER)) with 37. simpl length. lia. }
  revert HF. generalize (parse_fuel (chars RE_VAR_CHAR_START ++
    chars rest_source ++ chars "\s*" ++ chars "\??" ++ chars "\." ++
    chars "\s*" ++ X)).
  intros F HF. do 9 (destruct F as [|F]; [lia|]).
  replace (parse_disj (S (S (S (S (S (S (S (S (S F))))))))) false
             (chars RE_VAR_CHAR_START ++ chars rest_source ++
              chars "\s*" ++ chars "\??" ++ chars "\." ++ chars "\s*" ++ X))
    with (Some (aliased rest b, @nil ascii)); [done|].
  symmetry. apply parse_disj_done. unfold aliased. rewrite Ht in *.
  prepend_term (chars RE_VAR_CHAR_START) (Class false ident_start_class).
  apply (parse_alt_prepend ("["%char :: t) _
           (Star true (Class false rest)) _ 20);
    [done | by eexists _, _ | done | lia |].
  prepend_term (chars "\s*") spaces.
  prepend_term (chars "\??") (Opt true (Chr "?")).
  prepend_term (chars "\.") (Chr ".").
  prepend_term (chars "\s*") spaces.
  apply parse_group_tail;
    [vm_compute; reflexivity | by eexists | done | lia].
Qed.

Lemma parse_re_dot_source B b :
  parse false B = Some b ->
  parse false (re_dot_source B) = Some (aliased digit_class b).
Proof.
  apply (parse_aliased "[0-9]*"); [vm_compute; reflexivity | by eexists].
Qed.

Lemma parse_spec_dot B b :
  parse false B = Some b ->
  parse false (CompilerProps.spec_dot B) = Some (aliased ident_rest_class b).
Proof.
  apply (parse_aliased "[A-Za-z_$0-9]*");
    [vm_compute; reflexivity | by eexists].
Qed.

(** *** Matching *)

Lemma In_ends_Seq r1 r2 s i e :
  In e (ends (Seq r1 r2) s i) <->
  exists k, In k (ends r1 s i) /\ In e (ends r2 s k).
Proof. cbn [ends]. apply in_flat_map. Qed.

Lemma In_ends_Alt r1 r2 s i e :
  In e (ends (Alt r1 r2) s i) <-> In e (ends r1 s i) \/ In e (ends r2 s i).
Proof. cbn [ends]. apply in_app_iff. Qed.

Lemma In_one p s i e :
  In e (one p s i) <->
  exists c, nth_error s i = Some c /\ p c = true /\ e = S i.
Proof.
  unfold one. destruct (nth_error s i) as [c|].
  - destruct (p c) eqn:Hp; simpl.
    + split; [intros [<-|[]]; by exists c | by intros (? & _ & _ & ->); left].
    + split; [done|]. intros (c' & [= <-] & Hp' & _). congruence.
  - split; [done|]. by intros (? & [=] & _).
Qed.

Lemma exec_from_Some r s n : forall i,
  (exists p, exec_from r s n i = Some p) <->
  exists j e, i <= j < i + n /\ In e (ends r s j).
Proof.
  induction n as [|n IH]; intros i; simpl.
  - split; [by intros [? [=]] | intros (j & e & ? & _); lia].
  - destruct (ends r s i) as [|e0 l] eqn:E.
    + rewrite IH. split; intros (j & e & Hj & He).
      * exists j, e. split; [lia | done].
      * exists j, e. split; [|done].
        destruct (decide (j = i)) as [->|]; [by rewrite E in He | lia].
    + split; [|by eexists]. intros _. exists i, e0. rewrite E.
      split; [lia | by left].
Qed.

(** [test] succeeds exactly when the pattern has a match that starts
    somewhere in the text. *)
Lemma test_true r s :
  test r s = true <->
  exists i e, i <= length s /\ In e (ends r s i).
Proof.
  unfold test, exec.
  destruct (exec_from r s (S (length s) - 0) 0) as [p|] eqn:E.
  - split; [intros _|done].
    destruct (proj1 (exec_from_Some r s (S (length s) - 0) 0))
      as (j & e & Hj & He); [by eexists|].
    exists j, e. split; [lia | done].
  - split; [done|]. intros (i & e & Hi & He).
    destruct (proj2 (exec_from_Some r s (S (length s) - 0) 0)) as [p Hp].
    + exists i, e. split; [lia | done].
    + congruence.
Qed.

(** The members of the class of [RHS_AFTER] are members of the class of
    [AFTER]. *)
Definition rhs_after_class : list class_item :=
  [CChar ")"; CChar ","; CChar ";"; CChar "]"; CChar "{"; CChar "}";
   CChar ":"].
Definition after_class : list class_item :=
  [CChar "%"; CChar "&"; CChar "("; CChar ")"; CChar "*"; CChar "+";
   CChar ","; CChar "-"; CChar "."; CChar "/"; CChar ":"; CChar ";";
   CChar "<"; CChar "="; CChar ">"; CChar "?"; CChar "["; CChar "]";
   CChar "^"; CChar "{"; CChar "|"; CChar "}"; CChar (chr 10)].

Lemma rhs_after_class_after_class c :
  class_matches false rhs_after_class c = true ->
  class_matches false after_class c = true.
Proof.
  destruct c as [[] [] [] [] [] [] [] []]; vm_compute; congruence.
Qed.

(** Where [RHS_AFTER] accepts what follows, [AFTER] accepts it too. *)
Lemma rhs_after_end_after_end s m e :
  In e (ends rhs_after_end s m) -> exists e', In e' (ends after_end s m).
Proof.
  unfold rhs_after_end, after_end.
  fold rhs_after_class. fold after_class.
  assert (Hchar : forall c,
    nth_error s m = Some c -> class_matches false after_class c = true ->
    exists e', In e'
      (ends (Alt (Seq (Class false after_class) Eps) (Seq Eol Eps)) s m)).
  { intros c Hc Hm. exists (S m). apply In_ends_Alt. left.
    apply In_ends_Seq. exists (S m). split; [|by left].
    apply In_one. by exists c. }
  rewrite !In_ends_Alt, !In_ends_Seq.
  intros [(k & Hk & _)|[(k & Hk & _)|[(k & Hk & _)|[(k & Hk & _)|(k & Hk & _)]]]].
  - apply In_one in Hk as (c & Hc & Hm & _).
    apply (Hchar c Hc). by apply rhs_after_class_after_class.
  - apply In_one in Hk as (c & Hc & Hm & _).
    apply Ascii.eqb_eq in Hm as <-. by apply (Hchar "|"%char).
  - apply In_one in Hk as (c & Hc & Hm & _).
    apply Ascii.eqb_eq in Hm as <-. by apply (Hchar "?"%char).
  - exists k. apply In_ends_Alt. right. apply In_ends_Seq.
    exists k. split; [done|]. cbn [ends] in *.
    destruct (m =? length s); [|done]. destruct Hk as [<-|[]]. by left.
  - apply In_one in Hk as (c & Hc & Hm & _).
    apply Ascii.eqb_eq in Hm as <-. by apply (Hchar (chr 10)).
Qed.

Lemma wrapped_rhs_any b s i e :
  In e (ends (wrapped b rhs_after_end) s i) ->
  exists e', In e' (ends (wrapped b after_end) s i).
Proof.
  unfold wrapped. intros H.
  apply In_ends_Seq in H as (k1 & H1 & H).
  apply In_ends_Seq in H as (k2 & H2 & H).
  apply In_ends_Seq in H as (k3 & H3 & H).
  apply In_ends_Seq in H as (k4 & H4 & H).
  apply In_ends_Seq in H as (k5 & H5 & H6).
  destruct (rhs_after_end_after_end s k4 k5 H5) as [e' He'].
  exists e'.
  apply In_ends_Seq. exists k1. split; [done|].
  apply In_ends_Seq. exists k2. split; [done|].
  apply In_ends_Seq. exists k3. split; [done|].
  apply In_ends_Seq. exists k4. split; [done|].
  apply In_ends_Seq. exists e'. split; [done|]. by left.
Qed.

(** *** The identifier in front of [DOT] *)

(** Every code unit from [k] up to [e] satisfies [p]. *)
Definition all_in (p : ascii -> bool) (s : list ascii) (k e : nat) : Prop :=
  forall j, k <= j < e -> exists c, nth_error s j = Some c /\ p c = true.

Lemma iter_star_one_sound p s g fuel : forall k e,
  In e (iter_star fuel (one p s) g k) -> k <= e /\ all_in p s k e.
Proof.
  induction fuel as [|f IH]; intros k e; simpl.
  - intros [<-|[]]. split; [lia|]. intros j Hj. lia.
  - assert (Hk : k <= k /\ all_in p s k k).
    { split; [lia|]. intros j Hj. lia. }
    assert (Hmore : In e
      (flat_map (iter_star f (one p s) g)
         (List.filter (fun e => k <? e) (one p s k))) ->
      k <= e /\ all_in p s k e).
    { intros H. apply in_flat_map in H as (k' & Hk' & He).
      apply filter_In in Hk' as [Hk' _].
      apply In_one in Hk' as (c & Hc & Hp & ->).
      apply IH in He as [Hle Hall]. split; [lia|].
      intros j Hj. destruct (decide (j = k)) as [->|]; [by exists c|].
      apply Hall. lia. }
    destruct g.
    + intros H. apply in_app_iff in H as [H|[<-|[]]]; auto.
    + intros [<-|H]; auto.
Qed.

Lemma iter_star_one_complete p s g : forall n fuel k,
  n <= fuel -> all_in p s k (k + n) ->
  In (k + n) (iter_star fuel (one p s) g k).
Proof.
  induction n as [|n IH]; intros fuel k Hle Hall.
  - rewrite Nat.add_0_r. destruct fuel as [|f]; simpl; [by left|].
    destruct g; [apply in_app_iff; right|]; by left.
  - destruct fuel as [|f]; [lia|]. simpl.
    assert (Hmore : In (k + S n)
      (flat_map (iter_star f (one p s) g)
         (List.filter (fun e => k <? e) (one p s k)))).
    { apply in_flat_map. exists (S k). split.
      - apply filter_In. split; [|apply Nat.ltb_lt; lia].
        destruct (Hall k) as (c & Hc & Hp); [lia|].
        apply In_one. by exists c.
      - replace (k + S n) with (S k + n) by lia. apply IH; [lia|].
        intros j Hj. apply Hall. lia. }
    destruct g; [apply in_app_iff; left | right]; done.
Qed.

Lemma all_in_length p s k e : all_in p s k e -> k < e -> e <= length s.
Proof.
  intros Hall Hlt. destruct (Hall (e - 1)) as (c & Hc & _); [lia|].
  assert (e - 1 < length s) by (apply nth_error_Some; congruence). lia.
Qed.

(** A starred class matches exactly the runs of members of the class. *)
Lemma In_ends_star_class g neg items s k e :
  In e (ends (Star g (Class neg items)) s k) <->
  k <= e /\ all_in (class_matches neg items) s k e.
Proof.
  cbn [ends]. split; [apply iter_star_one_sound|].
  intros [Hle Hall]. replace e with (k + (e - k)) in * by lia.
  apply iter_star_one_complete; [|done].
  destruct (decide (e - k = 0)) as [->|Hne]; [lia|].
  pose proof (all_in_length _ _ _ _ Hall). lia.
Qed.

Lemma digit_ident_rest c :
  class_matches false digit_class c = true ->
  class_matches false ident_rest_class c = true.
Proof. destruct c as [[] [] [] [] [] [] [] []]; vm_compute; congruence. Qed.

Lemma ident_rest_cases c :
  class_matches false ident_rest_class c = true ->
  class_matches false ident_start_class c = true \/
  class_matches false digit_class c = true.
Proof.
  destruct c as [[] [] [] [] [] [] [] []]; vm_compute; intros H;
    (by left) || (by right) || discriminate.
Qed.

(** In a run of identifier characters that follows an identifier start,
    the last character that is not a digit is an identifier start followed
    by digits only. *)
Lemma last_ident_start s : forall n i,
  (exists c, nth_error s i = Some c /\
     class_matches false ident_start_class c = true) ->
  all_in (class_matches false ident_rest_class) s (S i) (S i + n) ->
  exists j, i <= j < S i + n /\
    (exists c, nth_error s j = Some c /\
       class_matches false ident_start_class c = true) /\
    all_in (class_matches false digit_class) s (S j) (S i + n).
Proof.
  induction n as [|n IH]; intros i Hi Hall.
  - exists i. split; [lia|]. split; [done|]. intros j Hj. lia.
  - destruct (Hall (S i + n)) as (c & Hc & Hm); [lia|].
    apply ident_rest_cases in Hm as [Hm|Hm].
    + exists (S i + n). split; [lia|]. split; [by exists c|].
      intros j Hj. lia.
    + destruct (IH i Hi) as (j & Hj & Hstart & Hdig).
      { intros j Hj. apply Hall. lia. }
      exists j. split; [lia|]. split; [done|].
      intros j' Hj'. destruct (decide (j' = S i + n)) as [->|].
      * by exists c.
      * apply Hdig. lia.
Qed.

(** The two fragments for the identifier accept the same texts: the
    pattern may start anywhere, so it is enough to find the end of an
    identifier. *)
Lemma aliased_iff b s :
  (exists i e, i <= length s /\ In e (ends (aliased digit_class b) s i)) <->
  (exists i e, i <= length s /\ In e (ends (aliased ident_rest_class b) s i)).
Proof.
  unfold aliased. split; intros (i & e & Hi & H).
  - exists i, e. split; [done|].
    apply In_ends_Seq in H as (k1 & H1 & H).
    apply In_ends_Seq in H as (k2 & H2 & H3).
    apply In_ends_Seq. exists k1. split; [done|].
    apply In_ends_Seq. exists k2. split; [|done].
    apply In_ends_star_class in H2 as [Hle Hall].
    apply In_ends_star_class. split; [done|].
    intros j Hj. destruct (Hall j Hj) as (c & Hc & Hm).
    exists c. split; [done | by apply digit_ident_rest].
  - apply In_ends_Seq in H as (k1 & H1 & H).
    apply In_ends_Seq in H as (k2 & H2 & H3).
    cbn [ends] in H1. apply In_one in H1 as (c & Hc & Hm & ->).
    apply In_ends_star_class in H2 as [Hle Hall].
    replace k2 with (S i + (k2 - S i)) in Hall by lia.
    destruct (last_ident_start s (k2 - S i) i) as (j & Hj & Hstart & Hdig);
      [by exists c | done |].
    replace (S i + (k2 - S i)) with k2 in * by lia.
    destruct Hstart as (c' & Hc' & Hm').
    exists j, e. split.
    { assert (j < length s) by (apply nth_error_Some; congruence). lia. }
    apply In_ends_Seq. exists (S j). split.
    { cbn [ends]. apply In_one. by exists c'. }
    apply In_ends_Seq. exists k2. split; [|done].
    apply In_ends_star_class. split; [lia | done].
Qed.

(** The pattern that [re_dot] compiles and the pattern of the
    specification's [dot(B)] match the same source texts. *)
Lemma re_dot_accepts_like_spec_dot (B : string) (b : regex)
    (sourceText : string) :
  parse false B = Some b ->
  RegExp_test (mkRegExp (re_dot_source B)) sourceText
  = RegExp_test (mkRegExp (CompilerProps.spec_dot B)) sourceText.
Proof.
  intros HB. unfold RegExp_test. cbn [source].
  rewrite (parse_re_dot_source B b HB), (parse_spec_dot B b HB).
  apply eq_true_iff_eq. rewrite !test_true. apply aliased_iff.
Qed.

(** C8, amended.  The source that [re_dot] compiles for the body [B] is
    [ALIAS_DOT (?:B) AFTER], where [ALIAS_DOT] is [RE_VAR_CHAR_END] followed
    by [DOT], and [RE_VAR_CHAR_END] is the fragment [[A-Za-z_$][0-9]*]: the
    last character of an identifier that is not a digit, and the digits
    after it.  The pattern is not anchored on its left, so for a body that
    is a pattern it matches the same source texts as with
    [[A-Za-z_$][A-Za-z_$0-9]*], an identifier of any length. *)
Theorem re_dot_source_shape (B : string) :
  re_dot B = newRegExp (re_dot_source B) /\
  re_dot_source B
  = RE_ALIAS_DOT +:+ "(?:" +:+ B +:+ ")" +:+ RE_AFTER /\
  RE_ALIAS_DOT = RE_VAR_CHAR_END +:+ RE_DOT /\
  RE_VAR_CHAR_END = "[A-Za-z_$][0-9]*" /\
  (forall b sourceText,
     parse false B = Some b ->
     RegExp_test (mkRegExp (re_dot_source B)) sourceText
     = RegExp_test (mkRegExp (CompilerProps.spec_dot B)) sourceText).
Proof.
  do 4 (split; [reflexivity|]).
  intros b sourceText HB. by apply (re_dot_accepts_like_spec_dot B b).
Qed.

(** The hypothesis of the theorem below is needed: a body that is not a
    pattern on its own can close the group it is put in and so change what
    follows it. *)
Remark body_must_be_a_pattern :
  parse false "x)(?:[^" = None /\
  RegExp_test (mkRegExp (re_rhs_source "x)(?:[^")) "x%" = true /\
  RegExp_test (mkRegExp (re_any_source "x)(?:[^")) "x%" = false.
Proof. vm_compute. done. Qed.

(** C10.  Let the body [B] be a pattern.  Then [re_rhs] and [re_any] build
    RegExp objects from it, and every source text that the pattern of
    [re_rhs] matches is matched by the pattern of [re_any]; behind this,
    wherever the pattern of [RHS_AFTER] matches, the pattern of [AFTER]
    matches too. *)
Theorem re_rhs_implies_re_any (B : string) (b : regex) :
  parse false B = Some b ->
  new_RegExp (re_rhs_source B) = Normal (mkRegExp (re_rhs_source B)) /\
  new_RegExp (re_any_source B) = Normal (mkRegExp (re_any_source B)) /\
  (forall sourceText,
     RegExp_test (mkRegExp (re_rhs_source B)) sourceText = true ->
     RegExp_test (mkRegExp (re_any_source B)) sourceText = true) /\
  (forall rhs_after after s i e,
     parse false RE_RHS_AFTER = Some rhs_after ->
     parse false RE_AFTER = Some after ->
     In e (ends rhs_after s i) -> exists e', In e' (ends after s i)).
Proof.
  intros HB.
  pose proof (parse_re_rhs_source B b HB) as Hrhs.
  pose proof (parse_re_any_source B b HB) as Hany.
  unfold new_RegExp, RegExp_test. cbn [source]. rewrite Hrhs, Hany.
  split; [done|]. split; [done|]. split.
  - intros sourceText. rewrite !test_true.
    intros (i & e & Hi & He).
    destruct (wrapped_rhs_any b _ i e He) as [e' He']. by exists i, e'.
  - intros rhs_after after s i e H1 H2.
    vm_compute in H1. vm_compute in H2.
    injection H1 as <-. injection H2 as <-.
    fold rhs_after_class after_class spaces.
    intros H. apply In_ends_Seq in H as (k1 & Hk1 & H).
    apply In_ends_Seq in H as (k2 & Hk2 & Hk3).
    destruct (rhs_after_end_after_end s k1 k2) as [e' He']; [exact Hk2|].
    exists e'. apply In_ends_Seq. exists k1. split; [exact Hk1|].
    apply In_ends_Seq. exists e'. split; [exact He' | by left].
Qed.

Lemma re_rhs_implies_re_any_witness :
  let B := "(?:chrome|browser)\s*\??\.\s*(?:storage)" in
  new_RegExp (re_rhs_source B) = Normal (mkRegExp (re_rhs_source B)) /\
  new_RegExp (re_any_source B) = Normal (mkRegExp (re_any_source B)) /\
  (forall sourceText,
     RegExp_test (mkRegExp (re_rhs_source B)) sourceText = true ->
     RegExp_test (mkRegExp (re_any_source B)) sourceText = true) /\
  (forall rhs_after after s i e,
     parse false RE_RHS_AFTER = Some rhs_after ->
     parse false RE_AFTER = Some after ->
     In e (ends rhs_after s i) -> exists e', In e' (ends after s i)).
Proof.
  eapply (re_rhs_implies_re_any "(?:chrome|browser)\s*\??\.\s*(?:storage)").
  vm_compute. reflexivity.
Defined.

(** *** The sources that [compileQuery] builds are patterns *)

(** The string is a pattern: [new RegExp] accepts it. *)
Definition parses (p : string) : Prop := is_Some (parse false p).

Lemma parse_alt_prepend_ex (T ext : list ascii) (t r : regex) :
  (exists f0, parse_term f0 false T = Some (t, [])) ->
  (exists c T', T = c :: T' /\ isc c ")" = false /\ isc c "|" = false) ->
  no_quant ext ->
  (exists F, parse_alt F false ext = Some (r, [])) ->
  exists F, parse_alt F false (T ++ ext) = Some (Seq t r, []).
Proof.
  intros [f0 HT] Hc Hq [F Hext]. exists (S (Nat.max f0 F)).
  apply (parse_alt_prepend T ext t r f0); [done | done | done | lia |].
  destruct (parse_fuel_mono F false) as (_ & Hm & _).
  apply (Hm _ _ _ Hext). lia.
Qed.

Lemma parse_term_wrap p b :
  parse false p = Some b ->
  exists f, parse_term f false (chars (CompilerProps.wrap p)) = Some (b, []).
Proof.
  intros Hp. apply parse_disj_of_parse in Hp.
  exists (S (parse_fuel (chars p))).
  unfold CompilerProps.wrap. rewrite !chars_app.
  change (chars "(?:" ++ chars p ++ chars ")")
    with ("("%char :: "?"%char :: ":"%char :: chars p ++ [")"%char]).
  rewrite (parse_term_group _ false _ b []); [done|].
  destruct (parse_ext (parse_fuel (chars p)) false) as (Hd & _ & _).
  apply (Hd _ _ [] [")"%char] Hp). intros _. by exists [].
Qed.

Lemma chars_wrap p : exists t, chars (CompilerProps.wrap p) = "("%char :: t.
Proof. unfold CompilerProps.wrap. rewrite chars_app. by eexists. Qed.

Ltac prepend_ex T t :=
  apply (parse_alt_prepend_ex T _ t _);
  [exists 20; vm_compute; reflexivity | by eexists _, _ | try done |].

(** [DOT] in front of an alternative that starts with a group. *)
Lemma parse_alt_dot ext r :
  (exists t, ext = "("%char :: t) ->
  (exists F, parse_alt F false ext = Some (r, [])) ->
  exists F, parse_alt F false (chars RE_DOT ++ ext)
    = Some (Seq spaces (Seq (Opt true (Chr "?"))
              (Seq (Chr ".") (Seq spaces r))), []).
Proof.
  intros [t ->] Hext.
  change (chars RE_DOT)
    with (chars "\s*" ++ chars "\??" ++ chars "\." ++ chars "\s*").
  rewrite <- !app_assoc.
  prepend_ex (chars "\s*") spaces.
  prepend_ex (chars "\??") (Opt true (Chr "?")).
  prepend_ex (chars "\.") (Chr ".").
  prepend_ex (chars "\s*") spaces.
  done.
Qed.

(** Groups of patterns joined by [DOT] parse as one alternative. *)
Lemma parse_alt_join ps :
  Forall parses ps ->
  exists F r,
    parse_alt F false (chars (join RE_DOT (map CompilerProps.wrap ps)))
    = Some (r, []).
Proof.
  induction 1 as [|p ps [b Hp] Hps (F & r & IH)].
  - by exists 1, Eps.
  - destruct (parse_term_wrap p b Hp) as [f0 Hterm].
    destruct (chars_wrap p) as [t Ht].
    destruct ps as [|p' ps].
    + cbn [map join]. rewrite <- (app_nil_r (chars _)).
      destruct (parse_alt_prepend_ex (chars (CompilerProps.wrap p)) [] b Eps)
        as [F' HF']; [by exists f0 | rewrite Ht; by eexists _, _ | done
                     | by exists 1 | by eexists _, _].
    + cbn [map join] in *. rewrite !chars_app.
      destruct (parse_alt_dot
        (chars (join RE_DOT (CompilerProps.wrap p' :: map CompilerProps.wrap ps)))
        r) as [F1 H1].
      { destruct (chars_wrap p') as [t' Ht']. destruct ps; cbn [map join].
        - by rewrite Ht'; eexists.
        - rewrite chars_app, Ht'. by eexists. }
      { by exists F. }
      destruct (parse_alt_prepend_ex (chars (CompilerProps.wrap p))
        (chars RE_DOT ++
         chars (join RE_DOT
                  (CompilerProps.wrap p' :: map CompilerProps.wrap ps))) b
        (Seq spaces (Seq (Opt true (Chr "?")) (Seq (Chr ".") (Seq spaces r)))))
        as [F' HF']; [by exists f0 | rewrite Ht; by eexists _, _ | done
                     | by exists F1 | by eexists _, _].
Qed.

Lemma parses_of_alt F source r :
  parse_alt F false (chars source) = Some (r, []) -> parses source.
Proof.
  intros H. exists r. apply (parse_fuel_enough false source (S F)).
  by apply parse_disj_done.
Qed.

Lemma parses_body ps :
  Forall parses ps -> parses (join RE_DOT (map CompilerProps.wrap ps)).
Proof.
  intros H. destruct (parse_alt_join ps H) as (F & r & HF).
  by eapply parses_of_alt.
Qed.

Lemma parses_host p :
  parses p -> parses (CompilerProps.HOST_DOT +:+ CompilerProps.wrap p).
Proof.
  intros [b Hp]. destruct (parse_term_wrap p b Hp) as [f0 Hterm].
  destruct (chars_wrap p) as [t Ht].
  assert (exists F r,
    parse_alt F false
      (chars (CompilerProps.HOST_DOT +:+ CompilerProps.wrap p))
    = Some (r, [])) as (F & r & HF); [|by eapply parses_of_alt].
  unfold CompilerProps.HOST_DOT. rewrite !chars_app, <- app_assoc.
  destruct (parse_alt_prepend_ex (chars (CompilerProps.wrap p)) [] b Eps)
    as [F1 H1]; [by exists f0 | rewrite Ht; by eexists _, _ | done
                | by exists 1 |].
  rewrite app_nil_r in H1.
  destruct (parse_alt_dot (chars (CompilerProps.wrap p)) (Seq b Eps))
    as [F2 H2]; [by rewrite Ht; eexists | by exists F1 |].
  destruct (parse_alt_prepend_ex (chars "(?:chrome|browser)")
    (chars RE_DOT ++ chars (CompilerProps.wrap p))
    (Alt (Seq (Chr "c") (Seq (Chr "h") (Seq (Chr "r") (Seq (Chr "o")
            (Seq (Chr "m") (Seq (Chr "e") Eps))))))
         (Seq (Chr "b") (Seq (Chr "r") (Seq (Chr "o") (Seq (Chr "w")
            (Seq (Chr "s") (Seq (Chr "e") (Seq (Chr "r") Eps))))))))
    (Seq spaces (Seq (Opt true (Chr "?"))
       (Seq (Chr ".") (Seq spaces (Seq b Eps))))))
    as [F3 H3]; [exists 20; vm_compute; reflexivity | by eexists _, _ | done
                | by exists F2 | by eexists _, _].
Qed.

(** When the parts of a query are patterns, so are all the sources of its
    conditions. *)
Lemma spec_conditions_parse query src :
  Forall parses (split_dot query) ->
  src ∈ concat (CompilerProps.spec_conditions query) ->
  parses src.
Proof.
  intros Hps. unfold CompilerProps.spec_conditions.
  set (ps := split_dot query) in *. set (n := length ps).
  assert (Hbody : forall k m, parses (CompilerProps.BODY ps k m)).
  { intros k m. apply parses_body. by apply Forall_take, Forall_drop. }
  assert (Hany : forall B, parses B -> parses (re_any_source B)).
  { intros B [b HB]. eexists. by apply parse_re_any_source. }
  assert (Hrhs : forall B, parses B -> parses (re_rhs_source B)).
  { intros B [b HB]. eexists. by apply parse_re_rhs_source. }
  assert (Hdot : forall B, parses B -> parses (re_dot_source B)).
  { intros B [b HB]. eexists. by apply parse_re_dot_source. }
  assert (Hhost : 2 <= n ->
    parses (CompilerProps.HOST_DOT +:+ CompilerProps.wrap (hd "" ps))).
  { intros Hn. apply parses_host. subst n.
    destruct ps as [|p1 ps']; [simpl in Hn; lia|].
    by apply Forall_cons in Hps as [? _]. }
  repeat case_bool_decide; rewrite !concat_app; cbn [concat app];
    rewrite ?elem_of_app, ?elem_of_cons, ?elem_of_nil;
    intros Hin; repeat (destruct Hin as [Hin|Hin]); try done; subst src;
    auto; apply Hrhs, Hhost; tauto.
Qed.

(** Words: letters, digits and the underscore. *)
Lemma word_term c :
  is_word c = true ->
  parse_term 1 false [c] = Some (Chr c, []) /\
  isc c ")" = false /\ isc c "|" = false /\
  isc c "*" = false /\ isc c "+" = false /\ isc c "?" = false.
Proof.
  destruct c as [[] [] [] [] [] [] [] []]; vm_compute; intros H;
    try discriminate; by repeat split.
Qed.

Lemma word_parses p :
  (forall c, In c (chars p) -> is_word c = true) -> parses p.
Proof.
  intros Hp.
  assert (exists F r, parse_alt F false (chars p) = Some (r, []))
    as (F & r & HF); [|by eapply parses_of_alt].
  induction p as [|c p IH]; [by exists 1, Eps|].
  destruct IH as (F & r & HF); [intros c' Hc'; apply Hp; by right|].
  destruct (word_term c) as (Hterm & Hc1 & Hc2 & _); [apply Hp; by left|].
  change (chars (String c p)) with ([c] ++ chars p).
  destruct (parse_alt_prepend_ex [c] (chars p) (Chr c) r) as [F' HF'];
    [by exists 1 | by eexists _, _ | | by exists F | by eexists _, _].
  destruct p as [|c' p]; [done|].
  destruct (word_term c') as (_ & _ & _ & Hq); [|done].
  apply Hp. right. by left.
Qed.

Lemma split_dot_words query :
  (forall c, In c (chars query) -> is_word c = true \/ c = "."%char) ->
  Forall (fun p => forall c, In c (chars p) -> is_word c = true)
    (split_dot query).
Proof.
  induction query as [|c q IH]; intros Hq; cbn [split_dot].
  - by repeat constructor.
  - assert (Hrest : Forall (fun p => forall c, In c (chars p) ->
                              is_word c = true) (split_dot q)).
    { apply IH. intros c' Hc'. apply Hq. by right. }
    destruct (Ascii.eqb_spec c ".") as [->|Hne].
    + constructor; [by intros c' []|done].
    + destruct (split_dot q) as [|p ps]; constructor.
      * intros c' [<-|[]]. destruct (Hq c) as [?|?]; [by left|done|done].
      * constructor.
      * apply Forall_cons in Hrest as [Hp _].
        intros c' [<-|Hc']; [|by apply Hp].
        destruct (Hq c) as [?|?]; [by left|done|done].
      * by apply Forall_cons in Hrest as [_ ?].
Qed.

(** The parts of a dotted name of words are patterns. *)
Lemma api_name_parts_parse query :
  (forall c, In c (chars query) -> is_word c = true \/ c = "."%char) ->
  Forall parses (split_dot query).
Proof.
  intros H. eapply Forall_impl; [by apply split_dot_words|].
  intros p. apply word_parses.
Qed.

(** When the parts of a query are patterns, [compileQuery] returns. *)
Lemma compileQuery_returns (query : string) (shared : gmap string RegExp) :
  CompilerProps.interned shared ->
  Forall parses (split_dot query) ->
  exists compiledPatterns shared',
    compileQuery query shared = (Normal compiledPatterns, shared') /\
    map (map source) compiledPatterns = CompilerProps.spec_conditions query /\
    CompilerProps.interned shared'.
Proof.
  intros Hs Hps.
  pose proof (CompilerProps.compileQuery_sources query shared Hs) as H.
  destruct (compileQuery query shared) as [[conds|e] shared'].
  - exists conds, shared'. by destruct H.
  - destruct H as (src & Hin & _ & Hnone).
    destruct (spec_conditions_parse query src Hps Hin) as [r Hr]. congruence.
Qed.

(** For a dotted name of words, [compileQuery] returns. *)
Corollary compileQuery_api_name (query : string)
    (shared : gmap string RegExp) :
  CompilerProps.interned shared ->
  (forall c, In c (chars query) -> is_word c = true \/ c = "."%char) ->
  exists compiledPatterns shared',
    compileQuery query shared = (Normal compiledPatterns, shared') /\
    map (map source) compiledPatterns = CompilerProps.spec_conditions query.
Proof.
  intros Hs Hq.
  destruct (compileQuery_returns query shared Hs) as (c & sh & H1 & H2 & _);
    [by apply api_name_parts_parse | by exists c, sh].
Qed.

(** *** The conditions, in the words of the specification *)

(** The lexical fragments, as the specification spells them. *)
Definition stated_DOT : string := "\s*\??\.\s*".
Definition stated_BEFORE : string := "(?:[!%&()*+,\-./:;<=>?[^{|}~\n]|^)\s*".
Definition stated_AFTER : string := "\s*(?:[%&()*+,\-./:;<=>?[\]^{|}\n]|$)".
Definition stated_RHS_AFTER : string :=
  "\s*(?:[),;\]{}:]|\|\||\?\?|$|\n(?=\s*[A-Za-z_$]))".
Definition stated_HOST_DOT : string := "(?:chrome|browser)" +:+ stated_DOT.

(** [ALIAS_DOT], with the identifier fragment that the code has (C8). *)
Definition stated_ALIAS_DOT : string := "[A-Za-z_$][0-9]*" +:+ stated_DOT.

(** [any(B)], [dot(B)] and [rhs(B)]. *)
Definition stated_any (B : string) : string :=
  stated_BEFORE +:+ "(?:" +:+ B +:+ ")" +:+ stated_AFTER.
Definition stated_dot (B : string) : string :=
  stated_ALIAS_DOT +:+ "(?:" +:+ B +:+ ")" +:+ stated_AFTER.
Definition stated_rhs (B : string) : string :=
  stated_BEFORE +:+ "(?:" +:+ B +:+ ")" +:+ stated_RHS_AFTER.

(** The query [p1.p2. ... .pn] of the parts [p1], ..., [pn]. *)
Fixpoint dotted (ps : list string) : string :=
  match ps with
  | [] => ""
  | [p] => p
  | p :: ps' => p +:+ "." +:+ dotted ps'
  end.

(** Parts, each in a group, joined by [DOT]. *)
Fixpoint grouped (ps : list string) : string :=
  match ps with
  | [] => ""
  | [p] => "(?:" +:+ p +:+ ")"
  | p :: ps' => "(?:" +:+ p +:+ ")" +:+ stated_DOT +:+ grouped ps'
  end.

(** [BODY(k..m)]: the parts [k] to [m], counted from 1. *)
Definition stated_BODY (ps : list string) (k m : nat) : string :=
  grouped (firstn (m + 1 - k) (skipn (k - 1) ps)).

(** [hasRoot]: the first part is [browser] or [chrome]. *)
Definition stated_hasRoot (ps : list string) : bool :=
  match ps with
  | p1 :: _ => String.eqb p1 "browser" || String.eqb p1 "chrome"
  | [] => false
  end.

(** The conditions for the parts [ps], in their order.  In the second one
    the code has the first part in its group, [HOST_DOT (?:p1)]. *)
Definition stated_conditions (ps : list string) : list (list string) :=
  let n := length ps in
  [[stated_any (stated_BODY ps 1 n)]]
  ++ (if (2 <=? n) && negb (stated_hasRoot ps)
      then [[stated_rhs (stated_HOST_DOT +:+ stated_BODY ps 1 1);
             stated_dot (stated_BODY ps 2 n)]]
      else [])
  ++ (if 3 <=? n
      then [[stated_rhs (stated_BODY ps 1 2); stated_dot (stated_BODY ps 3 n)]]
      else [])
  ++ (if 4 <=? n
      then [[stated_rhs (stated_BODY ps 1 3); stated_dot (stated_BODY ps 4 n)]]
      else []).

(** Parts without dots are what [split] finds in their dotted query. *)
Lemma split_dot_dotted (ps : list string) :
  ps <> [] ->
  Forall (fun p => CompilerProps.no_dot p = true) ps ->
  split_dot (dotted ps) = ps.
Proof.
  intros Hne Hps. induction Hps as [|p ps Hp Hps IH]; [done|]. clear Hne.
  assert (Hrest : forall q, split_dot (p +:+ "." +:+ dotted q)
                            = p :: split_dot (dotted q)).
  { intros q. induction p as [|c p IHp]; [done|].
    cbn [CompilerProps.no_dot] in Hp.
    apply andb_true_iff in Hp as [Hc Hp]. apply negb_true_iff in Hc.
    change (String c p +:+ "." +:+ dotted q)
      with (String c (p +:+ "." +:+ dotted q)).
    cbn [split_dot]. by rewrite Hc, (IHp Hp). }
  destruct ps as [|p' ps].
  - cbn [dotted]. clear IH Hrest.
    induction p as [|c p IHp]; [done|].
    cbn [CompilerProps.no_dot] in Hp.
    apply andb_true_iff in Hp as [Hc Hp]. apply negb_true_iff in Hc.
    cbn [split_dot]. by rewrite Hc, (IHp Hp).
  - change (dotted (p :: p' :: ps)) with (p +:+ "." +:+ dotted (p' :: ps)).
    by rewrite Hrest, IH.
Qed.

Lemma append_assoc (a b c : string) : (a +:+ b) +:+ c = a +:+ b +:+ c.
Proof.
  induction a as [|x a IH]; [done|].
  change (String x ((a +:+ b) +:+ c) = String x (a +:+ b +:+ c)).
  by rewrite IH.
Qed.

Lemma grouped_join (ps : list string) :
  grouped ps = join RE_DOT (map CompilerProps.wrap ps).
Proof.
  induction ps as [|p [|p' ps] IH]; [done | done |].
  change (grouped (p :: p' :: ps))
    with ("(?:" +:+ p +:+ ")" +:+ stated_DOT +:+ grouped (p' :: ps)).
  rewrite IH. cbn [map join]. unfold CompilerProps.wrap.
  by rewrite !append_assoc.
Qed.

Lemma stated_BODY_code ps k m : stated_BODY ps k m = CompilerProps.BODY ps k m.
Proof.
  unfold stated_BODY, CompilerProps.BODY. by rewrite grouped_join.
Qed.

Lemma stated_conditions_code (ps : list string) :
  split_dot (dotted ps) = ps ->
  CompilerProps.spec_conditions (dotted ps) = stated_conditions ps.
Proof.
  intros Hps. unfold CompilerProps.spec_conditions, stated_conditions.
  rewrite Hps, !stated_BODY_code.
  assert (Hfirst :
    bool_decide (2 <= length ps /\ hd "" ps <> "browser"
                 /\ hd "" ps <> "chrome")
    = (2 <=? length ps) && negb (stated_hasRoot ps)).
  { apply eq_true_iff_eq.
    rewrite bool_decide_eq_true, andb_true_iff, negb_true_iff, Nat.leb_le.
    destruct ps as [|p1 ps']; [simpl; split; [lia | by intros [? _]]|].
    cbn [stated_hasRoot hd]. rewrite orb_false_iff.
    destruct (String.eqb_spec p1 "browser"), (String.eqb_spec p1 "chrome");
      split; intros (? & ?); repeat split; try done; try tauto;
      try (destruct H0; congruence). }
  rewrite Hfirst.
  assert (Hhost : CompilerProps.HOST_DOT +:+ CompilerProps.wrap (hd "" ps)
                  = stated_HOST_DOT +:+ CompilerProps.BODY ps 1 1
                  \/ length ps < 2).
  { destruct ps as [|p1 ps']; [right; simpl; lia|]. left.
    unfold CompilerProps.BODY. change (1 + 1 - 1) with 1.
    change (drop (1 - 1) (p1 :: ps')) with (p1 :: ps'). done. }
  assert (Hk : forall k, (k <=? length ps) = bool_decide (k <= length ps)).
  { intros k. apply eq_true_iff_eq.
    by rewrite Nat.leb_le, bool_decide_eq_true. }
  rewrite <- !Hk.
  destruct Hhost as [-> | Hlt]; [done|].
  destruct (Nat.leb_spec 2 (length ps)) as [?|_]; [lia|]. done.
Qed.

(** C2, as stated, fails: the parts of a query go into the pattern
    sources as they are, so a part that is not a pattern can make
    [new RegExp] throw.  For the two parts [a)] and [(b] the source of the
    literal condition happens to be a pattern and is interned; the source
    of the first-part-aliased condition has a closing parenthesis that no
    group opens, and [compileQuery] throws and returns no condition. *)
Lemma compileQuery_throws_on_a_part :
  let ps := ["a)"; "(b"] in
  dotted ps = "a).(b" /\
  length ps = 2 /\ stated_hasRoot ps = false /\
  compileQuery "a).(b" ∅
  = (Throw (SyntaxError (stated_rhs (stated_HOST_DOT +:+ stated_BODY ps 1 1))),
     {[ stated_any (stated_BODY ps 1 2)
        := mkRegExp (stated_any (stated_BODY ps 1 2)) ]}) /\
  stated_rhs (stated_HOST_DOT +:+ stated_BODY ps 1 1)
  = "(?:[!%&()*+,\-./:;<=>?[^{|}~\n]|^)\s*(?:(?:chrome|browser)\s*\??\.\s*(?:a)))\s*(?:[),;\]{}:]|\|\||\?\?|$|\n(?=\s*[A-Za-z_$]))".
Proof.
  split; [done|]. split; [done|]. split; [done|]. split; [|done].
  unfold compileQuery, bind, ret, re_any, re_rhs, re_dot, newRegExp.
  cbn [split_dot map length Nat.leb andb negb startsWith orb].
  rewrite lookup_empty.
  replace (new_RegExp _) with
    (Normal (mkRegExp (stated_any (stated_BODY ["a)"; "(b"] 1 2))))
    by (vm_compute; reflexivity).
  cbn -[new_RegExp]. rewrite lookup_insert_ne by done. rewrite lookup_empty.
  replace (new_RegExp _) with
    (@Throw RegExp
       (SyntaxError
          (stated_rhs (stated_HOST_DOT +:+ stated_BODY ["a)"; "(b"] 1 1))))
    by (vm_compute; reflexivity).
  by rewrite insert_empty.
Qed.

(** C2, amended.  For every query [p1.p2. ... .pn] whose parts are patterns
    without dots, [compileQuery] returns, and it returns RegExps of exactly
    these sources, in this order: the literal condition; the
    first-part-aliased condition exactly when there are two parts or more
    and the first is neither [browser] nor [chrome]; the two-part-aliased
    condition exactly when there are three parts or more; the
    three-part-aliased condition exactly when there are four parts or more;
    and nothing else. *)
Theorem compileQuery_conditions (ps : list string)
    (shared : gmap string RegExp) :
  ps <> [] ->
  Forall (fun p => CompilerProps.no_dot p = true) ps ->
  Forall parses ps ->
  CompilerProps.interned shared ->
  exists compiledPatterns shared',
    compileQuery (dotted ps) shared = (Normal compiledPatterns, shared') /\
    map (map source) compiledPatterns = stated_conditions ps.
Proof.
  intros Hne Hdots Hps Hs.
  pose proof (split_dot_dotted ps Hne Hdots) as Hsplit.
  destruct (compileQuery_returns (dotted ps) shared Hs)
    as (conds & shared' & Hc & Hsrc & _); [by rewrite Hsplit|].
  exists conds, shared'. split; [done|].
  by rewrite Hsrc, stated_conditions_code.
Qed.

Lemma compileQuery_conditions_witness :
  exists compiledPatterns shared',
    compileQuery "storage.sync.onChanged.addListener" ∅
    = (Normal compiledPatterns, shared') /\
    map (map source) compiledPatterns
    = [["(?:[!%&()*+,\-./:;<=>?[^{|}~\n]|^)\s*(?:(?:storage)\s*\??\.\s*(?:sync)\s*\??\.\s*(?:onChanged)\s*\??\.\s*(?:addListener))\s*(?:[%&()*+,\-./:;<=>?[\]^{|}\n]|$)"];
       ["(?:[!%&()*+,\-./:;<=>?[^{|}~\n]|^)\s*(?:(?:chrome|browser)\s*\??\.\s*(?:storage))\s*(?:[),;\]{}:]|\|\||\?\?|$|\n(?=\s*[A-Za-z_$]))";
        "[A-Za-z_$][0-9]*\s*\??\.\s*(?:(?:sync)\s*\??\.\s*(?:onChanged)\s*\??\.\s*(?:addListener))\s*(?:[%&()*+,\-./:;<=>?[\]^{|}\n]|$)"];
       ["(?:[!%&()*+,\-./:;<=>?[^{|}~\n]|^)\s*(?:(?:storage)\s*\??\.\s*(?:sync))\s*(?:[),;\]{}:]|\|\||\?\?|$|\n(?=\s*[A-Za-z_$]))";
        "[A-Za-z_$][0-9]*\s*\??\.\s*(?:(?:onChanged)\s*\??\.\s*(?:addListener))\s*(?:[%&()*+,\-./:;<=>?[\]^{|}\n]|$)"];
       ["(?:[!%&()*+,\-./:;<=>?[^{|}~\n]|^)\s*(?:(?:storage)\s*\??\.\s*(?:sync)\s*\??\.\s*(?:onChanged))\s*(?:[),;\]{}:]|\|\||\?\?|$|\n(?=\s*[A-Za-z_$]))";
        "[A-Za-z_$][0-9]*\s*\??\.\s*(?:(?:addListener))\s*(?:[%&()*+,\-./:;<=>?[\]^{|}\n]|$)"]].
Proof.
  apply (compileQuery_conditions
           ["storage"; "sync"; "onChanged"; "addListener"] ∅).
  - done.
  - by repeat constructor.
  - repeat constructor; by eexists.
  - intros s re H. rewrite lookup_empty in H. discriminate.
Defined.

End PatternProps.

(** ** The fuel of the matcher is never used up *)

Module FuelProps.
Import Re.

Section Steps.
Variable len : nat.
Variable step : nat -> list nat.
Hypothesis step_bound :
  forall j e, In e (step j) -> j <= e /\ e <= Nat.max j len.

Lemma iter_star_bound fuel g : forall i e,
  In e (iter_star fuel step g i) -> i <= e /\ e <= Nat.max i len.
Proof.
  induction fuel as [|f IH]; intros i e; simpl.
  - intros [<-|[]]. lia.
  - assert (Hmore : In e
      (flat_map (iter_star f step g) (List.filter (fun e => i <? e) (step i)))
      -> i <= e /\ e <= Nat.max i len).
    { intros H. apply in_flat_map in H as (k & Hk & He).
      apply filter_In in Hk as [Hk Hlt]. apply Nat.ltb_lt in Hlt.
      apply step_bound in Hk. apply IH in He. lia. }
    destruct g.
    + intros H. apply in_app_iff in H as [H|[<-|[]]]; [by apply Hmore | lia].
    + intros [<-|H]; [lia | by apply Hmore].
Qed.

Lemma filter_beyond i :
  len <= i -> List.filter (fun e => i <? e) (step i) = [].
Proof.
  intros Hi.
  assert (H : forall e, In e (step i) -> (i <? e) = false).
  { intros e He. apply step_bound in He. apply Nat.ltb_ge. lia. }
  induction (step i) as [|e l IH]; [done|]. simpl.
  rewrite (H e) by (by left). apply IH. intros e' He'. apply H. by right.
Qed.

Lemma flat_map_eq_in (f g : nat -> list nat) l :
  (forall x, In x l -> f x = g x) -> flat_map f l = flat_map g l.
Proof.
  induction l as [|x l IH]; intros H; simpl; [done|].
  rewrite (H x) by (by left). f_equal. apply IH. intros y Hy. apply H.
  by right.
Qed.

(** Two amounts of fuel that both cover the rest of the text give the same
    iterations. *)
Lemma iter_star_fuel g f1 : forall f2 i,
  len - i <= f1 -> len - i <= f2 ->
  iter_star f1 step g i = iter_star f2 step g i.
Proof.
  induction f1 as [|f1 IH]; intros f2 i H1 H2.
  - destruct f2 as [|f2]; [done|]. simpl.
    rewrite filter_beyond by lia. simpl. by destruct g.
  - destruct f2 as [|f2]; simpl.
    + rewrite filter_beyond by lia. simpl. by destruct g.
    + rewrite (flat_map_eq_in (iter_star f1 step g) (iter_star f2 step g));
        [done|].
      intros e He. apply filter_In in He as [_ Hlt].
      apply Nat.ltb_lt in Hlt. apply IH; lia.
Qed.
End Steps.

Lemma one_bound p s i e :
  In e (one p s i) -> i <= e /\ e <= Nat.max i (length s).
Proof.
  unfold one. destruct (nth_error s i) as [c|] eqn:E; [|done].
  destruct (p c); [|done]. intros [<-|[]].
  assert (i < length s) by (apply nth_error_Some; congruence). lia.
Qed.

(** A match ends at or after its start and inside the text. *)
Lemma ends_bound r s : forall i e,
  In e (ends r s i) -> i <= e /\ e <= Nat.max i (length s).
Proof.
  induction r as [|c|d|neg items|r1 IH1 r2 IH2|r1 IH1 r2 IH2|g r IH|g r IH
                  |g r IH| | |ahead neg r IH]; intros i e; cbn [ends].
  - intros [<-|[]]. lia.
  - apply one_bound.
  - apply one_bound.
  - apply one_bound.
  - intros H. apply in_flat_map in H as (k & Hk & He).
    apply IH1 in Hk. apply IH2 in He. lia.
  - intros H. apply in_app_iff in H as [H|H]; [by apply IH1 | by apply IH2].
  - by apply iter_star_bound.
  - intros H. apply in_flat_map in H as (k & Hk & He).
    apply IH in Hk. apply (iter_star_bound (length s) _ IH) in He. lia.
  - assert (Hf : In e (List.filter (fun e => i <? e) (ends r s i)) ->
                 i <= e /\ e <= Nat.max i (length s)).
    { intros H. apply filter_In in H as [H _]. by apply IH. }
    destruct g.
    + intros H. apply in_app_iff in H as [H|[<-|[]]]; [by apply Hf | lia].
    + intros [<-|H]; [lia | by apply Hf].
  - destruct (i =? 0); [|done]. intros [<-|[]]. lia.
  - destruct (i =? length s); [|done]. intros [<-|[]]. lia.
  - destruct ahead.
    + destruct (xorb _ _); [|done]. intros [<-|[]]. lia.
    + destruct (xorb _ _); [|done]. intros [<-|[]]. lia.
Qed.

(** The iterations of a quantifier do not depend on the fuel, from the
    fuel that [ends] gives on: the fuel is never used up. *)
Theorem star_fuel_enough r s g i fuel :
  S (length s) <= fuel ->
  iter_star fuel (ends r s) g i = ends (Star g r) s i.
Proof.
  intros H. cbn [ends].
  apply (iter_star_fuel (length s) (ends r s) (ends_bound r s)); lia.
Qed.

Lemma exec_from_bound r s n : forall i p e,
  exec_from r s n i = Some (p, e) ->
  i <= p /\ p < i + n /\ p <= e /\ e <= Nat.max p (length s).
Proof.
  induction n as [|n IH]; intros i p e; simpl; [done|].
  destruct (ends r s i) as [|e0 l] eqn:E.
  - intros H. apply IH in H. lia.
  - intros [= <- <-].
    assert (In e0 (ends r s i)) as H by (rewrite E; by left).
    apply ends_bound in H. lia.
Qed.

(** Cutting out all matches does not depend on the fuel either. *)
Lemma remove_loop_fuel r s f1 : forall f2 lastIndex next,
  S (length s) - lastIndex <= f1 -> S (length s) - lastIndex <= f2 ->
  remove_loop f1 r s lastIndex next = remove_loop f2 r s lastIndex next.
Proof.
  induction f1 as [|f1 IH]; intros f2 li next H1 H2.
  - destruct f2 as [|f2]; [done|]. simpl. unfold exec.
    by replace (S (length s) - li) with 0 by lia.
  - destruct f2 as [|f2]; simpl.
    + unfold exec. by replace (S (length s) - li) with 0 by lia.
    + destruct (exec r s li) as [[p e]|] eqn:E; [|done].
      f_equal. unfold exec in E. apply exec_from_bound in E.
      assert (li < (if e =? p then S e else e)) as Hlt.
      { destruct (Nat.eqb_spec e p); lia. }
      apply IH; lia.
Qed.

Theorem remove_all_fuel_enough r s fuel :
  S (S (length s)) <= fuel ->
  remove_loop fuel r s 0 0 = remove_all r s.
Proof. intros H. unfold remove_all. apply remove_loop_fuel; lia. Qed.

End FuelProps.

(** ** The compiler over a sequence of queries *)

Module CompilerRunProps.
Import Re Finder.

(** [sharedRegExps] is well formed: under every source it holds the RegExp
    of that source, and that source is a pattern. *)
Definition wfS (shared : gmap string RegExp) : Prop :=
  forall s re,
    shared !! s = Some re -> source re = s /\ is_Some (parse false s).

(** [p] is the object that [sharedRegExps] holds for the source of [p]. *)
Definition registered (shared : gmap string RegExp) (p : RegExp) : Prop :=
  shared !! source p = Some p.

Lemma wfS_empty : wfS ∅.
Proof. intros s re H. by rewrite lookup_empty in H. Qed.

Lemma wfS_interned shared : wfS shared -> CompilerProps.interned shared.
Proof. intros Hs s re H. by destruct (Hs s re H). Qed.

Lemma newRegExp_run src shared :
  wfS shared ->
  match newRegExp src shared with
  | (Normal re, shared') =>
      wfS shared' /\ shared' !! src = Some re /\ registered shared' re /\
      (forall s r, shared !! s = Some r -> shared' !! s = Some r)
  | (Throw e, shared') =>
      shared' = shared /\ e = SyntaxError src /\ parse false src = None
  end.
Proof.
  intros Hs. unfold newRegExp, new_RegExp.
  destruct (shared !! src) as [re|] eqn:Hre.
  - destruct (Hs _ _ Hre) as [Hsrc _]. unfold registered.
    rewrite Hsrc. done.
  - destruct (parse false src) eqn:Hp; [|done].
    split; [|split; [|split]].
    + intros s re. rewrite lookup_insert. case_decide as Hd.
      * intros [= <-]. subst s. simpl. split; [done|]. by eexists.
      * apply Hs.
    + by rewrite lookup_insert_eq.
    + unfold registered. simpl. by rewrite lookup_insert_eq.
    + intros s0 r0 Hsr. rewrite lookup_insert_ne; [done|]. intros ->. congruence.
Qed.

(** A source that is registered is handed out again and nothing changes; a
    source that is not a pattern is rejected again. *)
Lemma newRegExp_hit src shared re :
  shared !! src = Some re -> newRegExp src shared = (Normal re, shared).
Proof. intros H. unfold newRegExp. by rewrite H. Qed.

Lemma newRegExp_miss src shared :
  wfS shared -> parse false src = None ->
  newRegExp src shared = (Throw (SyntaxError src), shared).
Proof.
  intros Hs Hp. unfold newRegExp, new_RegExp.
  destruct (shared !! src) as [re|] eqn:Hre.
  - destruct (Hs _ _ Hre) as [_ [r Hr]]. congruence.
  - by rewrite Hp.
Qed.

Ltac run_step :=
  match goal with
  | Hs : wfS ?sh |- context [newRegExp ?src ?sh] =>
      let H := fresh "H" in
      pose proof (newRegExp_run src sh Hs) as H;
      destruct (newRegExp src sh) as [[?re|?e] ?sh'];
      [destruct H as (? & ? & ? & ?) | destruct H as (-> & -> & ?)];
      cbn [fst snd]
  end.

(** Give every source a name, so that two sources are compared by name. *)
Ltac name_sources :=
  repeat match goal with
         | |- context [newRegExp ?src _] =>
             assert_fails (is_var src);
             let x := fresh "src" in
             set (x := src) in *; clearbody x
         end.

Ltac split_tests :=
  repeat match goal with
         | |- context [if ?b then _ else _] => destruct b
         end.

(** [compileQuery] keeps [sharedRegExps] well formed, also when it throws,
    never replaces an object that is registered, and returns registered
    objects only, at least one in every condition. *)
Lemma compileQuery_run (query : string) (shared : gmap string RegExp) :
  wfS shared ->
  wfS (compileQuery query shared).2 /\
  (forall s r, shared !! s = Some r ->
               (compileQuery query shared).2 !! s = Some r) /\
  forall compiledPatterns,
    (compileQuery query shared).1 = Normal compiledPatterns ->
    Forall (Forall (registered (compileQuery query shared).2))
      compiledPatterns /\
    Forall (fun ps => ps <> []) compiledPatterns.
Proof.
  intros Hs. unfold compileQuery, re_any, re_rhs, re_dot, bind, ret.
  split_tests; repeat run_step;
    (split; [assumption|]);
    (split; [eauto 10|]);
    intros cps [= <-];
    (split; repeat constructor; unfold registered in *; eauto 10; congruence).
Qed.

(** Once [compileQuery] has run, running it again on a well-formed map
    that holds at least what the first run left gives the same outcome and
    changes nothing. *)
Lemma compileQuery_stable (query : string) (shared : gmap string RegExp) :
  wfS shared ->
  forall shared',
    wfS shared' ->
    (forall s r, (compileQuery query shared).2 !! s = Some r ->
                 shared' !! s = Some r) ->
    compileQuery query shared' = ((compileQuery query shared).1, shared').
Proof.
  intros Hs. unfold compileQuery, re_any, re_rhs, re_dot, bind, ret.
  name_sources.
  split_tests; repeat run_step; intros shX HsX Hext;
    repeat match goal with
           | |- context [newRegExp ?src shX] =>
               first
                 [ rewrite (newRegExp_miss src shX) by assumption
                 | erewrite (newRegExp_hit src shX) by eauto 10 ]
           end;
    reflexivity.
Qed.


(** The union of two well-formed maps is well formed. *)
Lemma wfS_union sh1 sh2 : wfS sh1 -> wfS sh2 -> wfS (sh1 ∪ sh2).
Proof.
  intros H1 H2 s re H. apply lookup_union_Some_raw in H as [H|[_ H]].
  - by apply H1.
  - by apply H2.
Qed.

Lemma wfS_agree sh1 sh2 s r1 r2 :
  wfS sh1 -> wfS sh2 -> sh1 !! s = Some r1 -> sh2 !! s = Some r2 -> r1 = r2.
Proof.
  intros H1 H2 Hr1 Hr2.
  destruct (H1 _ _ Hr1) as [E1 _]. destruct (H2 _ _ Hr2) as [E2 _].
  destruct r1, r2. simpl in *. congruence.
Qed.

(** The outcome of [compileQuery] does not depend on what [sharedRegExps]
    holds. *)
Lemma compileQuery_outcome (query : string) (sh1 sh2 : gmap string RegExp) :
  wfS sh1 -> wfS sh2 ->
  (compileQuery query sh1).1 = (compileQuery query sh2).1.
Proof.
  intros H1 H2.
  destruct (compileQuery_run query sh1 H1) as (W1 & _ & _).
  destruct (compileQuery_run query sh2 H2) as (W2 & _ & _).
  set (s1 := (compileQuery query sh1).2) in *.
  set (s2 := (compileQuery query sh2).2) in *.
  assert (Hl : forall s r, s1 !! s = Some r -> (s1 ∪ s2) !! s = Some r).
  { intros s r Hr. by apply lookup_union_Some_l. }
  assert (Hr : forall s r, s2 !! s = Some r -> (s1 ∪ s2) !! s = Some r).
  { intros s r Hr. destruct (s1 !! s) as [r1|] eqn:Hs1.
    - rewrite (wfS_agree s1 s2 s r1 r W1 W2 Hs1 Hr) in Hs1.
      by apply lookup_union_Some_l.
    - by rewrite lookup_union_r. }
  pose proof (compileQuery_stable query sh1 H1 (s1 ∪ s2)
                (wfS_union _ _ W1 W2) Hl) as E1.
  pose proof (compileQuery_stable query sh2 H2 (s1 ∪ s2)
                (wfS_union _ _ W1 W2) Hr) as E2.
  rewrite E1 in E2. by injection E2.
Qed.

(** *** The compiler after some queries *)

Definition entries (qc : QueryCompiler) :=
  qc_queriesAndPatterns qc.

(** What holds of a compiler: [sharedRegExps] is well formed; every query
    has one entry; the entry of a query is what [compileQuery] makes of the
    query on its own; and the patterns of the entries are registered. *)
Record wfC (qc : QueryCompiler) : Prop := {
  wf_shared : wfS (qc_sharedRegExps qc);
  wf_keys : NoDup (map fst (entries qc));
  wf_entries : forall q conds,
    (q, conds) ∈ entries qc ->
    (compileQuery q ∅).1 = Normal conds /\
    Forall (Forall (registered (qc_sharedRegExps qc))) conds /\
    Forall (fun ps => ps <> []) conds
}.

Lemma wfC_new : wfC new_QueryCompiler.
Proof.
  split; simpl.
  - apply wfS_empty.
  - constructor.
  - intros q conds H. by apply elem_of_nil in H.
Qed.

Lemma Map_has_true {V} (k : string) (m : list (string * V)) :
  Map_has k m = true <-> k ∈ map fst m.
Proof.
  unfold Map_has. induction m as [|[k' v] m IH]; simpl.
  - split; [done|]. intros H. by apply elem_of_nil in H.
  - rewrite elem_of_cons. case_decide as Hd; [by split; [left|]|].
    rewrite IH. split; [by right | by intros [?|?]].
Qed.

(** Setting a key that the Map does not have puts the entry at the end. *)
Lemma Map_set_new {V} (k : string) (v : V) (m : list (string * V)) :
  Map_has k m = false -> Map_set k v m = m ++ [(k, v)].
Proof.
  unfold Map_has. induction m as [|[k' v'] m IH]; simpl; [done|].
  case_decide as Hd; [done|]. intros H. by rewrite IH.
Qed.

Lemma Map_has_set {V} (k : string) (v : V) (m : list (string * V)) :
  Map_has k (Map_set k v m) = true.
Proof.
  unfold Map_has. induction m as [|[k' v'] m IH]; simpl.
  - by case_decide.
  - case_decide as Hd; simpl; [by case_decide|]. by case_decide.
Qed.

Lemma registered_weaken (sh sh' : gmap string RegExp) conds :
  (forall s r, sh !! s = Some r -> sh' !! s = Some r) ->
  Forall (Forall (registered sh)) conds ->
  Forall (Forall (registered sh')) conds.
Proof.
  intros Hext H. eapply Forall_impl; [exact H|]. intros ps Hps.
  eapply Forall_impl; [exact Hps|]. intros p Hp. by apply Hext.
Qed.

Lemma addQuery_wfC (q : string) (qc : QueryCompiler) :
  wfC qc -> wfC (addQuery q qc).1.2.
Proof.
  intros [Hs Hk He]. unfold addQuery.
  destruct (Map_has q (qc_queriesAndPatterns qc)) eqn:Hhas; [by split|].
  destruct (compileQuery_run q _ Hs) as (Hs' & Hext & Hreg).
  pose proof (compileQuery_outcome q (qc_sharedRegExps qc) ∅ Hs wfS_empty)
    as Hout.
  destruct (compileQuery q (qc_sharedRegExps qc)) as [[conds|e] sh'];
    cbn [fst snd] in *.
  - rewrite Map_set_new by done. split; cbn [qc_sharedRegExps entries
      qc_queriesAndPatterns].
    + done.
    + rewrite map_app. apply NoDup_app. split; [done|].
      split; [|apply NoDup_singleton].
      intros x Hx Hx'. apply list_elem_of_singleton in Hx'. simpl in Hx'.
      subst x. apply Map_has_true in Hx. congruence.
    + intros q' conds' Hin. apply elem_of_app in Hin as [Hin|Hin].
      * destruct (He q' conds' Hin) as (H1 & H2 & H3).
        split; [done|]. split; [|done]. by eapply registered_weaken.
      * apply list_elem_of_singleton in Hin. injection Hin as -> ->.
        destruct (Hreg conds eq_refl) as [H2 H3]. by rewrite <- Hout.
  - split; cbn [qc_sharedRegExps entries qc_queriesAndPatterns]; [done|done|].
    intros q' conds' Hin. destruct (He q' conds' Hin) as (H1 & H2 & H3).
    split; [done|]. split; [|done]. by eapply registered_weaken.
Qed.

Lemma compiler_of_snoc qs q :
  MatcherProps.compiler_of (qs ++ [q])
  = (addQuery q (MatcherProps.compiler_of qs)).1.2.
Proof. unfold MatcherProps.compiler_of. by rewrite fold_left_app. Qed.

Lemma compiler_of_wfC qs : wfC (MatcherProps.compiler_of qs).
Proof.
  induction qs as [|q qs IH] using rev_ind; [apply wfC_new|].
  rewrite compiler_of_snoc. by apply addQuery_wfC.
Qed.

(** The keys after [addQuery]. *)
Lemma addQuery_keys (q : string) (qc : QueryCompiler) (x : string) :
  wfC qc ->
  x ∈ map fst (entries (addQuery q qc).1.2) <->
  x ∈ map fst (entries qc) \/
  (x = q /\ exists conds, (compileQuery q ∅).1 = Normal conds).
Proof.
  intros [Hs Hk He]. unfold addQuery.
  destruct (Map_has q (qc_queriesAndPatterns qc)) eqn:Hhas.
  - simpl. split; [by left|]. intros [H|[-> _]]; [done|].
    by apply Map_has_true.
  - pose proof (compileQuery_outcome q (qc_sharedRegExps qc) ∅ Hs wfS_empty)
      as Hout.
    destruct (compileQuery q (qc_sharedRegExps qc)) as [[conds|e] sh'];
      cbn [fst snd entries qc_queriesAndPatterns] in *.
    + rewrite Map_set_new by done. rewrite map_app, elem_of_app. simpl.
      rewrite list_elem_of_singleton. split; (intros [H|H]; [by left|right]).
      * split; [done|]. by exists conds.
      * by destruct H.
    + split; [by left|]. intros [H|[_ [conds Hc]]]; [done|]. congruence.
Qed.

(** X1: the Map of a compiler.  After any sequence of [addQuery] calls on a
    new compiler, the keys of [queriesAndPatterns] are, each once, the
    queries of the sequence that [compileQuery] accepts, and the entry of a
    query is what [compileQuery] makes of that query for a compiler that
    has seen nothing else. *)
Theorem queriesAndPatterns_after_addQuery :
  forall queries : list string,
    let qc := MatcherProps.compiler_of queries in
    NoDup (map fst (qc_queriesAndPatterns qc)) /\
    (forall q,
       q ∈ map fst (qc_queriesAndPatterns qc) <->
       q ∈ queries /\ exists conds, (compileQuery q ∅).1 = Normal conds) /\
    (forall q conds,
       (q, conds) ∈ qc_queriesAndPatterns qc ->
       (compileQuery q ∅).1 = Normal conds).
Proof.
  intros queries qc. pose proof (compiler_of_wfC queries) as Hwf.
  split; [apply Hwf|]. split; [|by apply Hwf].
  subst qc. induction queries as [|q0 qs IH] using rev_ind.
  - intros q. simpl. split.
    + intros H. by apply elem_of_nil in H.
    + intros [H _]. by apply elem_of_nil in H.
  - intros q. rewrite compiler_of_snoc.
    rewrite (addQuery_keys q0 _ q (compiler_of_wfC qs)).
    fold (entries (MatcherProps.compiler_of qs)).
    unfold entries. rewrite (IH (compiler_of_wfC qs)).
    rewrite elem_of_app, list_elem_of_singleton.
    split.
    + intros [[H1 H2]|[-> H2]]; (split; [|done]); [by left | by right].
    + intros [[H| -> ] H2]; [left | right]; done.
Qed.


(** X2: [addQuery] twice.  Whatever a compiler has been given before, adding
    a query a second time leaves the compiler as the first call left it:
    after a call that returned, the second call returns with the warning
    and nothing else; after a call that threw, the second call throws the
    same error. *)
Theorem addQuery_again :
  forall (queries : list string) (q : string),
    let qc := MatcherProps.compiler_of queries in
    let first := addQuery q qc in
    let second := addQuery q first.1.2 in
    second.1.2 = first.1.2 /\
    (first.1.1 = Normal tt ->
     second = (Normal tt, first.1.2, ["Ignoring duplicate query: " +:+ q])) /\
    (forall e, first.1.1 = Throw e -> second = (Throw e, first.1.2, [])).
Proof.
  intros queries q qc first second. subst second.
  pose proof (compiler_of_wfC queries) as [Hs _ _]. fold qc in Hs.
  destruct (Map_has q (qc_queriesAndPatterns qc)) eqn:Hhas.
  - assert (Hf : first
                 = (Normal tt, qc, ["Ignoring duplicate query: " +:+ q])).
    { unfold first, addQuery. by rewrite Hhas. }
    rewrite Hf. cbn [fst snd]. unfold addQuery. rewrite Hhas.
    split; [reflexivity|]. split; [reflexivity|]. discriminate.
  - destruct (compileQuery_run q _ Hs) as (Hs' & _ & _).
    pose proof (compileQuery_stable q _ Hs _ Hs' (fun s r H => H)) as Hst.
    destruct (compileQuery q (qc_sharedRegExps qc)) as [[conds|e] sh'] eqn:Hc;
      cbn [fst snd] in Hs', Hst.
    + assert (Hf : first
                   = (Normal tt,
                      mkQueryCompiler
                        (Map_set q conds (qc_queriesAndPatterns qc)) sh',
                      [])).
      { unfold first, addQuery. by rewrite Hhas, Hc. }
      rewrite Hf. cbn [fst snd]. unfold addQuery.
      cbn [qc_queriesAndPatterns]. rewrite Map_has_set.
      split; [reflexivity|]. split; [reflexivity|]. discriminate.
    + assert (Hf : first
                   = (Throw e,
                      mkQueryCompiler (qc_queriesAndPatterns qc) sh', [])).
      { unfold first, addQuery. by rewrite Hhas, Hc. }
      rewrite Hf. cbn [fst snd]. unfold addQuery.
      cbn [qc_queriesAndPatterns qc_sharedRegExps]. rewrite Hhas, Hst.
      split; [reflexivity|]. split; [discriminate|]. by intros e' [= <-].
Qed.

End CompilerRunProps.

(** ** The matcher over a sequence of calls *)

Module MatcherRunProps.
Import Re Finder MatcherProps.

(** *** Calling [findMatches] again *)

(** When every query that the texts match is in the matched set already,
    the loop of [findMatches] leaves the matched set as it is. *)
Lemma findMatches_loop_fixed texts entries : forall matched results,
  results_ok texts results ->
  (forall q conds,
     (q, conds) ∈ entries ->
     q ∈ matched \/ query_matches texts conds = false) ->
  (findMatches_loop texts entries matched results).1 = matched.
Proof.
  induction entries as [|[query conds] entries IH];
    intros matched results Hok Hall; simpl; [done|].
  assert (Hrest : forall q c,
    (q, c) ∈ entries -> q ∈ matched \/ query_matches texts c = false).
  { intros q c Hin. apply Hall. by right. }
  destruct (Set_has query matched) eqn:Hhas; [by apply IH|].
  destruct (some_condition_ok texts conds results Hok) as [H1 H2].
  destruct (Hall query conds) as [Hin|Hno]; [by left| |].
  - apply Set_has_true in Hin. congruence.
  - destruct (some_condition texts conds results) as [[] results'];
      simpl in *; [congruence|]. by apply IH.
Qed.

(** X4: [findMatches] twice.  A second [findMatches()] with no [addSource]
    in between changes nothing. *)
Theorem findMatches_idempotent :
  forall qm : QueryMatcher, findMatches (findMatches qm) = findMatches qm.
Proof.
  intros qm. unfold findMatches. cbn [queriesAndPatterns matchedQueries
    sourceTexts]. f_equal.
  apply findMatches_loop_fixed; [apply results_ok_empty|].
  intros q conds Hin. destruct (query_matches (sourceTexts qm) conds) eqn:E.
  - left. apply findMatches_loop_spec; [apply results_ok_empty|].
    right. by exists conds.
  - by right.
Qed.

(** *** The matched set of a matcher *)

Lemma matcher_calls_snoc cs c qm :
  do_calls (cs ++ [c]) qm = do_call c (do_calls cs qm).
Proof. unfold do_calls. by rewrite fold_left_app. Qed.

Lemma do_calls_queriesAndPatterns cs : forall qm,
  queriesAndPatterns (do_calls cs qm) = queriesAndPatterns qm.
Proof.
  induction cs as [|c cs IH]; intros qm; simpl; [done|].
  rewrite IH. by destruct c.
Qed.

Lemma Set_add_NoDup x (s : list string) : NoDup s -> NoDup (Set_add x s).
Proof.
  intros Hs. unfold Set_add. destruct (Set_has x s) eqn:E; [done|].
  apply NoDup_app. split; [done|]. split; [|apply NoDup_singleton].
  intros y Hy Hy'. apply list_elem_of_singleton in Hy' as ->.
  apply Set_has_true in Hy. congruence.
Qed.

Lemma findMatches_loop_NoDup texts entries : forall matched results,
  NoDup matched ->
  NoDup (findMatches_loop texts entries matched results).1.
Proof.
  induction entries as [|[query conds] entries IH];
    intros matched results Hnd; simpl; [done|].
  destruct (Set_has query matched); [by apply IH|].
  destruct (some_condition texts conds results) as [[] results'];
    apply IH; [by apply Set_add_NoDup | done].
Qed.

(** The queries that the texts of [T] match. *)
Definition matched_by (qp : list (string * list (list RegExp)))
    (T : list string) (q : string) : Prop :=
  exists conds ps,
    (q, conds) ∈ qp /\ ps ∈ conds /\
    forall p, p ∈ ps -> exists t, t ∈ T /\ RegExp_test p t = true.

Lemma matched_by_mono qp T T' q :
  (forall t, t ∈ T -> t ∈ T') -> matched_by qp T q -> matched_by qp T' q.
Proof.
  intros Hsub (conds & ps & H1 & H2 & H3). exists conds, ps.
  split; [done|]. split; [done|]. intros p Hp.
  destruct (H3 p Hp) as (t & Ht & Htest). exists t. by split; [apply Hsub|].
Qed.

(** Every query in the matched set of a matcher is matched by the texts the
    matcher holds. *)
Lemma do_calls_matched_by qp cs : forall q,
  q ∈ matchedQueries (do_calls cs (new_QueryMatcher qp)) ->
  matched_by qp (sourceTexts (do_calls cs (new_QueryMatcher qp))) q.
Proof.
  induction cs as [|c cs IH] using rev_ind; intros q Hq.
  - by apply elem_of_nil in Hq.
  - rewrite matcher_calls_snoc in *. destruct c as [t|]; simpl in *.
    + eapply matched_by_mono; [|by apply IH].
      intros x Hx. rewrite !elem_of_Set_add. by left; left.
    + apply findMatches_elem in Hq as [Hq|Hq]; [by apply IH|].
      by rewrite do_calls_queriesAndPatterns in Hq.
Qed.

(** X5: what a matcher reports.  After any calls of [addSource] and
    [findMatches] on a new matcher, the matched set holds no query twice
    and only keys of [queriesAndPatterns]. *)
Theorem matchedQueries_are_queries :
  forall (queriesAndPatterns : list (string * list (list RegExp)))
         (cs : list call),
    let qm := do_calls cs (new_QueryMatcher queriesAndPatterns) in
    NoDup (getMatchedResults qm) /\
    forall q, q ∈ getMatchedResults qm -> q ∈ map fst queriesAndPatterns.
Proof.
  intros qp cs qm. unfold getMatchedResults. split.
  - subst qm. induction cs as [|c cs IH] using rev_ind; [constructor|].
    rewrite matcher_calls_snoc. destruct c as [t|]; simpl; [done|].
    by apply findMatches_loop_NoDup.
  - intros q Hq. apply do_calls_matched_by in Hq as (conds & ps & Hin & _).
    apply list_elem_of_In, in_map_iff. exists (q, conds).
    split; [done|]. by apply list_elem_of_In.
Qed.

(** X6: incremental use.  Calling [findMatches] at the end of any sequence
    of [addSource] and [findMatches] calls reports the same queries as adding
    all the texts to a new matcher first and calling [findMatches] once. *)
Theorem findMatches_incremental :
  forall (queriesAndPatterns : list (string * list (list RegExp)))
         (cs : list call) (q : string),
    q ∈ getMatchedResults
          (do_calls (cs ++ [FindMatches])
             (new_QueryMatcher queriesAndPatterns)) <->
    q ∈ getMatchedResults
          (findMatches
             (fold_left (fun qm t => addSource t qm) (added cs)
                (new_QueryMatcher queriesAndPatterns))).
Proof.
  intros qp cs q. unfold getMatchedResults.
  rewrite matcher_calls_snoc. cbn [do_call].
  assert (Hbatch : forall ts qm,
    fold_left (fun qm t => addSource t qm) ts qm
    = do_calls (map AddSource ts) qm).
  { induction ts as [|t ts IH]; intros qm; simpl; [done|]. apply IH. }
  assert (Hadded : forall ts, added (map AddSource ts) = ts).
  { induction ts as [|t ts IH]; simpl; [done|]. by rewrite IH. }
  rewrite Hbatch, !findMatches_elem, !do_calls_queriesAndPatterns.
  fold (matched_by qp (sourceTexts (do_calls cs (new_QueryMatcher qp))) q).
  fold (matched_by qp
          (sourceTexts (do_calls (map AddSource (added cs))
                          (new_QueryMatcher qp))) q).
  assert (Hsame : forall x,
    x ∈ sourceTexts (do_calls cs (new_QueryMatcher qp)) <->
    x ∈ sourceTexts (do_calls (map AddSource (added cs))
                       (new_QueryMatcher qp))).
  { intros x. by rewrite !do_calls_sourceTexts, Hadded. }
  split.
  - intros [H|H].
    + right. eapply matched_by_mono; [apply Hsame|].
      by apply do_calls_matched_by.
    + right. eapply matched_by_mono; [apply Hsame | done].
  - intros [H|H].
    + right. eapply matched_by_mono; [apply Hsame|].
      by apply do_calls_matched_by.
    + right. eapply matched_by_mono; [apply Hsame | done].
Qed.

(** *** The order of the results *)

Lemma Set_add_new x (s : list string) : x ∉ s -> Set_add x s = s ++ [x].
Proof.
  intros H. unfold Set_add. destruct (Set_has x s) eqn:E; [|done].
  by apply Set_has_true in E.
Qed.

Lemma findMatches_loop_order texts entries : forall matched results,
  results_ok texts results ->
  NoDup (map fst entries) ->
  (forall q, q ∈ map fst entries -> q ∉ matched) ->
  (findMatches_loop texts entries matched results).1
  = matched
    ++ map fst (List.filter (fun e => query_matches texts e.2) entries).
Proof.
  induction entries as [|[query conds] entries IH];
    intros matched results Hok Hnd Hnew; simpl.
  - by rewrite app_nil_r.
  - apply NoDup_cons in Hnd as [Hq Hnd].
    assert (Hfresh : query ∉ matched) by (apply Hnew; by left).
    destruct (Set_has query matched) eqn:Hhas;
      [by apply Set_has_true in Hhas|].
    destruct (some_condition_ok texts conds results Hok) as [H1 H2].
    destruct (some_condition texts conds results) as [[] results'];
      simpl in *; rewrite <- H1.
    + rewrite IH; [|done|done|].
      * rewrite Set_add_new by done. by rewrite <- app_assoc.
      * intros q Hin. rewrite elem_of_Set_add. intros [H| ->]; [|done].
        revert H. apply Hnew. by right.
    + apply IH; [done|done|]. intros q Hin. apply Hnew. by right.
Qed.

Lemma fold_addSource_fields ts : forall qm,
  queriesAndPatterns (fold_left (fun qm t => addSource t qm) ts qm)
  = queriesAndPatterns qm /\
  matchedQueries (fold_left (fun qm t => addSource t qm) ts qm)
  = matchedQueries qm.
Proof.
  induction ts as [|t ts IH]; intros qm; simpl; [done|].
  by destruct (IH (addSource t qm)) as [-> ->].
Qed.

Lemma results_for_filter (queries texts : list string) :
  results_for queries texts
  = map fst
      (List.filter
         (fun e =>
            query_matches
              (sourceTexts
                 (fold_left (fun qm t => addSource t qm) texts
                    (newQueryMatcher (compiler_of queries)))) e.2)
         (qc_queriesAndPatterns (compiler_of queries))).
Proof.
  unfold results_for, getMatchedResults, findMatches.
  cbn [matchedQueries].
  destruct (fold_addSource_fields texts (newQueryMatcher (compiler_of queries)))
    as [-> ->].
  cbn [newQueryMatcher new_QueryMatcher queriesAndPatterns matchedQueries].
  rewrite findMatches_loop_order; [done|apply results_ok_empty| |].
  - apply (CompilerRunProps.wf_keys _ (CompilerRunProps.compiler_of_wfC _)).
  - intros q _. apply not_elem_of_nil.
Qed.


(** X8: no text.  A matcher that was given no text reports nothing,
    whatever the queries: every condition of a compiled query has a pattern
    to satisfy. *)
Theorem no_source_no_match :
  forall queries : list string, results_for queries [] = [].
Proof.
  intros queries. rewrite results_for_filter. simpl.
  pose proof (CompilerRunProps.compiler_of_wfC queries) as [_ _ He].
  unfold CompilerRunProps.entries in He.
  induction (qc_queriesAndPatterns (compiler_of queries)) as [|[q conds] l IH];
    [done|].
  simpl. destruct (He q conds) as (_ & _ & Hne); [by left|].
  assert (Hno : query_matches [] conds = false).
  { unfold query_matches. clear -Hne.
    induction Hne as [|ps conds Hps _ IH]; [done|]. simpl.
    rewrite IH, orb_false_r. by destruct ps. }
  rewrite Hno. apply IH. intros q' c' Hin. apply He. by right.
Qed.

End MatcherRunProps.

(** ** Texts without comments *)

Module CommentProps.
Import Re Finder.

(** Does [s] hold the code unit [a] directly followed by [b]? *)
Fixpoint has_pair (a b : ascii) (s : list ascii) : bool :=
  match s with
  | c :: s' =>
      match s' with
      | d :: _ => (Ascii.eqb a c && Ascii.eqb b d) || has_pair a b s'
      | [] => false
      end
  | [] => false
  end.

Lemma has_pair_false a b s : forall i,
  has_pair a b s = false ->
  nth_error s i = Some a -> nth_error s (S i) = Some b -> False.
Proof.
  induction s as [|c s IH]; intros i Hno Ha Hb; [by destruct i|].
  simpl in Hno. destruct s as [|d s']; [by destruct i|].
  apply orb_false_iff in Hno as [Hhere Hrest].
  destruct i as [|i]; simpl in Ha, Hb.
  - injection Ha as ->. injection Hb as ->.
    by rewrite !Ascii.eqb_refl in Hhere.
  - by apply (IH i).
Qed.

(** Every match of [r] starts with the code units [a] and [b]. *)
Definition starts_with_pair (a b : ascii) (r : regex) : Prop :=
  forall s j e,
    In e (ends r s j) ->
    nth_error s j = Some a /\ nth_error s (S j) = Some b.

Lemma starts_pair a b r : starts_with_pair a b (Seq (Chr a) (Seq (Chr b) r)).
Proof.
  intros s j e Hin.
  apply PatternProps.In_ends_Seq in Hin as (k1 & H1 & Hin).
  apply PatternProps.In_ends_Seq in Hin as (k2 & H2 & _).
  apply PatternProps.In_one in H1 as (c1 & Hc1 & E1 & ->).
  apply PatternProps.In_one in H2 as (c2 & Hc2 & E2 & _).
  apply Ascii.eqb_eq in E1 as <-. by apply Ascii.eqb_eq in E2 as <-.
Qed.

Lemma line_comment_starts : starts_with_pair "/" "/" line_comment.
Proof.
  intros s j e Hin. unfold line_comment in Hin.
  apply PatternProps.In_ends_Seq in Hin as (k & Hk & Hin).
  assert (k = j) as ->.
  { cbn [ends] in Hk. destruct (xorb _ _); [|done]. by destruct Hk. }
  by apply starts_pair in Hin.
Qed.

Lemma block_comment_starts : starts_with_pair "/" "*" block_comment.
Proof. apply starts_pair. Qed.

(** A pattern whose matches start with a pair has no match in a text
    without that pair. *)
Lemma no_pair_no_match a b r s :
  starts_with_pair a b r -> has_pair a b s = false ->
  forall lastIndex, exec r s lastIndex = None.
Proof.
  intros Hr Hno lastIndex. unfold exec.
  destruct (exec_from r s _ lastIndex) as [p|] eqn:E; [|done].
  exfalso.
  assert (Hex : exists p,
    exec_from r s (S (length s) - lastIndex) lastIndex = Some p)
    by (by exists p).
  apply PatternProps.exec_from_Some in Hex as (j & e & _ & Hin).
  destruct (Hr s j e Hin) as [Ha Hb].
  by apply (has_pair_false a b s j).
Qed.

Lemma remove_all_no_match r s :
  exec r s 0 = None -> remove_all r s = s.
Proof. intros H. unfold remove_all. simpl. by rewrite H. Qed.

Lemma stripComments_unmarked (t : string) :
  has_pair "/" "/" (list_ascii_of_string t) = false ->
  has_pair "/" "*" (list_ascii_of_string t) = false ->
  stripComments t = t.
Proof.
  intros Hline Hblock. unfold stripComments.
  rewrite (remove_all_no_match line_comment)
    by (by apply (no_pair_no_match "/" "/"); [apply line_comment_starts|]).
  rewrite (remove_all_no_match block_comment)
    by (by apply (no_pair_no_match "/" "*"); [apply block_comment_starts|]).
  apply string_of_list_ascii_of_string.
Qed.

(** X9: texts without comments.  A text in which no slash is followed by a
    slash or a star is its own copy without comments, so [addSource]
    stores it once. *)
Theorem addSource_without_comment (t : string) (qm : QueryMatcher) :
  has_pair "/" "/" (list_ascii_of_string t) = false ->
  has_pair "/" "*" (list_ascii_of_string t) = false ->
  stripComments t = t /\
  sourceTexts (addSource t qm) = Set_add t (sourceTexts qm).
Proof.
  intros Hline Hblock.
  pose proof (stripComments_unmarked t Hline Hblock) as E.
  split; [done|]. unfold addSource. cbn [sourceTexts]. rewrite E.
  apply MatcherProps.Set_add_has. apply MatcherProps.elem_of_Set_add. by right.
Qed.

Lemma addSource_without_comment_witness :
  let t := "x = a / b; browser.tabs.create({url: 'about:blank'})" in
  let qm := new_QueryMatcher [] in
  stripComments t = t /\
  sourceTexts (addSource t qm) = Set_add t (sourceTexts qm).
Proof.
  apply (addSource_without_comment
           "x = a / b; browser.tabs.create({url: 'about:blank'})"
           (new_QueryMatcher []));
    vm_compute; reflexivity.
Defined.

End CommentProps.

(** ** The copy without comments *)

Module StripProps.
Import Re Finder MatcherProps CommentProps.

(** *** The copy without comments, in plain words *)

Definition LF : ascii := ascii_of_nat 10.
Definition CR : ascii := ascii_of_nat 13.

(** A line ends at a line feed or a carriage return. *)
Definition ends_line (c : ascii) : bool := Ascii.eqb c LF || Ascii.eqb c CR.

(** Does [s] start with the code units [a] and [b]? *)
Definition starts_with (a b : ascii) (s : list ascii) : bool :=
  match s with
  | c :: d :: _ => Ascii.eqb c a && Ascii.eqb d b
  | _ => false
  end.

Definition is_colon (prev : option ascii) : bool :=
  match prev with
  | Some c => Ascii.eqb c ":"
  | None => false
  end.

(** The text without its line comments: two slashes that do not follow a
    colon start a comment, which runs up to the end of the line (the code
    unit that ends the line stays).  [prev] is the code unit in front of
    [s] in the text, and [in_comment] tells whether [s] starts inside a
    comment. *)
Fixpoint without_line_comments (in_comment : bool) (prev : option ascii)
    (s : list ascii) : list ascii :=
  match s with
  | [] => []
  | c :: s' =>
      if in_comment then
        if ends_line c then c :: without_line_comments false (Some c) s'
        else without_line_comments true (Some c) s'
      else if starts_with "/" "/" s && negb (is_colon prev) then
        without_line_comments true (Some c) s'
      else c :: without_line_comments false (Some c) s'
  end.

(** Where the scan of a text for block comments is: in code, behind the
    slash that opens a comment, inside a comment, or behind the star that
    closes one. *)
Inductive block_mode := Code | Opening | Inside | Closing.

(** The text without its block comments: a slash and a star start a
    comment if a star and a slash follow somewhere behind them, and the
    comment runs up to the first such pair, across lines. *)
Fixpoint without_block_comments (mode : block_mode) (s : list ascii)
  : list ascii :=
  match s with
  | [] => []
  | c :: s' =>
      match mode with
      | Code =>
          if starts_with "/" "*" s && has_pair "*" "/" (tl s')
          then without_block_comments Opening s'
          else c :: without_block_comments Code s'
      | Opening => without_block_comments Inside s'
      | Inside =>
          if starts_with "*" "/" s
          then without_block_comments Closing s'
          else without_block_comments Inside s'
      | Closing => without_block_comments Code s'
      end
  end.

(** The copy of a text without comments: the line comments go first, then
    the block comments of what is left. *)
Definition uncommented (t : string) : string :=
  string_of_list_ascii
    (without_block_comments Code
       (without_line_comments false None (list_ascii_of_string t))).

(** *** Cutting out the matches of a pattern, one position at a time *)

Lemma nth_error_app_length {A} (pre suf : list A) :
  nth_error (pre ++ suf) (length pre) = hd_error suf.
Proof.
  induction pre as [|a pre IH]; [by destruct suf | done].
Qed.

Lemma snoc_app {A} (pre : list A) c suf :
  pre ++ c :: suf = (pre ++ [c]) ++ suf.
Proof. by rewrite <- app_assoc. Qed.

(** No match at the position: the code unit there stays. *)
Lemma remove_loop_keep r pre c suf fuel :
  ends r (pre ++ c :: suf) (length pre) = [] ->
  remove_loop (S fuel) r (pre ++ c :: suf) (length pre) (length pre)
  = c :: remove_loop (S fuel) r (pre ++ c :: suf)
           (S (length pre)) (S (length pre)).
Proof.
  intros Hno. set (s := pre ++ c :: suf) in *. set (i := length pre) in *.
  assert (Hlen : length s = i + S (length suf)).
  { unfold s, i. rewrite length_app. simpl. lia. }
  assert (Hexec : exec r s i = exec r s (S i)).
  { unfold exec. replace (S (length s) - i) with (S (S (length s) - S i))
      by lia. simpl. by rewrite Hno. }
  assert (Hdrop : drop i s = c :: drop (S i) s).
  { unfold s, i. rewrite drop_app_length.
    replace (S (length pre)) with (length (pre ++ [c]))
      by (rewrite length_app; simpl; lia).
    by rewrite (snoc_app pre c suf), drop_app_length. }
  cbn [remove_loop]. rewrite Hexec.
  destruct (exec r s (S i)) as [[p e]|] eqn:E; [|done].
  unfold exec in E. apply FuelProps.exec_from_bound in E.
  rewrite Hdrop. replace (p - i) with (S (p - S i)) by lia. done.
Qed.

(** A match at the position that is not empty: the search goes on behind
    it. *)
Lemma remove_loop_cut r s i e l fuel :
  i <= length s -> ends r s i = e :: l -> e <> i ->
  remove_loop (S fuel) r s i i = remove_loop fuel r s e e.
Proof.
  intros Hi He Hne. cbn [remove_loop]. unfold exec.
  replace (S (length s) - i) with (S (length s - i)) by lia.
  simpl. rewrite He, Nat.sub_diag. simpl.
  by destruct (Nat.eqb_spec e i).
Qed.

(** Nothing matches at the end of the text. *)
Lemma remove_loop_end r s fuel :
  ends r s (length s) = [] ->
  remove_loop fuel r s (length s) (length s) = [].
Proof.
  intros Hno. destruct fuel as [|f]; simpl; [by rewrite drop_all|].
  unfold exec. replace (S (length s) - length s) with 1 by lia.
  simpl. by rewrite Hno, drop_all.
Qed.

(** *** The repetitions in the two comment patterns *)

(** The number of leading code units of [x] that satisfy [p]. *)
Fixpoint stretch (p : ascii -> bool) (x : list ascii) : nat :=
  match x with
  | c :: x' => if p c then S (stretch p x') else 0
  | [] => 0
  end.

Lemma stretch_le p x : stretch p x <= length x.
Proof. induction x as [|c x IH]; simpl; [lia|]. destruct (p c); lia. Qed.

Lemma app_cons_length {A} (pre : list A) c :
  S (length pre) = length (pre ++ [c]).
Proof. rewrite length_app. simpl. lia. Qed.

(** A greedy repetition of one code unit goes as far as it can. *)
Lemma iter_star_greedy p x : forall pre fuel,
  stretch p x <= fuel ->
  iter_star fuel (one p (pre ++ x)) true (length pre)
  = rev (seq (length pre) (S (stretch p x))).
Proof.
  induction x as [|c x IH]; intros pre fuel Hfuel.
  - destruct fuel as [|f]; [done|]. cbn [iter_star stretch].
    unfold one at 2. rewrite nth_error_app_length. done.
  - cbn [stretch] in *. destruct fuel as [|f].
    + destruct (p c); [lia | done].
    + cbn [iter_star]. unfold one at 2. rewrite nth_error_app_length.
      cbn [hd_error]. destruct (p c) eqn:Hc; [|done].
      cbn [List.filter]. rewrite (proj2 (Nat.ltb_lt _ _)) by lia.
      cbn [flat_map]. rewrite app_nil_r.
      rewrite (snoc_app pre c x), (app_cons_length pre c).
      rewrite IH by lia.
      rewrite <- (app_cons_length pre c).
      change (seq (length pre) (S (S (stretch p x))))
        with (length pre :: seq (S (length pre)) (S (stretch p x))).
      done.
Qed.

(** A lazy repetition of any code unit tries every end, the nearest
    first. *)
Lemma iter_star_lazy p x : forall pre fuel,
  (forall c, p c = true) -> length x <= fuel ->
  iter_star fuel (one p (pre ++ x)) false (length pre)
  = seq (length pre) (S (length x)).
Proof.
  induction x as [|c x IH]; intros pre fuel Hp Hfuel.
  - destruct fuel as [|f]; [done|]. cbn [iter_star].
    unfold one at 2. rewrite nth_error_app_length. done.
  - destruct fuel as [|f]; [simpl in Hfuel; lia|].
    cbn [iter_star]. unfold one at 2. rewrite nth_error_app_length.
    cbn [hd_error]. rewrite Hp. cbn [List.filter].
    rewrite (proj2 (Nat.ltb_lt _ _)) by lia.
    cbn [flat_map]. rewrite app_nil_r.
    rewrite (snoc_app pre c x), (app_cons_length pre c).
    rewrite IH by (done || (simpl in Hfuel; lia)).
    by rewrite <- (app_cons_length pre c).
Qed.

Lemma flat_map_Eps (s : list ascii) (l : list nat) :
  flat_map (ends Eps s) l = l.
Proof.
  induction l as [|a l IH]; [done|].
  cbn [flat_map ends app]. f_equal. exact IH.
Qed.

Lemma ends_Seq a b s i :
  ends (Seq a b) s i = flat_map (ends b s) (ends a s i).
Proof. done. Qed.

Lemma ends_Chr c pre suf :
  ends (Chr c) (pre ++ suf) (length pre)
  = match suf with
    | d :: _ => if Ascii.eqb d c then [S (length pre)] else []
    | [] => []
    end.
Proof.
  cbn [ends]. unfold one. rewrite nth_error_app_length.
  destruct suf as [|d suf]; [done|]. cbn [hd_error].
  by rewrite Ascii.eqb_sym.
Qed.

Lemma ends_Chr_end c s : ends (Chr c) s (length s) = [].
Proof. rewrite <- (app_nil_r s) at 1. apply (ends_Chr c s []). Qed.

Lemma flat_map_one {A B} (f : A -> list B) a : flat_map f [a] = f a.
Proof. cbn [flat_map]. by rewrite app_nil_r. Qed.

(** *** Line comments *)

(** The look-behind of the pattern: no colon in front. *)
Lemma not_after_colon pre suf :
  ends (Look false true (Seq (Chr ":") Eps)) (pre ++ suf) (length pre)
  = if is_colon (last pre) then [] else [length pre].
Proof.
  assert (H :
    existsb
      (fun j =>
         existsb (Nat.eqb (length pre))
           (flat_map (ends Eps (pre ++ suf))
              (one (Ascii.eqb ":") (pre ++ suf) j)))
      (seq 0 (S (length pre)))
    = is_colon (last pre)).
  { apply eq_true_iff_eq. rewrite existsb_exists. split.
    - intros (j & Hj & Hex). apply existsb_exists in Hex as (e & He & Heq).
      apply Nat.eqb_eq in Heq as <-. rewrite flat_map_Eps in He.
      apply PatternProps.In_one in He as (c & Hc & Hcolon & Hlen).
      destruct pre as [|a pre _] using rev_ind; [done|].
      rewrite length_app in Hlen. simpl in Hlen.
      assert (j = length pre) as -> by lia.
      rewrite <- app_assoc in Hc. rewrite nth_error_app_length in Hc.
      injection Hc as <-. rewrite last_snoc. simpl.
      by rewrite Ascii.eqb_sym.
    - intros Hcol. destruct pre as [|a pre _] using rev_ind; [done|].
      rewrite last_snoc in Hcol. simpl in Hcol.
      exists (length pre). split.
      + apply in_seq. rewrite length_app. simpl. lia.
      + apply existsb_exists. exists (S (length pre)). split.
        * rewrite flat_map_Eps. apply PatternProps.In_one. exists a.
          rewrite <- app_assoc, nth_error_app_length.
          split; [done|]. split; [by rewrite Ascii.eqb_sym | done].
        * rewrite length_app. simpl. apply Nat.eqb_eq. lia. }
  cbn [ends] in H |- *. rewrite H. by destruct (is_colon (last pre)).
Qed.

Definition in_line (c : ascii) : bool := false || negb (is_line_terminator c).

Lemma in_line_ends_line c : in_line c = negb (ends_line c).
Proof.
  unfold in_line, ends_line, is_line_terminator, code, LF, CR. simpl.
  f_equal.
  destruct (Ascii.eqb_spec c (ascii_of_nat 10)) as [->|H1]; [done|].
  destruct (Ascii.eqb_spec c (ascii_of_nat 13)) as [->|H2]; [done|].
  simpl. apply orb_false_iff. split; apply Nat.eqb_neq; intros Heq.
  - apply H1. by rewrite <- (ascii_nat_embedding c), Heq.
  - apply H2. by rewrite <- (ascii_nat_embedding c), Heq.
Qed.

(** The matches of the pattern for line comments at a position. *)
Lemma ends_line_comment pre suf :
  ends line_comment (pre ++ suf) (length pre)
  = if starts_with "/" "/" suf && negb (is_colon (last pre))
    then rev (seq (length pre + 2) (S (stretch in_line (drop 2 suf))))
    else [].
Proof.
  unfold line_comment. rewrite ends_Seq, not_after_colon.
  destruct (is_colon (last pre)); [by rewrite andb_false_r|].
  rewrite andb_true_r, flat_map_one, ends_Seq, ends_Chr.
  destruct suf as [|c [|d suf]]; [done| |].
  { cbn [starts_with]. destruct (Ascii.eqb c "/"); [|done].
    rewrite flat_map_one, (app_cons_length pre c).
    by rewrite ends_Seq, ends_Chr_end. }
  cbn [starts_with drop].
  destruct (Ascii.eqb c "/") eqn:Hc; [|done].
  rewrite flat_map_one, (snoc_app pre c (d :: suf)), (app_cons_length pre c).
  rewrite ends_Seq, ends_Chr.
  destruct (Ascii.eqb d "/") eqn:Hd; [|done].
  rewrite flat_map_one, (snoc_app (pre ++ [c]) d suf).
  rewrite (app_cons_length (pre ++ [c]) d).
  rewrite ends_Seq, flat_map_Eps.
  change (ends (Star true (Any false)) ?s ?i)
    with (iter_star (S (length s)) (one in_line s) true i).
  rewrite iter_star_greedy.
  - rewrite !length_app. cbn [length andb].
    by replace (length pre + 1 + 1) with (length pre + 2) by lia.
  - pose proof (stretch_le in_line suf). rewrite !length_app. lia.
Qed.

(** Inside a comment the scan drops the rest of the line. *)
Lemma skip_line_comment x : forall p q,
  without_line_comments true p x
  = without_line_comments false q (drop (stretch in_line x) x).
Proof.
  induction x as [|c x IH]; intros p q; [done|].
  cbn [without_line_comments stretch]. rewrite in_line_ends_line.
  destruct (ends_line c) eqn:Hc; cbn [negb drop].
  - cbn [without_line_comments].
    assert (starts_with "/" "/" (c :: x) = false) as ->; [|done].
    destruct x as [|d x]; [done|]. cbn [starts_with].
    destruct (Ascii.eqb_spec c "/") as [->|]; [|done].
    by vm_compute in Hc.
  - apply IH.
Qed.

Lemma line_comments_cut n : forall pre suf fuel,
  length suf <= n -> S (length suf) <= fuel ->
  remove_loop fuel line_comment (pre ++ suf) (length pre) (length pre)
  = without_line_comments false (last pre) suf.
Proof.
  induction n as [|n IH]; intros pre suf fuel Hn Hfuel.
  - destruct suf; [|simpl in Hn; lia]. rewrite app_nil_r.
    apply remove_loop_end.
    rewrite <- (app_nil_r pre) at 1. by rewrite ends_line_comment.
  - destruct suf as [|c suf].
    { rewrite app_nil_r. apply remove_loop_end.
      rewrite <- (app_nil_r pre) at 1. by rewrite ends_line_comment. }
    destruct fuel as [|fuel]; [lia|].
    pose proof (ends_line_comment pre (c :: suf)) as He.
    cbn [without_line_comments].
    destruct (starts_with "/" "/" (c :: suf) && negb (is_colon (last pre)))
      eqn:Hcond.
    + apply andb_true_iff in Hcond as [Hst _].
      destruct suf as [|d suf]; [done|]. cbn [starts_with] in Hst.
      apply andb_true_iff in Hst as [Hc Hd].
      apply Ascii.eqb_eq in Hc as ->. apply Ascii.eqb_eq in Hd as ->.
      cbn [drop] in He. rewrite drop_0 in He.
      set (r := stretch in_line suf) in *.
      pose proof (stretch_le in_line suf) as Hr. fold r in Hr.
      rewrite seq_S, rev_app_distr in He. cbn [rev app] in He.
      assert (Hi : length pre <= length (pre ++ "/"%char :: "/"%char :: suf))
        by (rewrite length_app; lia).
      rewrite (remove_loop_cut _ _ _ _ _ fuel Hi He) by lia.
      rewrite <- (take_drop r suf) at 1.
      replace (pre ++ "/"%char :: "/"%char :: take r suf ++ drop r suf)
        with ((pre ++ "/"%char :: "/"%char :: take r suf) ++ drop r suf)
        by (by rewrite <- app_assoc).
      replace (length pre + 2 + r)
        with (length (pre ++ "/"%char :: "/"%char :: take r suf))
        by (rewrite length_app; simpl; rewrite length_take; lia).
      rewrite IH; [| rewrite length_drop; simpl in Hn; lia
                   | rewrite length_drop; simpl in Hfuel; lia].
      cbn [without_line_comments]. change (ends_line "/") with false.
      cbv iota. symmetry. apply skip_line_comment.
    + rewrite remove_loop_keep by done. f_equal.
      rewrite (snoc_app pre c suf), (app_cons_length pre c).
      rewrite IH; [by rewrite last_snoc | simpl in Hn; lia
                  | simpl in Hfuel; lia].
Qed.

Lemma remove_all_line_comments s :
  remove_all line_comment s = without_line_comments false None s.
Proof.
  unfold remove_all.
  apply (line_comments_cut (length s) [] s); lia.
Qed.

(** *** Block comments *)

(** The ends of the block comments that start in front of [x], where [k]
    is the position of [x] in the text. *)
Fixpoint comment_ends (k : nat) (x : list ascii) : list nat :=
  match x with
  | [] => []
  | _ :: x' =>
      (if starts_with "*" "/" x then [k + 2] else [])
      ++ comment_ends (S k) x'
  end.

Lemma ends_close pre x :
  ends (Seq (Chr "*") (Seq (Chr "/") Eps)) (pre ++ x) (length pre)
  = if starts_with "*" "/" x then [length pre + 2] else [].
Proof.
  rewrite ends_Seq, ends_Chr.
  destruct x as [|c [|d x]]; [done| |].
  { cbn [starts_with]. destruct (Ascii.eqb c "*"); [|done].
    rewrite flat_map_one, (app_cons_length pre c).
    by rewrite ends_Seq, ends_Chr_end. }
  cbn [starts_with].
  destruct (Ascii.eqb c "*") eqn:Hc; [|done].
  rewrite flat_map_one, (snoc_app pre c (d :: x)), (app_cons_length pre c).
  rewrite ends_Seq, ends_Chr.
  destruct (Ascii.eqb d "/") eqn:Hd; [|done].
  rewrite flat_map_one, length_app. cbn [ends length andb].
  by replace (S (length pre + 1)) with (length pre + 2) by lia.
Qed.

Lemma flat_map_closes x : forall pre,
  flat_map (ends (Seq (Chr "*") (Seq (Chr "/") Eps)) (pre ++ x))
    (seq (length pre) (S (length x)))
  = comment_ends (length pre) x.
Proof.
  induction x as [|c x IH]; intros pre.
  - cbn [length seq flat_map comment_ends]. by rewrite ends_close.
  - change (seq (length pre) (S (length (c :: x))))
      with (length pre :: seq (S (length pre)) (S (length x))).
    cbn [flat_map comment_ends]. rewrite ends_close. f_equal.
    rewrite (snoc_app pre c x), (app_cons_length pre c). apply IH.
Qed.

Definition any_unit (c : ascii) : bool := true || negb (is_line_terminator c).

(** The matches of the pattern for block comments at a position. *)
Lemma ends_block_comment pre suf :
  ends block_comment (pre ++ suf) (length pre)
  = if starts_with "/" "*" suf
    then comment_ends (length pre + 2) (drop 2 suf)
    else [].
Proof.
  unfold block_comment. rewrite ends_Seq, ends_Chr.
  destruct suf as [|c [|d suf]]; [done| |].
  { cbn [starts_with]. destruct (Ascii.eqb c "/"); [|done].
    rewrite flat_map_one, (app_cons_length pre c).
    by rewrite ends_Seq, ends_Chr_end. }
  cbn [starts_with drop].
  destruct (Ascii.eqb c "/") eqn:Hc; [|done].
  rewrite flat_map_one, (snoc_app pre c (d :: suf)), (app_cons_length pre c).
  rewrite ends_Seq, ends_Chr.
  destruct (Ascii.eqb d "*") eqn:Hd; [|done].
  rewrite flat_map_one, (snoc_app (pre ++ [c]) d suf).
  rewrite (app_cons_length (pre ++ [c]) d).
  rewrite ends_Seq.
  change (ends (Star false (Any true)) ?s ?i)
    with (iter_star (S (length s)) (one any_unit s) false i).
  rewrite iter_star_lazy; [|done|rewrite !length_app; lia].
  rewrite flat_map_closes, !length_app. cbn [length andb].
  by replace (length pre + 1 + 1) with (length pre + 2) by lia.
Qed.

Lemma has_pair_cons x c :
  has_pair "*" "/" (c :: x)
  = starts_with "*" "/" (c :: x) || has_pair "*" "/" x.
Proof.
  destruct x as [|d x]; [done|]. cbn [has_pair starts_with].
  by rewrite (Ascii.eqb_sym "*"%char c), (Ascii.eqb_sym "/"%char d).
Qed.

Lemma comment_ends_nil x : forall k,
  has_pair "*" "/" x = false -> comment_ends k x = [].
Proof.
  induction x as [|c x IH]; intros k Hno; [done|].
  rewrite has_pair_cons in Hno. apply orb_false_iff in Hno as [H1 H2].
  cbn [comment_ends]. rewrite H1. by apply IH.
Qed.

(** Inside a comment the scan drops everything up to the first star and
    slash, which is where the first match ends. *)
Lemma skip_block_comment x : forall k,
  has_pair "*" "/" x = true ->
  exists j l,
    comment_ends k x = (k + j + 2) :: l /\ j + 2 <= length x /\
    without_block_comments Inside x
    = without_block_comments Code (drop (j + 2) x).
Proof.
  induction x as [|c x IH]; intros k Hp; [done|].
  rewrite has_pair_cons in Hp. cbn [comment_ends without_block_comments].
  destruct (starts_with "*" "/" (c :: x)) eqn:Hst.
  - exists 0, (comment_ends (S k) x). rewrite Nat.add_0_r.
    destruct x as [|d x]; [done|]. split; [done|]. split; [simpl; lia|].
    done.
  - simpl in Hp. destruct (IH (S k) Hp) as (j & l & Hc & Hlen & Hw).
    exists (S j), l. split; [|split].
    + rewrite Hc. simpl. f_equal. lia.
    + simpl. lia.
    + by rewrite Hw.
Qed.

Lemma block_comments_cut n : forall pre suf fuel,
  length suf <= n -> S (length suf) <= fuel ->
  remove_loop fuel block_comment (pre ++ suf) (length pre) (length pre)
  = without_block_comments Code suf.
Proof.
  induction n as [|n IH]; intros pre suf fuel Hn Hfuel.
  - destruct suf; [|simpl in Hn; lia]. rewrite app_nil_r.
    apply remove_loop_end.
    rewrite <- (app_nil_r pre) at 1. by rewrite ends_block_comment.
  - destruct suf as [|c suf].
    { rewrite app_nil_r. apply remove_loop_end.
      rewrite <- (app_nil_r pre) at 1. by rewrite ends_block_comment. }
    destruct fuel as [|fuel]; [lia|].
    pose proof (ends_block_comment pre (c :: suf)) as He.
    cbn [without_block_comments].
    destruct (starts_with "/" "*" (c :: suf)) eqn:Hst.
    + destruct suf as [|d suf]; [done|]. cbn [drop tl] in *.
      rewrite drop_0 in He.
      destruct (has_pair "*" "/" suf) eqn:Hp; cbn [andb].
      * destruct (skip_block_comment suf (length pre + 2) Hp)
          as (j & l & Hc & Hlen & Hw).
        rewrite Hc in He.
        assert (Hi : length pre <= length (pre ++ c :: d :: suf))
          by (rewrite length_app; lia).
        rewrite (remove_loop_cut _ _ _ _ _ fuel Hi He) by lia.
        rewrite <- (take_drop (j + 2) suf) at 1.
        replace (pre ++ c :: d :: take (j + 2) suf ++ drop (j + 2) suf)
          with ((pre ++ c :: d :: take (j + 2) suf) ++ drop (j + 2) suf)
          by (by rewrite <- app_assoc).
        replace (length pre + 2 + j + 2)
          with (length (pre ++ c :: d :: take (j + 2) suf))
          by (rewrite length_app; simpl; rewrite length_take; lia).
        rewrite IH; [| rewrite length_drop; simpl in Hn; lia
                     | rewrite length_drop; simpl in Hfuel; lia].
        cbn [without_block_comments]. by rewrite Hw.
      * rewrite comment_ends_nil in He by done.
        rewrite remove_loop_keep by done. f_equal.
        rewrite (snoc_app pre c (d :: suf)), (app_cons_length pre c).
        apply IH; simpl in Hn, Hfuel |- *; lia.
    + cbn [andb]. rewrite remove_loop_keep by done. f_equal.
      rewrite (snoc_app pre c suf), (app_cons_length pre c).
      apply IH; [simpl in Hn; lia | simpl in Hfuel; lia].
Qed.

Lemma remove_all_block_comments s :
  remove_all block_comment s = without_block_comments Code s.
Proof.
  unfold remove_all.
  apply (block_comments_cut (length s) [] s); lia.
Qed.

(** The copy that [addSource] makes with its two [replace] calls is the
    copy without comments. *)
Lemma stripComments_uncommented t : stripComments t = uncommented t.
Proof.
  unfold stripComments, uncommented.
  by rewrite remove_all_line_comments, remove_all_block_comments.
Qed.

(** A line comment, a block comment over two lines, an address, and a
    slash and a star that nothing closes. *)
Lemma uncommented_example :
  uncommented
    (String.concat (String LF "")
       ["a.b // c"; "d /* e"; "f */ g"; "http://h /* i"])
  = String.concat (String LF "") ["a.b "; "d  g"; "http://h /* i"].
Proof. vm_compute. reflexivity. Qed.

(** C1.  After [findMatches()], a query is in the matched set exactly when
    it was there before the call or it is a key of [queriesAndPatterns]
    whose compiled query has a condition all of whose patterns match one of
    the stored source texts each; and the stored texts of a matcher are,
    for every text handed to [addSource], that text and its copy without
    comments: the text without what runs from two slashes that do not
    follow a colon up to the end of the line, and then without what runs
    from a slash and a star up to the next star and slash. *)
Theorem findMatches_matched_iff :
  (forall (qm : QueryMatcher) (q : string),
     q ∈ matchedQueries (findMatches qm) <->
     q ∈ matchedQueries qm \/
     exists conds ps,
       (q, conds) ∈ queriesAndPatterns qm /\ ps ∈ conds /\
       forall p, p ∈ ps ->
         exists t, t ∈ sourceTexts qm /\ RegExp_test p t = true) /\
  (forall queriesAndPatterns (cs : list call) (x : string),
     x ∈ sourceTexts (do_calls cs (new_QueryMatcher queriesAndPatterns)) <->
     exists t, t ∈ added cs /\ (x = t \/ x = uncommented t)).
Proof.
  split; [apply findMatches_elem|].
  intros qp cs x. rewrite do_calls_sourceTexts. simpl.
  split.
  - intros [H|(t & Hin & H)]; [by apply elem_of_nil in H|].
    exists t. by rewrite <- stripComments_uncommented.
  - intros (t & Hin & H). right. exists t.
    by rewrite stripComments_uncommented.
Qed.

End StripProps.

(** ** The tasks of the worker pool *)

Module PoolRunProps.
Import Async PoolProps.

(** The state in the middle of [queryResultsForSourceTexts]: the promise
    is made and the task is queued. *)
Definition queued (sourceTexts : list string) (st : State) : State :=
  set_taskQueue
    (mkState (pool st) (threads st) (promises st ++ [Pending]))
    (taskQueue (pool st) ++ [mkTask (length (promises st)) sourceTexts]).

Lemma queryResultsForSourceTexts_queued texts st :
  (queryResultsForSourceTexts texts st).2
  = runNextTask_loop (taskQueue (pool (queued texts st))) (queued texts st).
Proof. done. Qed.

Lemma getFreeWorker_promises st :
  promises (getFreeWorker st).2 = promises st.
Proof.
  unfold getFreeWorker. destruct (idleWorkers (pool st)); [|done].
  by destruct (_ <? _)%Z.
Qed.

Lemma dispatch_promises w task st :
  promises (dispatch w task st) = promises st.
Proof. unfold dispatch. by destruct (threads st !! w). Qed.

Lemma runNextTask_loop_promises queue : forall st,
  promises (runNextTask_loop queue st) = promises st.
Proof.
  induction queue as [|task queue IH]; intros st; simpl; [done|].
  pose proof (getFreeWorker_promises st) as Hp.
  destruct (getFreeWorker st) as [[w|] st']; simpl in *; [|done].
  by rewrite IH, dispatch_promises.
Qed.

(** The state in the middle of the listener for ["message"]: the promise
    is settled and the worker is idle, and [_runNextTask] is still to be
    called. *)
Definition answered (w : nat)
    (data : list (string * list (list Finder.RegExp)))
    (r : nat) (result : list string) (rest : list (list string))
    (st : State) : State :=
  let p := pool st in
  mkState
    (mkPool (queriesAndPatterns p) (numThreads p) (workers p)
       (idleWorkers p ++ [w]) (taskQueue p))
    (<[w := mkWorker data (Some r) rest false]> (threads st))
    (settle r (Fulfilled result) (promises st)).

Lemma on_message_answered w result st st' :
  on_message w result st = Some st' ->
  exists data r msg rest,
    threads st !! w = Some (mkWorker data (Some r) (msg :: rest) false) /\
    st' = runNextTask_loop (taskQueue (pool st))
            (answered w data r result rest st).
Proof.
  unfold on_message. intros Hstep.
  destruct (threads st !! w) as [[data [r|] [|msg rest] []]|] eqn:Hw;
    try done.
  injection Hstep as <-. by exists data, r, msg, rest.
Qed.

Lemma on_error_Some w err st st' :
  on_error w err st = Some st' ->
  exists data r msgs,
    threads st !! w = Some (mkWorker data (Some r) msgs false) /\
    st' = mkState (pool st)
            (<[w := mkWorker data (Some r) msgs true]> (threads st))
            (settle r (Rejected err) (promises st)).
Proof.
  unfold on_error. intros Hstep.
  destruct (threads st !! w) as [[data [r|] msgs []]|] eqn:Hw; try done.
  injection Hstep as <-. by exists data, r, msgs.
Qed.

(** *** What worker.js does with a task *)

Definition not_a_constructor : Finder.error :=
  Finder.TypeError "QueryMatcher is not a constructor".

(** The module of the synchronous engine does not export [QueryMatcher],
    so the handler of worker.js throws on every message. *)
Lemma worker_onmessage_throws qp texts :
  worker_onmessage qp texts = Finder.Throw not_a_constructor.
Proof. done. Qed.

(** The turn of a worker is the end of its thread with that error. *)
Lemma worker_turn_error w st :
  worker_turn w st
  = match threads st !! w with
    | Some (mkWorker _ _ (_ :: _) _) => on_error w not_a_constructor st
    | _ => None
    end.
Proof.
  unfold worker_turn, on_error.
  by destruct (threads st !! w) as [[data [r|] [|msg rest] []]|].
Qed.

Lemma worker_turn_Some w st st' :
  worker_turn w st = Some st' -> on_error w not_a_constructor st = Some st'.
Proof.
  rewrite worker_turn_error.
  by destruct (threads st !! w) as [[data r [|msg rest] e]|].
Qed.

(** *** No worker is ever idle and no promise is ever fulfilled *)

Definition Silent (st : State) : Prop :=
  idleWorkers (pool st) = [] /\
  forall p value, promises st !! p <> Some (Fulfilled value).

Lemma getFreeWorker_idle st :
  idleWorkers (pool st) = [] -> idleWorkers (pool (getFreeWorker st).2) = [].
Proof.
  intros Hi. unfold getFreeWorker. rewrite Hi. by destruct (_ <? _)%Z.
Qed.

Lemma runNextTask_loop_idle queue : forall st,
  idleWorkers (pool st) = [] ->
  idleWorkers (pool (runNextTask_loop queue st)) = [].
Proof.
  induction queue as [|task queue IH]; intros st Hi; simpl; [done|].
  pose proof (getFreeWorker_idle st Hi) as Hi'.
  destruct (getFreeWorker st) as [[w|] st']; simpl in *; [|done].
  apply IH. by rewrite dispatch_pool.
Qed.

Lemma settle_not_fulfilled r err ps p value :
  (forall p value, ps !! p <> Some (Fulfilled value)) ->
  settle r (Rejected err) ps !! p <> Some (Fulfilled value).
Proof.
  intros H. unfold settle. destruct (ps !! r) as [[]|] eqn:Hr; try apply H.
  intros Hp. apply list_lookup_insert_Some in Hp as [(_ & ? & _)|[_ Hp]];
    [done | by apply H in Hp].
Qed.

Lemma on_error_Silent w err st st' :
  on_error w err st = Some st' -> Silent st -> Silent st'.
Proof.
  intros Hstep [Hi Hp].
  apply on_error_Some in Hstep as (data & r & msgs & _ & ->).
  split; [done|]. intros p value. by apply settle_not_fulfilled.
Qed.

Lemma step_Silent e st st' : step e st = Some st' -> Silent st -> Silent st'.
Proof.
  destruct e as [|texts| |w|w err|w]; unfold step; intros Hstep [Hi Hp].
  - injection Hstep as <-. split; [by apply getFreeWorker_idle|].
    by rewrite getFreeWorker_promises.
  - rewrite queryResultsForSourceTexts_queued in Hstep.
    injection Hstep as <-. split; [by apply runNextTask_loop_idle|].
    rewrite runNextTask_loop_promises. simpl. intros p value H.
    apply lookup_app_Some in H as [H|[_ H]]; [by apply Hp in H|].
    by destruct (p - length (promises st)) as [|[|k]].
  - by injection Hstep as <-.
  - apply worker_turn_Some in Hstep. by eapply on_error_Silent.
  - by eapply on_error_Silent.
  - by apply on_exit_Some in Hstep as (th & _ & _ & _ & ->).
Qed.

Lemma run_Silent es : forall st st',
  run es st = Some st' -> Silent st -> Silent st'.
Proof.
  induction es as [|e es IH]; intros st st' Hrun Hs; simpl in Hrun.
  - by injection Hrun as <-.
  - destruct (step e st) as [st1|] eqn:E; [|done].
    eapply IH; [done|]. by eapply step_Silent.
Qed.

Lemma reachable_Silent n qp st : reachable n qp st -> Silent st.
Proof.
  intros [es Hrun]. eapply run_Silent; [done|]. by split.
Qed.

(** The promises are never fewer. *)
Lemma step_promises_length e st st' :
  step e st = Some st' -> length (promises st) <= length (promises st').
Proof.
  destruct e as [|texts| |w|w err|w]; unfold step; intros Hstep.
  - injection Hstep as <-. by rewrite getFreeWorker_promises.
  - rewrite queryResultsForSourceTexts_queued in Hstep.
    injection Hstep as <-. rewrite runNextTask_loop_promises. simpl.
    rewrite length_app. lia.
  - by injection Hstep as <-.
  - apply worker_turn_Some, on_error_Some in Hstep
      as (data & r & msgs & _ & ->). simpl. by rewrite settle_length.
  - apply on_error_Some in Hstep as (data & r & msgs & _ & ->). simpl.
    by rewrite settle_length.
  - by apply on_exit_Some in Hstep as (th & _ & _ & _ & ->).
Qed.

Lemma run_promises_length es : forall st st',
  run es st = Some st' -> length (promises st) <= length (promises st').
Proof.
  induction es as [|e es IH]; intros st st' Hrun; simpl in Hrun.
  - by injection Hrun as <-.
  - destruct (step e st) as [st1|] eqn:E; [|done].
    apply step_promises_length in E. apply IH in Hrun. lia.
Qed.

End PoolRunProps.

(** ** Properties of the asynchronous matcher *)

Module AsyncMatcherProps.
Import Async AsyncMatcher PoolProps PoolRunProps.

(** X10: the asynchronous matcher.  worker.js takes [QueryMatcher] from
    the module of the synchronous engine, which does not export it, so
    every worker throws on its first task.  In any state of the pool of a
    compiler, let a matcher that was given some texts call
    [findMatches()].  Whatever happens to the pool afterwards, the promise
    of the call is never fulfilled: it is pending or rejected, so
    [findMatches()] never returns normally, and [getMatchedResults()] of
    the matcher throws. *)
Theorem async_findMatches_never_fulfilled
    (n : Z) (qp : list (string * list (list Finder.RegExp)))
    (st : State) (texts : list string) (es : list event) (st' : State) :
  let qm :=
    fold_left (fun qm t => addSource t qm) texts
      (mkAsyncQueryMatcher None []) in
  reachable n qp st ->
  run es (findMatches_call qm st).2 = Some st' ->
  (exists outcome,
     promises st' !! (findMatches_call qm st).1 = Some outcome /\
     (outcome = Pending \/ exists err, outcome = Rejected err) /\
     forall qm', findMatches_resume qm outcome <> Some (Finder.Normal qm')) /\
  getMatchedResults qm
  = Finder.Throw (Finder.Error getMatchedResults_message).
Proof.
  intros qm Hreach Hrun. split.
  - pose proof (reachable_Silent _ _ _ Hreach) as Hs.
    assert (Hs1 : Silent (findMatches_call qm st).2).
    { apply (step_Silent (CallQueryResults (sourceTexts qm)) st); done. }
    pose proof (run_Silent _ _ _ Hrun Hs1) as [_ Hp].
    pose proof (run_promises_length _ _ _ Hrun) as Hlen.
    unfold findMatches_call in *.
    rewrite queryResultsForSourceTexts_queued, runNextTask_loop_promises
      in Hlen.
    simpl in Hlen. rewrite length_app in Hlen. simpl in Hlen.
    change (queryResultsForSourceTexts (sourceTexts qm) st).1
      with (length (promises st)).
    destruct (promises st' !! length (promises st)) as [outcome|] eqn:Ho.
    + exists outcome. split; [done|]. destruct outcome as [|value|err].
      * split; [by left | done].
      * by apply Hp in Ho.
      * split; [right; by exists err | done].
    + apply lookup_ge_None in Ho. lia.
  - unfold getMatchedResults.
    assert (matchedQueries qm = None) as ->; [|done].
    subst qm. clear Hrun.
    generalize (mkAsyncQueryMatcher None []) (eq_refl
      : matchedQueries (mkAsyncQueryMatcher None []) = None).
    induction texts as [|t texts IH]; intros m Hm; simpl; [done|].
    by apply IH.
Qed.

Lemma async_findMatches_never_fulfilled_witness :
  let qm :=
    fold_left (fun qm t => addSource t qm) ["browser.tabs.create({})"]
      (mkAsyncQueryMatcher None []) in
  let st := initial 1 (Finder.qc_queriesAndPatterns
                         (MatcherProps.compiler_of ["tabs.create"])) in
  exists st',
    run [WorkerMessage 0] (findMatches_call qm st).2 = Some st' /\
    promises st' !! 0 = Some (Rejected not_a_constructor) /\
    (exists outcome,
       promises st' !! (findMatches_call qm st).1 = Some outcome /\
       (outcome = Pending \/ exists err, outcome = Rejected err) /\
       forall qm',
         findMatches_resume qm outcome <> Some (Finder.Normal qm')) /\
    getMatchedResults qm
    = Finder.Throw (Finder.Error getMatchedResults_message).
Proof.
  eexists. split; [vm_compute; reflexivity|]. split; [reflexivity|].
  apply (async_findMatches_never_fulfilled 1
           (Finder.qc_queriesAndPatterns
              (MatcherProps.compiler_of ["tabs.create"]))
           _ ["browser.tabs.create({})"] [WorkerMessage 0]).
  - by exists [].
  - vm_compute. reflexivity.
Defined.

End AsyncMatcherProps.

(** ** More properties of the worker pool *)

Module PoolQueueProps.
Import Async PoolProps PoolRunProps.

(** *** Waiting tasks *)

(** No worker is free: none is idle and the ceiling is reached. *)
Definition saturated (st : State) : Prop :=
  idleWorkers (pool st) = [] /\
  (numThreads (pool st) <= Z.of_nat (length (workers (pool st))))%Z.

Lemma getFreeWorker_None st st' :
  getFreeWorker st = (None, st') -> st' = st /\ saturated st.
Proof.
  unfold getFreeWorker, saturated.
  destruct (idleWorkers (pool st)) as [|w idle]; [|done].
  destruct (Z.ltb_spec (Z.of_nat (length (workers (pool st))))
              (numThreads (pool st))); [done|].
  intros [= <-]. done.
Qed.

Lemma set_taskQueue_saturated st q :
  saturated st -> saturated (set_taskQueue st q).
Proof. done. Qed.

(** The loop of [_runNextTask] hands out the waiting tasks from the front
    and stops when none is left or no worker is free. *)
Lemma runNextTask_loop_served queue : forall st,
  (exists k, taskQueue (pool (runNextTask_loop queue st)) = drop k queue) /\
  (taskQueue (pool (runNextTask_loop queue st)) = [] \/
   saturated (runNextTask_loop queue st)).
Proof.
  induction queue as [|task queue IH]; intros st; simpl.
  - split; [by exists 0 | by left].
  - destruct (getFreeWorker st) as [[w|] st'] eqn:E.
    + destruct (IH (dispatch w task st')) as [[k Hk] Hs].
      split; [by exists (S k) | done].
    + apply getFreeWorker_None in E as [-> Hsat].
      split; [by exists 0 | by right].
Qed.

Lemma getFreeWorker_waiting st :
  taskQueue (pool st) = [] \/ saturated st ->
  taskQueue (pool (getFreeWorker st).2) = [] \/ saturated (getFreeWorker st).2.
Proof.
  intros [Hq|[Hi Hn]].
  - left. unfold getFreeWorker.
    destruct (idleWorkers (pool st)); simpl; [|done]. by destruct (_ <? _)%Z.
  - right. unfold getFreeWorker. rewrite Hi.
    destruct (Z.ltb_spec (Z.of_nat (length (workers (pool st))))
                (numThreads (pool st))); [lia|]. by split.
Qed.

Lemma step_waiting e st st' :
  step e st = Some st' -> e <> CallTerminateAll ->
  taskQueue (pool st) = [] \/ saturated st ->
  taskQueue (pool st') = [] \/ saturated st'.
Proof.
  intros Hstep Hne Hw.
  assert (Herr : forall w err,
    on_error w err st = Some st' ->
    taskQueue (pool st') = [] \/ saturated st').
  { intros w err H.
    by apply on_error_Some in H as (data & r & msgs & _ & ->). }
  destruct e as [|texts| |w|w err|w]; unfold step in Hstep.
  - injection Hstep as <-. by apply getFreeWorker_waiting.
  - rewrite queryResultsForSourceTexts_queued in Hstep.
    injection Hstep as <-. apply runNextTask_loop_served.
  - done.
  - apply worker_turn_cases in Hstep as [[result Hstep]|[err Hstep]];
      [|by eapply Herr].
    apply on_message_answered in Hstep as (data & r & msg & rest & _ & ->).
    apply runNextTask_loop_served.
  - by eapply Herr.
  - by apply on_exit_Some in Hstep as (th & _ & _ & _ & ->).
Qed.

(** X11: waiting tasks.  [_runNextTask] hands out the waiting tasks from the
    front of the queue, in order, and stops only when none is left or no
    worker is free; so as long as [terminateAllWorkers] is not called, a
    task waits in the queue of a pool only while no worker is idle and the
    number of workers has reached [numThreads]. *)
Theorem tasks_wait_only_when_saturated :
  (forall st : State,
     (exists k,
        taskQueue (pool (_runNextTask st)) = drop k (taskQueue (pool st))) /\
     (taskQueue (pool (_runNextTask st)) = [] \/
      saturated (_runNextTask st))) /\
  (forall (n : Z) (qp : list (string * list (list Finder.RegExp)))
          (es : list event) (st : State),
     run es (initial n qp) = Some st ->
     CallTerminateAll ∉ es ->
     taskQueue (pool st) <> [] ->
     idleWorkers (pool st) = [] /\
     (numThreads (pool st) <= Z.of_nat (length (workers (pool st))))%Z).
Proof.
  split; [intros st; apply runNextTask_loop_served|].
  intros n qp es st Hrun Hno Hq.
  assert (Hw : taskQueue (pool st) = [] \/ saturated st);
    [|by destruct Hw].
  clear Hq. revert Hrun Hno.
  generalize (initial n qp) (or_introl eq_refl
    : taskQueue (pool (initial n qp)) = [] \/ saturated (initial n qp)).
  induction es as [|e es IH]; intros st0 H0 Hrun Hno; simpl in Hrun.
  - by injection Hrun as <-.
  - destruct (step e st0) as [st1|] eqn:E; [|done].
    apply not_elem_of_cons in Hno as [Hne Hno].
    apply (IH st1); [|done|done].
    eapply step_waiting; [done| |done]. by intros ->.
Qed.

(** *** A pool whose workers have all ended *)

(** Every thread has ended, none is idle and the ceiling is reached. *)
Definition exhausted (st : State) : Prop :=
  (forall w th, threads st !! w = Some th -> ended th = true) /\
  saturated st.

Lemma runNextTask_loop_saturated queue st :
  queue <> [] -> saturated st ->
  runNextTask_loop queue st = set_taskQueue st queue.
Proof.
  intros Hq [Hi Hn]. destruct queue as [|task queue]; [done|]. simpl.
  unfold getFreeWorker. rewrite Hi.
  destruct (Z.ltb_spec (Z.of_nat (length (workers (pool st))))
              (numThreads (pool st))); [lia | done].
Qed.

Lemma step_exhausted e st st' :
  step e st = Some st' -> e <> CallTerminateAll -> exhausted st ->
  exhausted st' /\ threads st' = threads st /\
  workers (pool st') = workers (pool st) /\
  exists k, promises st' = promises st ++ replicate k Pending.
Proof.
  intros Hstep Hne [He Hs].
  assert (Herr : forall w err, on_error w err st = Some st' -> False).
  { intros w err H.
    apply on_error_Some in H as (data & r & msgs & Hw & _).
    by specialize (He _ _ Hw). }
  destruct e as [|texts| |w|w err|w]; unfold step in Hstep.
  - injection Hstep as <-. unfold getFreeWorker.
    destruct Hs as [Hi Hn]. rewrite Hi.
    destruct (Z.ltb_spec (Z.of_nat (length (workers (pool st))))
                (numThreads (pool st))); [lia|]. simpl.
    split; [by split|]. do 2 (split; [done|]). exists 0. by rewrite app_nil_r.
  - rewrite queryResultsForSourceTexts_queued in Hstep.
    injection Hstep as <-.
    rewrite runNextTask_loop_saturated; [| |done].
    + split; [by split|]. do 2 (split; [done|]). by exists 1.
    + simpl. by destruct (taskQueue (pool st)).
  - done.
  - apply worker_turn_cases in Hstep as [[result Hstep]|[err Hstep]];
      [|by destruct (Herr _ _ Hstep)].
    apply on_message_answered in Hstep as (data & r & msg & rest & Hw & _).
    by specialize (He _ _ Hw).
  - by destruct (Herr _ _ Hstep).
  - apply on_exit_Some in Hstep as (th & Hw & Hend & _).
    specialize (He _ _ Hw). congruence.
Qed.

Lemma forallb_ended (ths : list Worker) :
  forallb ended ths = true ->
  forall w th, ths !! w = Some th -> ended th = true.
Proof.
  intros H w th Hw. rewrite forallb_forall in H. apply H.
  by eapply list_elem_of_In, list_elem_of_lookup_2.
Qed.

(** X12: a pool without live workers.  A worker whose thread has ended stays
    in [workers] and counts towards [numThreads].  So once the ceiling is
    reached and every thread has ended, the pool starts no worker and
    settles no promise, and the promise of every task that is submitted
    stays pending, as long as [terminateAllWorkers] is not called. *)
Theorem exhausted_pool_serves_nothing
    (st : State) (es : list event) (st' : State) :
  forallb ended (threads st) = true ->
  idleWorkers (pool st) = [] ->
  (numThreads (pool st) <= Z.of_nat (length (workers (pool st))))%Z ->
  CallTerminateAll ∉ es ->
  run es st = Some st' ->
  threads st' = threads st /\
  workers (pool st') = workers (pool st) /\
  idleWorkers (pool st') = [] /\
  exists k, promises st' = promises st ++ replicate k Pending.
Proof.
  intros He Hi Hn Hno Hrun.
  assert (Hex : exhausted st).
  { split; [by apply forallb_ended | by split]. }
  clear He Hi Hn.
  assert (Hgoal : exhausted st' /\ threads st' = threads st /\
                  workers (pool st') = workers (pool st) /\
                  exists k, promises st' = promises st ++ replicate k Pending).
  { revert st Hex Hrun Hno.
    induction es as [|e es IH]; intros st Hex Hrun Hno; simpl in Hrun.
    - injection Hrun as <-. do 3 (split; [done|]).
      exists 0. by rewrite app_nil_r.
    - destruct (step e st) as [st1|] eqn:E; [|done].
      apply not_elem_of_cons in Hno as [Hne Hno].
      assert (Hne' : e <> CallTerminateAll) by (by intros ->).
      destruct (step_exhausted e st st1 E Hne' Hex)
        as (Hex1 & Ht & Hws & k1 & Hp).
      destruct (IH st1 Hex1 Hrun Hno) as (Hex' & Ht' & Hw' & k & Hp').
      split; [done|]. split; [congruence|]. split; [congruence|].
      exists (k1 + k). rewrite Hp', Hp, <- app_assoc. f_equal.
      by rewrite replicate_add. }
  destruct Hgoal as ([_ [Hi' _]] & ? & ? & ?). done.
Qed.

Lemma exhausted_pool_serves_nothing_witness :
  let st :=
    mkState (mkPool [] 1 [0] [] [])
      [mkWorker [] (Some 0) [["a"]] true]
      [Rejected (Finder.Error "boom")] in
  let st' :=
    mkState (mkPool [] 1 [0] [] [mkTask 1 ["b"]; mkTask 2 ["c"]])
      [mkWorker [] (Some 0) [["a"]] true]
      [Rejected (Finder.Error "boom"); Pending; Pending] in
  threads st' = threads st /\
  workers (pool st') = workers (pool st) /\
  idleWorkers (pool st') = [] /\
  exists k, promises st' = promises st ++ replicate k Pending.
Proof.
  apply (exhausted_pool_serves_nothing
           (mkState (mkPool [] 1 [0] [] [])
              [mkWorker [] (Some 0) [["a"]] true]
              [Rejected (Finder.Error "boom")])
           [CallQueryResults ["b"]; CallGetFreeWorker;
            CallQueryResults ["c"]]).
  - reflexivity.
  - reflexivity.
  - simpl. lia.
  - intros H. repeat (apply elem_of_cons in H as [H|H]; [discriminate|]).
    by apply elem_of_nil in H.
  - vm_compute. reflexivity.
Defined.

End PoolQueueProps.

(** ** The answer of a worker *)

Module PoolMessageProps.
Import Async PoolProps PoolRunProps.

(** X14: the answer of a worker.  In a state that a pool can reach, let a
    live worker have a task (a message it has not answered).  When the
    worker takes the task, worker.js throws the TypeError "QueryMatcher is
    not a constructor"; the listener for ["error"] rejects the promise of
    the task, which was pending, with that error; the thread has ended;
    the pool is as before, so the worker does not become idle and no
    waiting task is handed out. *)
Theorem worker_throws_on_its_task
    (n : Z) (qp : list (string * list (list Finder.RegExp)))
    (st : State) (w : nat) (th : Worker) :
  reachable n qp st ->
  threads st !! w = Some th ->
  inbox th <> [] ->
  ended th = false ->
  exists msg p st',
    inbox th = [msg] /\
    worker_onmessage (workerData th) msg
    = Finder.Throw (Finder.TypeError "QueryMatcher is not a constructor") /\
    kTaskResolver th = Some p /\
    promises st !! p = Some Pending /\
    step (WorkerMessage w) st = Some st' /\
    promises st' !! p
    = Some (Rejected (Finder.TypeError "QueryMatcher is not a constructor")) /\
    threads st' !! w = Some (end_thread th) /\
    pool st' = pool st.
Proof.
  intros Hreach Hth Hbusy Halive.
  pose proof (reachable_Inv _ _ _ Hreach) as HI. unfold InvS in HI.
  destruct (inv_busy _ _ HI w th Hth Hbusy) as (p & Hp & Hpend).
  specialize (Hpend Halive).
  pose proof (inv_inbox _ _ HI w th Hth) as Hlen.
  destruct th as [data r [|msg [|msg' rest]] e]; simpl in *;
    [done | | lia]. subst r e.
  exists msg, p. eexists. split; [done|]. split; [done|].
  split; [done|]. split; [done|].
  unfold worker_turn. rewrite Hth, worker_onmessage_throws.
  unfold on_error. rewrite Hth. split; [reflexivity|]. simpl.
  split; [by apply settle_pending|]. split; [|done].
  apply list_lookup_insert_eq. by eapply lookup_lt_Some.
Qed.

Lemma worker_throws_on_its_task_witness :
  let st :=
    mkState (mkPool [] 1 [0] [] [mkTask 1 ["b"]])
      [mkWorker [] (Some 0) [["a"]] false]
      [Pending; Pending] in
  exists msg p st',
    inbox (mkWorker [] (Some 0) [["a"]] false) = [msg] /\
    worker_onmessage [] msg
    = Finder.Throw (Finder.TypeError "QueryMatcher is not a constructor") /\
    kTaskResolver (mkWorker [] (Some 0) [["a"]] false) = Some p /\
    promises st !! p = Some Pending /\
    step (WorkerMessage 0) st = Some st' /\
    promises st' !! p
    = Some (Rejected (Finder.TypeError "QueryMatcher is not a constructor")) /\
    threads st' !! 0 = Some (end_thread (mkWorker [] (Some 0) [["a"]] false)) /\
    pool st' = pool st.
Proof.
  apply (worker_throws_on_its_task 1 []).
  - exists [CallQueryResults ["a"]; CallQueryResults ["b"]].
    vm_compute. reflexivity.
  - reflexivity.
  - simpl. discriminate.
  - reflexivity.
Defined.

End PoolMessageProps.

(** ** Properties of the concurrent task queue *)

Module TaskQueueProps.
Import TaskQueue.

Section Props.
Context {V E : Type}.
Implicit Types (st : State V E) (t task : Task E) (es : list (event V E)).

(** What holds of a queue while [waiting] is the list of waiting tasks:
    [size] counts the suspended calls and does not exceed [max]; the
    callbacks have been called in the order of the promises, and the
    waiting tasks are the ones that follow; every suspended call awaits a
    callback of its own, which has been called; and the promises of the
    waiting tasks and of the awaited callbacks are pending. *)
Record QInv (waiting : list (Task E)) st : Prop := {
  qinv_size : size st = Z.of_nat (length (awaiting st));
  qinv_max : (size st <= Z.max 0 (max st))%Z;
  qinv_order :
    called st ++ map promise waiting = seq 0 (length (promises st));
  qinv_nodup : NoDup (map promise (awaiting st));
  qinv_called : forall t, t ∈ awaiting st -> promise t ∈ called st;
  qinv_pending : forall t,
    t ∈ awaiting st \/ t ∈ waiting ->
    promises st !! promise t = Some Pending
}.

Lemma queue_settle_length p (o : Promise V E) ps :
  length (settle p o ps) = length ps.
Proof.
  unfold settle. destruct (ps !! p) as [[]|]; try done. apply length_insert.
Qed.

Lemma queue_settle_lookup_ne p p' (o : Promise V E) ps :
  p' <> p -> settle p o ps !! p' = ps !! p'.
Proof.
  intros Hne. unfold settle. destruct (ps !! p) as [[]|]; try done.
  by apply list_lookup_insert_ne.
Qed.

Lemma queue_settle_pending p (o : Promise V E) ps :
  ps !! p = Some Pending -> settle p o ps !! p = Some o.
Proof.
  intros H. unfold settle. rewrite H.
  apply list_lookup_insert_eq. by eapply lookup_lt_Some.
Qed.

(** The promises of the callbacks called and of the waiting tasks are all
    different. *)
Lemma QInv_fresh waiting st task :
  QInv (task :: waiting) st ->
  (promise task ∉ called st) /\ (promise task ∉ map promise waiting).
Proof.
  intros HI. pose proof (qinv_order _ _ HI) as Ho.
  assert (Hnd : NoDup (called st ++ map promise (task :: waiting))).
  { rewrite Ho. apply NoDup_seq. }
  apply NoDup_app in Hnd as (_ & Hdis & Hnd). split.
  - intros Hin. apply (Hdis _ Hin). by left.
  - simpl in Hnd. by apply NoDup_cons in Hnd as [? _].
Qed.

(** One call of [_runNextTask] keeps the invariant and the bound. *)
Lemma queue_loop_Inv waiting : forall st,
  QInv waiting st ->
  QInv (tasks (runNextTask_loop waiting st)) (runNextTask_loop waiting st) /\
  max (runNextTask_loop waiting st) = max st.
Proof.
  induction waiting as [|task waiting IH]; intros st HI; simpl.
  - split; [|done]. destruct HI. by split.
  - destruct (Z.ltb_spec (size st) (max st)) as [Hlt|Hge].
    + destruct (QInv_fresh _ _ _ HI) as [Hnc Hnw].
      destruct (runTaskCallback task) as [e|].
      * destruct (IH (mkState (max st) (size st + 1 - 1) waiting (awaiting st)
                        (settle (promise task) (Rejected e) (promises st))
                        (called st ++ [promise task]) (returned st)))
          as [HI' Hm'];
          [|by split].
        split; simpl.
        -- rewrite <- (qinv_size _ _ HI). lia.
        -- pose proof (qinv_max _ _ HI). lia.
        -- rewrite queue_settle_length, <- (qinv_order _ _ HI), <- app_assoc. done.
        -- by eapply qinv_nodup.
        -- intros t Ht. apply elem_of_app. left. by eapply qinv_called.
        -- intros t Ht. rewrite queue_settle_lookup_ne.
           ++ apply (qinv_pending _ _ HI). destruct Ht as [Ht|Ht];
                [by left | by right; right].
           ++ intros Heq. destruct Ht as [Ht|Ht].
              ** apply Hnc. rewrite <- Heq. by eapply qinv_called.
              ** apply Hnw. rewrite <- Heq.
                 by apply list_elem_of_In, in_map, list_elem_of_In.
      * split; [|done]. split; simpl.
        -- rewrite length_app, (qinv_size _ _ HI). simpl. lia.
        -- lia.
        -- rewrite <- (qinv_order _ _ HI), <- app_assoc. done.
        -- rewrite map_app. simpl. apply NoDup_app.
           split; [by eapply qinv_nodup|]. split; [|apply NoDup_singleton].
           intros p Hp Hp'. apply list_elem_of_singleton in Hp' as ->.
           apply Hnc. apply list_elem_of_In, in_map_iff in Hp as (t & <- & Ht).
           apply (qinv_called _ _ HI). by apply list_elem_of_In.
        -- intros t Ht. apply elem_of_app.
           apply elem_of_app in Ht as [Ht|Ht].
           ++ left. by eapply qinv_called.
           ++ right. apply list_elem_of_singleton in Ht as ->.
              by apply list_elem_of_singleton.
        -- intros t Ht. apply (qinv_pending _ _ HI).
           destruct Ht as [Ht|Ht]; [|by right; right].
           apply elem_of_app in Ht as [Ht|Ht]; [by left|].
           apply list_elem_of_singleton in Ht as ->. right. by left.
    + split; [|done]. destruct HI. by split.
Qed.

(** No task waits while a call could take it. *)
Definition busy st : Prop := tasks st = [] \/ (max st <= size st)%Z.

Lemma queue_loop_busy waiting : forall st,
  length waiting <= 1 \/ (max st <= size st + 1)%Z ->
  busy (runNextTask_loop waiting st).
Proof.
  induction waiting as [|task waiting IH]; intros st Hpre; simpl.
  - by left.
  - destruct (Z.ltb_spec (size st) (max st)) as [Hlt|Hge]; [|by right].
    destruct (runTaskCallback task) as [e|].
    + apply IH. simpl in *. destruct Hpre as [Hpre|Hpre]; [left; lia|].
      right. lia.
    + unfold busy. simpl in *. destruct Hpre as [Hpre|Hpre].
      * left. destruct waiting; [done | simpl in Hpre; lia].
      * right. lia.
Qed.

Lemma take_task_spec p (l : list (Task E)) t l' :
  take_task p l = Some (t, l') -> promise t = p /\ l ≡ₚ t :: l'.
Proof.
  revert t l'. induction l as [|t0 l IH]; intros t l' H; simpl in H; [done|].
  case_decide as Hd.
  - injection H as <- <-. done.
  - destruct (take_task p l) as [[t1 rest]|] eqn:Hl; [|done].
    injection H as <- <-. destruct (IH _ _ eq_refl) as [Hp Hperm].
    split; [done|]. rewrite Hperm. apply perm_swap.
Qed.

Lemma take_task_Some p (l : list (Task E)) t :
  t ∈ l -> promise t = p -> is_Some (take_task p l).
Proof.
  induction l as [|t0 l IH]; intros Hin Hp; [by apply elem_of_nil in Hin|].
  simpl. case_decide as Hd; [by eexists|].
  apply elem_of_cons in Hin as [->|Hin]; [done|].
  destruct (IH Hin Hp) as [[t1 rest] ->]. by eexists.
Qed.

Definition QInvS st : Prop := QInv (tasks st) st /\ busy st.

Lemma queueTask_QInvS cb st : QInvS st -> QInvS (queueTask cb st).2 /\
  max (queueTask cb st).2 = max st.
Proof.
  intros [HI Hb]. unfold queueTask, _runNextTask. cbn [snd tasks].
  set (st1 := mkState (max st) (size st)
                (tasks st ++ [mkTask (length (promises st)) cb])
                (awaiting st) (promises st ++ [Pending]) (called st)
                (returned st ++ [Pending])).
  assert (HI1 : QInv (tasks st ++ [mkTask (length (promises st)) cb]) st1).
  { split; simpl.
    - by eapply qinv_size.
    - by eapply qinv_max.
    - rewrite map_app, app_assoc, (qinv_order _ _ HI), length_app. simpl.
      by rewrite seq_app.
    - by eapply qinv_nodup.
    - by eapply qinv_called.
    - intros t [Ht|Ht].
      + apply lookup_app_l_Some. apply (qinv_pending _ _ HI). by left.
      + apply elem_of_app in Ht as [Ht|Ht].
        * apply lookup_app_l_Some. apply (qinv_pending _ _ HI). by right.
        * apply list_elem_of_singleton in Ht as ->. simpl.
          by rewrite lookup_app_r, Nat.sub_diag. }
  destruct (queue_loop_Inv _ _ HI1) as [HI' Hm]. split; [|done].
  split; [done|]. apply queue_loop_busy. simpl.
  destruct Hb as [->|Hb]; [left; simpl; lia | right; lia].
Qed.

Lemma resume_QInvS p (o : V + E) st st' :
  resume p o st = Some st' -> QInvS st ->
  QInvS st' /\ max st' = max st.
Proof.
  unfold resume. intros Hstep [HI Hb].
  destruct (take_task p (awaiting st)) as [[task awaiting']|] eqn:Ht; [|done].
  injection Hstep as <-. apply take_task_spec in Ht as [Hp Hperm].
  unfold _runNextTask. cbn [tasks].
  set (answer := match o with inl v => Fulfilled v | inr e => Rejected e end).
  set (st1 := mkState (max st) (size st - 1) (tasks st) awaiting'
                (settle (promise task) answer (promises st)) (called st)
                (returned st)).
  pose proof (qinv_nodup _ _ HI) as Hnd. rewrite Hperm in Hnd. simpl in Hnd.
  apply NoDup_cons in Hnd as [Hfirst Hnd].
  assert (Hin : forall t, t ∈ awaiting' -> t ∈ awaiting st).
  { intros t Hin. rewrite Hperm. by right. }
  assert (Htask : task ∈ awaiting st) by (rewrite Hperm; by left).
  assert (HI1 : QInv (tasks st) st1).
  { split; simpl.
    - pose proof (qinv_size _ _ HI) as Hs. rewrite Hperm in Hs. simpl in Hs.
      lia.
    - pose proof (qinv_max _ _ HI). lia.
    - rewrite queue_settle_length. by eapply qinv_order.
    - done.
    - intros t Hi. by apply (qinv_called _ _ HI), Hin.
    - intros t Hi. rewrite queue_settle_lookup_ne.
      + apply (qinv_pending _ _ HI). destruct Hi as [Hi|Hi]; [left|right];
          auto.
      + intros Heq. destruct Hi as [Hi|Hi].
        * apply Hfirst. rewrite <- Heq.
          by apply list_elem_of_In, in_map, list_elem_of_In.
        * pose proof (qinv_order _ _ HI) as Ho.
          assert (Hnd' : NoDup (called st ++ map promise (tasks st))).
          { rewrite Ho. apply NoDup_seq. }
          apply NoDup_app in Hnd' as (_ & Hdis & _).
          apply (Hdis (promise task)); [by eapply qinv_called|].
          rewrite <- Heq. by apply list_elem_of_In, in_map, list_elem_of_In. }
  destruct (queue_loop_Inv _ _ HI1) as [HI' Hm]. split; [|done].
  split; [done|]. apply queue_loop_busy. simpl.
  destruct Hb as [->|Hb]; [left; simpl; lia | right; lia].
Qed.

Lemma follow_Some p st st' :
  follow p st = Some st' ->
  exists outcome,
    promises st !! p = Some outcome /\ outcome <> Pending /\
    returned st !! p = Some Pending /\
    st' = mkState (max st) (size st) (tasks st) (awaiting st) (promises st)
            (called st) (<[p := outcome]> (returned st)).
Proof.
  unfold follow. intros H.
  destruct (promises st !! p) as [[|v|e]|]; [done| | |done];
    destruct (returned st !! p) as [[]|]; try done;
    injection H as <-; eexists; by repeat split.
Qed.

Lemma follow_QInvS p st st' :
  follow p st = Some st' -> QInvS st -> QInvS st' /\ max st' = max st.
Proof.
  intros H [HI Hb]. apply follow_Some in H as (o & _ & _ & _ & ->).
  split; [|done]. split; [|done]. destruct HI. by split.
Qed.

Lemma QInvS_new (m : Z) : QInvS (new_ConcurrentTaskQueue (V:=V) (E:=E) m).
Proof.
  split; [|by left]. split; simpl; try done; try lia.
  - constructor.
  - intros t H. by apply elem_of_nil in H.
  - intros t [H|H]; by apply elem_of_nil in H.
Qed.

Lemma run_QInvS es : forall st st',
  run es st = Some st' -> QInvS st -> QInvS st' /\ max st' = max st.
Proof.
  induction es as [|e es IH]; intros st st' Hrun HI; simpl in Hrun.
  - by injection Hrun as <-.
  - destruct (step e st) as [st1|] eqn:Hs; [|done].
    assert (H1 : QInvS st1 /\ max st1 = max st).
    { destruct e as [cb|p o|p]; simpl in Hs.
      - injection Hs as <-. by apply queueTask_QInvS.
      - by eapply resume_QInvS.
      - by eapply follow_QInvS. }
    destruct H1 as [HI1 Hm1]. destruct (IH _ _ Hrun HI1) as [HI' Hm'].
    split; [done | congruence].
Qed.

(** X15: the bound of the queue.  Whatever tasks are queued and whenever
    their callbacks settle, [size] is the number of callbacks that have
    been called and have not settled yet; it never goes below zero nor
    above [max] (nor above zero, if [max] is negative); and a task waits
    only while at least [max] callbacks are running. *)
Theorem at_most_max_callbacks_running
    (m : Z) es st :
  run es (new_ConcurrentTaskQueue m) = Some st ->
  max st = m /\
  size st = Z.of_nat (length (awaiting st)) /\
  (0 <= size st <= Z.max 0 m)%Z /\
  (tasks st <> [] -> (m <= size st)%Z).
Proof.
  intros Hrun. destruct (run_QInvS es _ _ Hrun (QInvS_new m)) as [[HI Hb] Hm].
  simpl in Hm. split; [done|]. split; [by eapply qinv_size|]. split.
  - pose proof (qinv_size _ _ HI). pose proof (qinv_max _ _ HI). lia.
  - intros Hne. destruct Hb as [?|?]; [done | lia].
Qed.

(** X16: the order of the queue.  The callbacks are called in the order in
    which their tasks were queued, each once; the tasks that wait are the
    ones queued last, in that order. *)
Theorem callbacks_called_in_order (m : Z) es st :
  run es (new_ConcurrentTaskQueue m) = Some st ->
  called st ++ map promise (tasks st) = seq 0 (length (promises st)).
Proof.
  intros Hrun. destruct (run_QInvS es _ _ Hrun (QInvS_new m)) as [[HI _] _].
  by eapply qinv_order.
Qed.

(** A call of [_runNextTask] settles promises of waiting tasks only, and
    leaves the promises returned alone. *)
Lemma queue_loop_lookup p waiting : forall st,
  p ∉ map promise waiting ->
  promises (runNextTask_loop waiting st) !! p = promises st !! p.
Proof.
  induction waiting as [|task waiting IH]; intros st Hp; simpl; [done|].
  simpl in Hp. apply not_elem_of_cons in Hp as [Hne Hp].
  destruct (size st <? max st)%Z; [|done].
  destruct (runTaskCallback task) as [e|]; [|done].
  rewrite IH by done. simpl. by apply queue_settle_lookup_ne.
Qed.

Lemma queue_loop_returned waiting : forall st,
  returned (runNextTask_loop waiting st) = returned st.
Proof.
  induction waiting as [|task waiting IH]; intros st; simpl; [done|].
  destruct (size st <? max st)%Z; [|done].
  destruct (runTaskCallback task) as [e|]; [|done]. by rewrite IH.
Qed.

(** A promise that is settled stays as it is. *)
Lemma queue_settle_settled p p' (o x : Promise V E) ps :
  ps !! p' = Some x -> x <> Pending -> settle p o ps !! p' = Some x.
Proof.
  intros Hx Hne. unfold settle.
  destruct (ps !! p) as [[]|] eqn:Hp; try done.
  rewrite list_lookup_insert_ne; [done|]. intros ->. congruence.
Qed.

Lemma queue_loop_settled p x waiting : forall st,
  promises st !! p = Some x -> x <> Pending ->
  promises (runNextTask_loop waiting st) !! p = Some x.
Proof.
  induction waiting as [|task waiting IH]; intros st Hx Hne; simpl; [done|].
  destruct (size st <? max st)%Z; [|done].
  destruct (runTaskCallback task) as [e|]; [|done].
  apply IH; [|done]. simpl. by apply queue_settle_settled.
Qed.

Lemma queue_loop_length waiting : forall st,
  length (promises (runNextTask_loop waiting st)) = length (promises st).
Proof.
  induction waiting as [|task waiting IH]; intros st; simpl; [done|].
  destruct (size st <? max st)%Z; [|done].
  destruct (runTaskCallback task) as [e|]; [|done].
  rewrite IH. simpl. apply queue_settle_length.
Qed.

(** A promise returned is pending, or it has the state of the promise of
    its task. *)
Definition RInv st : Prop :=
  length (returned st) = length (promises st) /\
  forall p x,
    returned st !! p = Some x -> x = Pending \/ promises st !! p = Some x.

Lemma queue_loop_RInv waiting st :
  RInv st -> RInv (runNextTask_loop waiting st).
Proof.
  intros [Hl Hr]. split.
  - by rewrite queue_loop_returned, queue_loop_length.
  - intros p x. rewrite queue_loop_returned. intros Hx.
    destruct (Hr p x Hx) as [->|Hp]; [by left|].
    destruct x as [|v|e]; [by left | |]; right; by apply queue_loop_settled.
Qed.

Lemma step_RInv (e : event V E) st st' :
  step e st = Some st' -> RInv st -> RInv st'.
Proof.
  intros Hstep [Hl Hr]. destruct e as [cb|p o|p]; simpl in Hstep.
  - injection Hstep as <-. apply queue_loop_RInv. split; simpl.
    + rewrite !length_app. simpl. lia.
    + intros p x Hx. apply lookup_app_Some in Hx as [Hx|[_ Hx]].
      * destruct (Hr p x Hx) as [->|Hp]; [by left|].
        right. by apply lookup_app_l_Some.
      * left. by destruct (p - length (returned st)) as [|[|k]];
          simpl in Hx; [injection Hx|..].
  - unfold resume in Hstep.
    destruct (take_task p (awaiting st)) as [[task awaiting']|]; [|done].
    injection Hstep as <-. apply queue_loop_RInv. split; simpl.
    + by rewrite queue_settle_length.
    + intros p' x Hx. destruct (Hr p' x Hx) as [->|Hp]; [by left|].
      destruct x as [|v|e]; [by left | |]; right;
        by apply queue_settle_settled.
  - apply follow_Some in Hstep as (o & Ho & Hne & Hpend & ->).
    split; simpl.
    + by rewrite length_insert.
    + intros p' x Hx. apply list_lookup_insert_Some in Hx.
      destruct Hx as [(-> & <- & _)|[_ Hx]]; [by right | by apply Hr].
Qed.

Lemma run_RInv es : forall st st',
  run es st = Some st' -> RInv st -> RInv st'.
Proof.
  induction es as [|e es IH]; intros st st' Hrun HI; simpl in Hrun.
  - by injection Hrun as <-.
  - destruct (step e st) as [st1|] eqn:Hs; [|done].
    eapply IH; [done|]. by eapply step_RInv.
Qed.

Definition outcome_of (o : V + E) : Promise V E :=
  match o with inl v => Fulfilled v | inr e => Rejected e end.

(** The promise returned for a settled task follows it. *)
Lemma follow_settled p (x : Promise V E) st :
  RInv st -> promises st !! p = Some x -> x <> Pending ->
  returned st !! p = Some Pending ->
  exists st', follow p st = Some st' /\ returned st' !! p = Some x /\
    promises st' = promises st.
Proof.
  intros [Hl _] Hx Hne Hr. unfold follow. rewrite Hx, Hr.
  destruct x as [|v|e]; [done| |]; eexists; (split; [done|]);
    (split; [|done]); simpl; apply list_lookup_insert_eq;
    by eapply lookup_lt_Some.
Qed.

(** X17: the answer to a task.  The promise that [queueTask] returns is
    pending until it takes the state of the promise of its task, and it
    never has another state.  While a callback is awaited, both promises
    are pending; when what the callback returned is settled, the promise
    of the task is settled the same way, and the promise returned follows
    in a later microtask.  A callback that throws when it is called, while
    fewer than [max] callbacks are running, rejects the promise of its
    task with what it threw before [queueTask] returns; the promise
    returned is still pending then and is rejected the same way
    afterwards. *)
Theorem task_settles_as_its_callback (m : Z) es st :
  run es (new_ConcurrentTaskQueue m) = Some st ->
  (forall p x,
     returned st !! p = Some x ->
     x = Pending \/ promises st !! p = Some x) /\
  (forall t (o : V + E),
     t ∈ awaiting st ->
     promises st !! promise t = Some Pending /\
     returned st !! promise t = Some Pending /\
     exists st' st'',
       resume (promise t) o st = Some st' /\
       promises st' !! promise t = Some (outcome_of o) /\
       returned st' !! promise t = Some Pending /\
       follow (promise t) st' = Some st'' /\
       returned st'' !! promise t = Some (outcome_of o)) /\
  (forall e,
     (size st < m)%Z ->
     let r := queueTask (Throws e) st in
     promises r.2 !! r.1 = Some (Rejected e) /\
     returned r.2 !! r.1 = Some Pending /\
     exists st'',
       follow r.1 r.2 = Some st'' /\
       returned st'' !! r.1 = Some (Rejected e)).
Proof.
  intros Hrun. destruct (run_QInvS es _ _ Hrun (QInvS_new m)) as [[HI Hb] Hm].
  simpl in Hm.
  assert (HR : RInv st).
  { eapply run_RInv; [done|]. by split. }
  assert (Hret : forall p,
    promises st !! p = Some Pending -> returned st !! p = Some Pending).
  { intros p Hp. destruct HR as [Hl Hr].
    destruct (returned st !! p) as [x|] eqn:Hx.
    - destruct (Hr p x Hx) as [->|Hp']; [done | congruence].
    - apply lookup_ge_None in Hx. apply lookup_lt_Some in Hp. lia. }
  split; [apply HR|]. split.
  - intros t o Ht.
    assert (Hpend : promises st !! promise t = Some Pending).
    { apply (qinv_pending _ _ HI). by left. }
    split; [done|]. split; [by apply Hret|].
    destruct (resume (promise t) o st) as [st'|] eqn:Hres.
    + assert (HR' : RInv st').
      { by apply (step_RInv (CallbackSettles (promise t) o) st). }
      assert (Hp' : promises st' !! promise t = Some (outcome_of o)).
      { unfold resume in Hres.
        destruct (take_task (promise t) (awaiting st))
          as [[t' awaiting']|] eqn:Htake; [|done].
        injection Hres as <-. apply take_task_spec in Htake as [Hp' _].
        unfold _runNextTask. cbn [tasks]. rewrite queue_loop_lookup.
        - simpl. rewrite Hp'. by apply queue_settle_pending.
        - pose proof (qinv_order _ _ HI) as Ho.
          assert (Hnd : NoDup (called st ++ map promise (tasks st))).
          { rewrite Ho. apply NoDup_seq. }
          apply NoDup_app in Hnd as (_ & Hdis & _).
          apply Hdis. by eapply qinv_called. }
      assert (Hr' : returned st' !! promise t = Some Pending).
      { unfold resume in Hres.
        destruct (take_task (promise t) (awaiting st))
          as [[t' awaiting']|]; [|done].
        injection Hres as <-. unfold _runNextTask.
        rewrite queue_loop_returned. simpl. by apply Hret. }
      destruct (follow_settled (promise t) (outcome_of o) st' HR' Hp')
        as (st'' & Hf & Hr'' & _); [by destruct o | done |].
      by exists st', st''.
    + unfold resume in Hres.
      destruct (take_task_Some (promise t) (awaiting st) t Ht eq_refl)
        as [[t' awaiting'] Htake].
      by rewrite Htake in Hres.
  - intros e Hlt r.
    assert (HR' : RInv r.2).
    { by apply (step_RInv (QueueTask (Throws e)) st). }
    assert (Hp : promises r.2 !! r.1 = Some (Rejected e)).
    { destruct Hb as [Hq|Hge]; [|lia]. subst r.
      unfold queueTask, _runNextTask. cbn [fst snd tasks]. rewrite Hq.
      cbn [app runNextTask_loop size max runTaskCallback promise promises].
      destruct (Z.ltb_spec (size st) (max st)) as [_|Hge]; [|lia].
      simpl. apply queue_settle_pending.
      by rewrite lookup_app_r, Nat.sub_diag. }
    assert (Hr : returned r.2 !! r.1 = Some Pending).
    { subst r. unfold queueTask, _runNextTask. cbn [fst snd].
      rewrite queue_loop_returned. simpl.
      destruct HR as [Hl _]. by rewrite <- Hl, lookup_app_r, Nat.sub_diag. }
    split; [done|]. split; [done|].
    destruct (follow_settled r.1 (Rejected e) r.2 HR' Hp) as (st'' & Hf & Hr'' & _);
      [done | done |].
    by exists st''.
Qed.

End Props.

(** A queue for two callbacks at a time is given four tasks, the second
    of which throws at once, and the promise returned for the second task
    follows: two callbacks are awaited and the fourth task waits. *)
Definition example_events : list (event bool string) :=
  [QueueTask Returns; QueueTask (Throws "no"); QueueTask Returns;
   QueueTask Returns; ReturnedFollows 1].

Definition example_state : State bool string :=
  mkState 2 2 [mkTask 3 Returns] [mkTask 0 Returns; mkTask 2 Returns]
    [Pending; Rejected "no"; Pending; Pending] [0; 1; 2]
    [Pending; Rejected "no"; Pending; Pending].

Lemma at_most_max_callbacks_running_witness :
  max example_state = 2%Z /\
  size example_state = Z.of_nat (length (awaiting example_state)) /\
  (0 <= size example_state <= Z.max 0 2)%Z /\
  (tasks example_state <> [] -> (2 <= size example_state)%Z).
Proof.
  apply (at_most_max_callbacks_running 2 example_events example_state).
  vm_compute. reflexivity.
Defined.

Lemma callbacks_called_in_order_witness :
  called example_state ++ map promise (tasks example_state)
  = seq 0 (length (promises example_state)).
Proof.
  apply (callbacks_called_in_order 2 example_events example_state).
  vm_compute. reflexivity.
Defined.

(** The same queue after its first task: one callback is awaited and
    another one can be called. *)
Definition example_running : State bool string :=
  mkState 2 1 [] [mkTask 0 Returns] [Pending] [0] [Pending].

Lemma task_settles_as_its_callback_witness :
  (forall p x,
     returned example_running !! p = Some x ->
     x = Pending \/ promises example_running !! p = Some x) /\
  (forall t (o : bool + string),
     t ∈ awaiting example_running ->
     promises example_running !! promise t = Some Pending /\
     returned example_running !! promise t = Some Pending /\
     exists st' st'',
       resume (promise t) o example_running = Some st' /\
       promises st' !! promise t = Some (outcome_of o) /\
       returned st' !! promise t = Some Pending /\
       follow (promise t) st' = Some st'' /\
       returned st'' !! promise t = Some (outcome_of o)) /\
  (forall e,
     (size example_running < 2)%Z ->
     let r := queueTask (Throws e) example_running in
     promises r.2 !! r.1 = Some (Rejected e) /\
     returned r.2 !! r.1 = Some Pending /\
     exists st'',
       follow r.1 r.2 = Some st'' /\
       returned st'' !! r.1 = Some (Rejected e)).
Proof.
  apply (task_settles_as_its_callback 2 [QueueTask Returns] example_running).
  vm_compute. reflexivity.
Defined.

End TaskQueueProps.

(** ** Properties of the extension directory *)

Module ExtensionDirectoryProps.
Import Re Finder ExtensionDirectory.

(** *** Patterns that start at the start and consume something *)

(** Can [r] be seen, without looking at the text, to consume at least one
    code unit in every match? *)
Fixpoint consumes (r : regex) : bool :=
  match r with
  | Chr _ | Any _ | Class _ _ => true
  | Seq r1 r2 => consumes r1 || consumes r2
  | Alt r1 r2 => consumes r1 && consumes r2
  | Plus _ r1 => consumes r1
  | _ => false
  end.

Lemma consumes_ends r s : forall i e,
  consumes r = true -> In e (ends r s i) -> i < e.
Proof.
  induction r as [|c|d|neg items|r1 IH1 r2 IH2|r1 IH1 r2 IH2|g r IH|g r IH
                  |g r IH| | |ahead neg r IH]; intros i e Hc; cbn [ends];
    try discriminate.
  - intros H. apply PatternProps.In_one in H as (_ & _ & _ & ->). lia.
  - intros H. apply PatternProps.In_one in H as (_ & _ & _ & ->). lia.
  - intros H. apply PatternProps.In_one in H as (_ & _ & _ & ->). lia.
  - intros H. apply in_flat_map in H as (k & Hk & He).
    pose proof (FuelProps.ends_bound _ _ _ _ Hk).
    pose proof (FuelProps.ends_bound _ _ _ _ He).
    simpl in Hc. apply orb_true_iff in Hc as [Hc|Hc].
    + specialize (IH1 _ _ Hc Hk). lia.
    + specialize (IH2 _ _ Hc He). lia.
  - simpl in Hc. apply andb_true_iff in Hc as [Hc1 Hc2].
    intros H. apply in_app_iff in H as [H|H]; [by apply IH1 | by apply IH2].
  - intros H. apply in_flat_map in H as (k & Hk & He).
    specialize (IH _ _ Hc Hk).
    apply (FuelProps.iter_star_bound (length s) _ (FuelProps.ends_bound r s))
      in He. lia.
Qed.

Definition anchored (r : regex) : bool :=
  match r with Seq Bol _ => true | _ => false end.

Lemma anchored_ends r s i e :
  anchored r = true -> In e (ends r s i) -> i = 0.
Proof.
  destruct r as [| | | |[] r2| | | | | | |]; try discriminate. intros _ H.
  apply PatternProps.In_ends_Seq in H as (k & Hk & _). cbn [ends] in Hk.
  destruct (Nat.eqb_spec i 0); [done | by destruct Hk].
Qed.

Lemma exec_from_In r s n : forall i p e,
  exec_from r s n i = Some (p, e) -> In e (ends r s p).
Proof.
  induction n as [|n IH]; intros i p e; simpl; [done|].
  destruct (ends r s i) as [|e0 l] eqn:E; [apply IH|].
  intros [= <- <-]. rewrite E. by left.
Qed.

(** A match of an anchored pattern that consumes something starts at the
    start, ends inside the text and is not empty. *)
Lemma exec_anchored r s m :
  anchored r = true -> consumes r = true ->
  exec r s 0 = Some m -> m.1 = 0 /\ 0 < m.2 <= length s.
Proof.
  intros Ha Hc Hex. destruct m as [p e]. unfold exec in Hex.
  pose proof (exec_from_In _ _ _ _ _ _ Hex) as Hin.
  pose proof (FuelProps.ends_bound _ _ _ _ Hin) as Hb.
  pose proof (anchored_ends _ _ _ _ Ha Hin) as ->.
  pose proof (consumes_ends _ _ _ _ Hc Hin). simpl. lia.
Qed.

(** *** Parts of strings *)

Lemma length_list_ascii (s : string) :
  length (list_ascii_of_string s) = String.length s.
Proof. induction s as [|c s IH]; simpl; [done | by rewrite IH]. Qed.

Lemma substring_prefix (n : nat) : forall s,
  exists rest, s = substring 0 n s +:+ rest.
Proof.
  induction n as [|n IH]; intros s.
  - exists s. by destruct s.
  - destruct s as [|c s]; [by exists EmptyString|].
    destruct (IH s) as [rest Hr]. exists rest. rewrite Hr at 1.
    reflexivity.
Qed.

Lemma substring_length (n : nat) : forall s,
  String.length (substring 0 n s) = Nat.min n (String.length s).
Proof.
  induction n as [|n IH]; intros s; [by destruct s|].
  destruct s as [|c s]; simpl; [done|]. by rewrite IH.
Qed.

Lemma substring_skip (a : string) : forall n b,
  substring (String.length a) n (a +:+ b) = substring 0 n b.
Proof. induction a as [|c a IH]; intros n b; simpl; [done | apply IH]. Qed.

Lemma length_append (a b : string) :
  String.length (a +:+ b) = String.length a + String.length b.
Proof. induction a as [|c a IH]; simpl; [done | by rewrite IH]. Qed.

Lemma matched_prefix r s m :
  anchored r = true -> consumes r = true ->
  exec r (list_ascii_of_string s) 0 = Some m ->
  matched s m = substring 0 m.2 s /\
  0 < String.length (matched s m) <= String.length s.
Proof.
  intros Ha Hc Hex. destruct (exec_anchored _ _ _ Ha Hc Hex) as [Hp He].
  rewrite length_list_ascii in He. unfold matched, slice. rewrite Hp.
  rewrite Nat.sub_0_r. split; [done|]. rewrite substring_length. lia.
Qed.

Lemma getExtensionDirectory_prefix (cwd filepath extdir : string) :
  getExtensionDirectory cwd filepath = Some extdir ->
  extdir <> EmptyString /\ exists rest, filepath = extdir +:+ rest.
Proof.
  assert (Hne : forall s, 0 < String.length s -> s <> EmptyString).
  { intros s H ->. simpl in H. lia. }
  unfold getExtensionDirectory.
  destruct (exec webextaware _ 0) as [m|] eqn:E1.
  { intros [= <-].
    destruct (matched_prefix webextaware filepath m eq_refl eq_refl E1)
      as [Hm Hl].
    split; [apply Hne; lia|]. rewrite Hm. apply substring_prefix. }
  destruct (exec unzipped _ 0) as [m|] eqn:E2.
  { intros [= <-].
    destruct (matched_prefix unzipped filepath m eq_refl eq_refl E2)
      as [Hm Hl].
    split; [apply Hne; lia|]. rewrite Hm. apply substring_prefix. }
  cbv zeta. destruct (exec regexUnzipped _ 0) as [m|] eqn:E3; [|done].
  destruct (matched_prefix regexUnzipped _ m eq_refl eq_refl E3) as [Hm Hl].
  destruct (Nat.ltb_spec (String.length (cwd +:+ "/"))
              (String.length (matched ((cwd +:+ "/") +:+ filepath) m)))
    as [Hlt|]; [|done].
  intros [= <-]. unfold slice. rewrite substring_skip.
  rewrite length_append in Hl. split.
  - apply Hne. rewrite substring_length. lia.
  - apply substring_prefix.
Qed.

(** X18: the extension directory.  Whatever the working directory, the
    extension directory that [getExtensionDirectory] finds for a path is a
    leading part of that path, and it is not empty. *)
Theorem getExtensionDirectory_leading_part
    (cwd filepath extdir : string) :
  getExtensionDirectory cwd filepath = Some extdir ->
  extdir <> EmptyString /\ exists rest, filepath = extdir +:+ rest.
Proof. apply getExtensionDirectory_prefix. Qed.

Lemma getExtensionDirectory_leading_part_witness :
  "./12/3/456/789" <> EmptyString /\
  exists rest, "./12/3/456/789/manifest.json" = "./12/3/456/789" +:+ rest.
Proof.
  apply (getExtensionDirectory_leading_part "/mnt/ebs/unzipped/1"
           "./12/3/456/789/manifest.json" "./12/3/456/789").
  vm_compute. reflexivity.
Defined.

End ExtensionDirectoryProps.

(** ** Properties of the permissions filter *)

Module FilterProps.
Import ExtensionDirectory Filter.

(** The items of a property, none if it is not an array. *)
Definition items_of (v : value) : list item :=
  match v with VArray items => items | VOther => [] end.

Lemma split_cons sep s : exists p ps, split sep s = p :: ps.
Proof.
  induction s as [|c s IH]; simpl; [by eexists _, _|].
  destruct (Ascii.eqb c sep); [by eexists _, _|].
  destruct IH as (p & ps & ->). by eexists _, _.
Qed.

(** Splitting two texts joined by the separator. *)
Lemma split_join sep a b :
  split sep (a +:+ String sep b) = split sep a ++ split sep b.
Proof.
  induction a as [|c a IH]; simpl.
  - by rewrite Ascii.eqb_refl.
  - destruct (Ascii.eqb c sep); [by rewrite IH|].
    rewrite IH. by destruct (split_cons sep a) as (p & ps & ->).
Qed.

Lemma includes_true permissions p :
  includes permissions p = true <-> IString p ∈ permissions.
Proof.
  unfold includes. rewrite existsb_exists. split.
  - intros ([s|] & Hin & Heq); [|done]. apply String.eqb_eq in Heq as ->.
    by apply list_elem_of_In.
  - intros Hin. exists (IString p). split; [by apply list_elem_of_In|].
    apply String.eqb_refl.
Qed.

Lemma matchesArgs_true args permissions :
  _matchesArgs (new_PermissionsFilter args) permissions = true <->
  exists a, a ∈ args /\
    forall p, p ∈ split "," a -> IString p ∈ permissions.
Proof.
  unfold _matchesArgs. simpl. rewrite existsb_exists. split.
  - intros (l & Hin & Hall). apply in_map_iff in Hin as (a & <- & Hin).
    exists a. split; [by apply list_elem_of_In|]. intros p Hp.
    rewrite forallb_forall in Hall.
    by apply includes_true, Hall, list_elem_of_In.
  - intros (a & Hin & Hall). exists (split "," a).
    split; [by apply in_map, list_elem_of_In|].
    apply forallb_forall. intros p Hp.
    by apply includes_true, Hall, list_elem_of_In.
Qed.

(** No argument is matched by a manifest without permissions. *)
Lemma matchesArgs_nil args :
  _matchesArgs (new_PermissionsFilter args) [] = false.
Proof.
  apply not_true_iff_false. intros H.
  apply matchesArgs_true in H as (a & _ & Hall).
  destruct (split_cons "," a) as (p & ps & Hs).
  specialize (Hall p). rewrite Hs in Hall.
  by apply elem_of_nil in Hall; [|left].
Qed.

Lemma filter_matchesArgs args cwd getManifest line :
  (filter (new_PermissionsFilter args) cwd getManifest line).1
  = match getExtensionDirectory cwd line with
    | Some extdir =>
        match getManifest extdir with
        | Manifest permissions optional_permissions =>
            _matchesArgs (new_PermissionsFilter args)
              (items_of permissions ++ items_of optional_permissions)
        | ManifestThrows _ => false
        end
    | None => false
    end.
Proof.
  unfold filter.
  pose proof (ExtensionDirectoryProps.getExtensionDirectory_prefix cwd line)
    as Hd.
  destruct (getExtensionDirectory cwd line) as [extdir|]; [|done].
  destruct (Hd extdir eq_refl) as [Hne _].
  destruct extdir as [|c d]; [done|].
  destruct (getManifest (String c d)) as [e|[ps|] [os|]]; simpl; try done.
  - by rewrite app_nil_r.
  - by rewrite matchesArgs_nil.
Qed.

(** X19: the permissions filter.  A line passes [filter-permissions] exactly
    when it lies in an extension directory whose manifest can be read and
    one of the arguments has all its comma-separated permissions among the
    strings of the [permissions] and [optional_permissions] arrays of the
    manifest, where a property that is not an array counts as an empty
    one. *)
Theorem permissions_filter_passes
    (args : list string) (cwd : string)
    (getManifest : string -> manifest_result) (line : string) :
  (filter (new_PermissionsFilter args) cwd getManifest line).1 = true <->
  exists extdir permissions optional_permissions,
    getExtensionDirectory cwd line = Some extdir /\
    getManifest extdir = Manifest permissions optional_permissions /\
    exists a, a ∈ args /\
      forall p, p ∈ split "," a ->
        IString p ∈ items_of permissions ++ items_of optional_permissions.
Proof.
  rewrite filter_matchesArgs. split.
  - destruct (getExtensionDirectory cwd line) as [extdir|]; [|done].
    destruct (getManifest extdir) as [e|ps os] eqn:Hm; [done|]. intros H.
    apply matchesArgs_true in H. by exists extdir, ps, os.
  - intros (extdir & ps & os & -> & -> & H). by apply matchesArgs_true.
Qed.

(** The arguments that ask for an argument of [A] and an argument of [B]
    at once. *)
Definition both (A B : list string) : list string :=
  flat_map (fun a => map (fun b => a +:+ "," +:+ b) B) A.

Lemma matchesArgs_both A B permissions :
  _matchesArgs (new_PermissionsFilter (both A B)) permissions
  = _matchesArgs (new_PermissionsFilter A) permissions
    && _matchesArgs (new_PermissionsFilter B) permissions.
Proof.
  apply eq_true_iff_eq. rewrite andb_true_iff, !matchesArgs_true. split.
  - intros (x & Hx & Hall). unfold both in Hx.
    apply list_elem_of_In, in_flat_map in Hx as (a & Ha & Hx).
    apply in_map_iff in Hx as (b & <- & Hb).
    change (a +:+ "," +:+ b) with (a +:+ String "," b) in Hall.
    rewrite split_join in Hall. split.
    + exists a. split; [by apply list_elem_of_In|]. intros p Hp.
      apply Hall, elem_of_app. by left.
    + exists b. split; [by apply list_elem_of_In|]. intros p Hp.
      apply Hall, elem_of_app. by right.
  - intros [(a & Ha & Halla) (b & Hb & Hallb)]. exists (a +:+ "," +:+ b).
    split.
    + apply list_elem_of_In, in_flat_map. exists a.
      split; [by apply list_elem_of_In|].
      apply in_map_iff. exists b. split; [done | by apply list_elem_of_In].
    + intros p. change (a +:+ "," +:+ b) with (a +:+ String "," b).
      rewrite split_join, elem_of_app. intros [Hp|Hp]; auto.
Qed.

(** X20: filters in a row.  A line passes [filter-permissions] with the
    arguments [A] and [filter-permissions] with the arguments [B] exactly
    when it passes one [filter-permissions] whose arguments join every
    argument of [A] to every argument of [B] with a comma. *)
Theorem permissions_filters_in_a_row
    (A B : list string) (cwd : string)
    (getManifest : string -> manifest_result) (line : string) :
  (filter (new_PermissionsFilter (both A B)) cwd getManifest line).1
  = (filter (new_PermissionsFilter A) cwd getManifest line).1
    && (filter (new_PermissionsFilter B) cwd getManifest line).1.
Proof.
  rewrite !filter_matchesArgs.
  destruct (getExtensionDirectory cwd line) as [extdir|]; [|done].
  destruct (getManifest extdir) as [e|ps os]; [done|]. apply matchesArgs_both.
Qed.

End FilterProps.

(** ** Properties of the api-usage filter *)

Module ApiUsageProps.
Import Finder ExtensionDirectory ApiUsage.

(** The arguments that are queries. *)
Definition queries_of (args : list string) : list string :=
  List.filter (fun arg => negb (startsWith arg "--")) args.

Definition add_all (queries : list string) (qc : QueryCompiler)
  : QueryCompiler :=
  fold_left (fun qc q => (addQuery q qc).1.2) queries qc.

Lemma args_loop_spec args : forall qi lu w,
  match args_loop args (Async.mkQueryCompiler qi None) lu w with
  | (Normal (qc', lu'), _) =>
      qc' = Async.mkQueryCompiler (add_all (queries_of args) qi) None /\
      lu' = lu || bool_decide ("--log-usage" ∈ args) /\
      Forall (fun arg => startsWith arg "--" = true -> arg = "--log-usage")
        args
  | (Throw e, _) =>
      (exists arg,
         arg ∈ args /\ startsWith arg "--" = true /\
         arg <> "--log-usage" /\
         e = Error ("Unsupported argument: " +:+ arg)) \/
      (exists q src, q ∈ queries_of args /\ e = SyntaxError src)
  end.
Proof.
  induction args as [|arg args IH]; intros qi lu w; cbn [args_loop].
  - split; [done|]. split; [|done]. by rewrite orb_false_r.
  - unfold queries_of. cbn [List.filter]. fold (queries_of args).
    destruct (startsWith arg "--") eqn:Hd; cbn [negb].
    + destruct (String.eqb_spec arg "--log-usage") as [->|Hne].
      * specialize (IH qi true w).
        destruct (args_loop args _ true w) as [[[qc' lu']|e] w'].
        -- destruct IH as (-> & -> & Hall). split; [done|]. split.
           ++ rewrite (bool_decide_eq_true_2
                         ("--log-usage" ∈ "--log-usage" :: args))
                by (by left).
              by rewrite orb_true_r.
           ++ by constructor.
        -- destruct IH as [(a & Ha & H)|(q & src & Hq & H)];
             [left; exists a; split; [by right|done] | right; by exists q, src].
      * left. exists arg. split; [by left|done].
    + unfold Async.addQuery. cbn [Async.workerPool Async.qcInternal].
      pose proof (AsyncCompilerProps.sync_addQuery_throw arg qi) as Hthrow.
      unfold add_all. cbn [fold_left]. fold (add_all (queries_of args)).
      destruct (addQuery arg qi) as [[[[]|e] qi'] w1]; cbn [fst snd] in *.
      * specialize (IH qi' lu (w ++ w1)).
        destruct (args_loop args _ lu (w ++ w1)) as [[[qc' lu']|e] w'].
        -- destruct IH as (-> & -> & Hall). split; [done|]. split.
           ++ f_equal. apply bool_decide_ext. rewrite elem_of_cons.
              split; [by right|]. intros [<-|H]; [|done].
              vm_compute in Hd. discriminate.
           ++ constructor; [congruence | done].
        -- destruct IH as [(a & Ha & H)|(q & src & Hq & H)].
           ++ left. exists a. split; [by right|done].
           ++ right. exists q, src. split; [by right | done].
      * right. destruct (Hthrow e eq_refl) as [[src ->] _].
        exists arg, src. split; [by left | done].
Qed.

(** X21: the arguments of [filter-api-usage].  The constructor accepts
    [--log-usage] and rejects every other argument that starts with two
    dashes; every other argument is a query, added with [addQuery] in the
    order of the arguments.  When the constructor returns, [logUsage]
    tells whether [--log-usage] was given, the compiler holds the queries
    and no worker pool yet, and no extension has been seen; when it
    throws, it is for an unsupported argument or because a query is not a
    pattern. *)
Theorem api_usage_arguments (args : list string) :
  match (new_ApiUsageFilter args).1 with
  | Normal this =>
      Async.qcInternal (qc this)
      = MatcherProps.compiler_of (queries_of args) /\
      Async.workerPool (qc this) = None /\
      logUsage this = bool_decide ("--log-usage" ∈ args) /\
      seenExts this = [] /\
      Forall (fun arg => startsWith arg "--" = true -> arg = "--log-usage")
        args
  | Throw e =>
      (exists arg,
         arg ∈ args /\ startsWith arg "--" = true /\
         arg <> "--log-usage" /\
         e = Error ("Unsupported argument: " +:+ arg)) \/
      (exists q src, q ∈ queries_of args /\ e = SyntaxError src)
  end.
Proof.
  unfold new_ApiUsageFilter.
  pose proof (args_loop_spec args new_QueryCompiler false []) as H.
  change (Async.mkQueryCompiler new_QueryCompiler None)
    with Async.new_QueryCompiler in H.
  destruct (args_loop args Async.new_QueryCompiler false [])
    as [[[qc' lu']|e] w]; simpl; [|done].
  destruct H as (-> & -> & Hall). done.
Qed.

(** *** One task for every extension *)

(** The lines of the input, given to [filter] one after the other: the
    extension directories handed to [ioTaskQueue], in that order, and the
    filter afterwards. *)
Fixpoint filter_lines (cwd : string) (lines : list string)
    (this : ApiUsageFilter) : list string * ApiUsageFilter :=
  match lines with
  | [] => ([], this)
  | line :: lines' =>
      match filter cwd line this with
      | (QueuesTask extdir, this') =>
          let (queued, this'') := filter_lines cwd lines' this' in
          (extdir :: queued, this'')
      | (ReturnsFalse _, this') => filter_lines cwd lines' this'
      end
  end.

Lemma filter_lines_spec cwd lines : forall this,
  NoDup (seenExts this) ->
  seenExts (filter_lines cwd lines this).2
  = seenExts this ++ (filter_lines cwd lines this).1 /\
  NoDup (seenExts (filter_lines cwd lines this).2) /\
  forall d,
    d ∈ seenExts (filter_lines cwd lines this).2 <->
    d ∈ seenExts this \/
    exists line, line ∈ lines /\ getExtensionDirectory cwd line = Some d.
Proof.
  induction lines as [|line lines IH]; intros this Hnd; cbn [filter_lines].
  - simpl. rewrite app_nil_r. split; [done|]. split; [done|].
    intros d. split; [by left|]. intros [H|(l & H & _)]; [done|].
    by apply elem_of_nil in H.
  - unfold filter.
    pose proof (ExtensionDirectoryProps.getExtensionDirectory_prefix cwd line)
      as Hd.
    destruct (getExtensionDirectory cwd line) as [extdir|] eqn:He.
    + destruct (Hd extdir eq_refl) as [Hne _].
      destruct extdir as [|c e]; [done|]. set (extdir := String c e) in *.
      destruct (Set_has extdir (seenExts this)) eqn:Hseen.
      * destruct (IH this Hnd) as (H1 & H2 & H3).
        split; [done|]. split; [done|]. intros d. rewrite H3.
        split; intros [H|(l & Hl & Hdl)]; auto.
        -- right. exists l. split; [by right | done].
        -- apply elem_of_cons in Hl as [->|Hl]; [|right; by exists l].
           left. apply MatcherProps.Set_has_true in Hseen. congruence.
      * set (this' := mkApiUsageFilter _ _ _).
        assert (Hnew : extdir ∉ seenExts this).
        { intros H. apply MatcherProps.Set_has_true in H. congruence. }
        assert (Hs' : seenExts this' = seenExts this ++ [extdir]).
        { unfold this'. simpl. unfold Set_add. by rewrite Hseen. }
        assert (Hnd' : NoDup (seenExts this')).
        { rewrite Hs'. apply NoDup_app. split; [done|].
          split; [|apply NoDup_singleton].
          intros x Hx Hx'. by apply list_elem_of_singleton in Hx' as ->. }
        destruct (IH this' Hnd') as (H1 & H2 & H3).
        destruct (filter_lines cwd lines this') as [queued this''].
        cbn [fst snd] in *.
        assert (Heq : seenExts this'' = seenExts this ++ extdir :: queued).
        { by rewrite H1, Hs', <- app_assoc. }
        split; [done|]. split; [done|].
        intros d. rewrite H3, Hs', elem_of_app, list_elem_of_singleton.
        split.
        -- intros [[H| ->]|(l & Hl & Hdl)]; auto.
           ++ right. exists line. split; [by left | done].
           ++ right. exists l. split; [by right | done].
        -- intros [H|(l & Hl & Hdl)]; [by left; left|].
           apply elem_of_cons in Hl as [->|Hl]; [|right; by exists l].
           left. right. congruence.
    + destruct (IH this Hnd) as (H1 & H2 & H3).
      split; [done|]. split; [done|]. intros d. rewrite H3.
      split; intros [H|(l & Hl & Hdl)]; auto.
      * right. exists l. split; [by right | done].
      * apply elem_of_cons in Hl as [->|Hl]; [congruence|].
        right. by exists l.
Qed.

(** X22: one task for every extension.  Whatever lines a new
    [filter-api-usage] is given, it hands every extension directory that
    one of the lines lies in to [ioTaskQueue] once and no more, however
    many lines lie in it; these directories are what [seenExts] holds. *)
Theorem every_extension_is_read_once
    (cwd : string) (lines : list string) (this : ApiUsageFilter) :
  seenExts this = [] ->
  seenExts (filter_lines cwd lines this).2
  = (filter_lines cwd lines this).1 /\
  NoDup (filter_lines cwd lines this).1 /\
  forall d,
    d ∈ (filter_lines cwd lines this).1 <->
    exists line, line ∈ lines /\ getExtensionDirectory cwd line = Some d.
Proof.
  intros Hnew.
  destruct (filter_lines_spec cwd lines this) as (H1 & H2 & H3).
  { rewrite Hnew. constructor. }
  rewrite Hnew in H1. simpl in H1. rewrite <- H1.
  split; [done|]. split; [done|]. intros d. rewrite H3, Hnew.
  split; [|by right]. intros [H|H]; [by apply elem_of_nil in H | done].
Qed.

Lemma every_extension_is_read_once_witness :
  let cwd := "/mnt/ebs/unzipped/1" in
  let lines :=
    ["./12/3/456/789/manifest.json"; "README"; "./12/3/456/789/bg.js";
     "./12/3/456/790"] in
  let this := mkApiUsageFilter Async.new_QueryCompiler false [] in
  seenExts (filter_lines cwd lines this).2
  = (filter_lines cwd lines this).1 /\
  NoDup (filter_lines cwd lines this).1 /\
  forall d,
    d ∈ (filter_lines cwd lines this).1 <->
    exists line, line ∈ lines /\ getExtensionDirectory cwd line = Some d.
Proof.
  apply (every_extension_is_read_once "/mnt/ebs/unzipped/1"
           ["./12/3/456/789/manifest.json"; "README"; "./12/3/456/789/bg.js";
            "./12/3/456/790"]
           (mkApiUsageFilter Async.new_QueryCompiler false [])).
  reflexivity.
Defined.

End ApiUsageProps.

(** ** The pool of an asynchronous compiler *)

Module AsyncPoolProps.
Import Finder Async AsyncCompilerProps.

Lemma compiled_addQuery_locked q qc p :
  workerPool qc = Some p -> (addQuery q qc).1.2 = qc.
Proof. intros H. unfold addQuery. by rewrite H. Qed.

Lemma workerPool_calls (cs : list call) (p : QueryMatcherWorkerPool) :
  workerPool (do_calls cs new_QueryCompiler) = Some p ->
  queriesAndPatterns p = compiled (do_calls cs new_QueryCompiler) /\
  workers p = [] /\ idleWorkers p = [] /\ taskQueue p = [].
Proof.
  revert p. induction cs as [|c cs IH] using rev_ind; intros p; [done|].
  rewrite do_calls_snoc. set (qc := do_calls cs new_QueryCompiler) in *.
  destruct c as [q|n|]; cbn [do_call].
  - intros Hp. rewrite workerPool_addQuery in Hp.
    rewrite (compiled_addQuery_locked q qc p Hp). by apply IH.
  - unfold newQueryMatcher, compiled. cbn [snd workerPool qcInternal].
    destruct (workerPool qc) as [p0|] eqn:E.
    + intros [= <-]. by apply IH.
    + by intros [= <-].
  - unfold destroy. destruct (workerPool qc) eqn:E; [done|].
    by rewrite E.
Qed.

(** X23: the Map of the pool.  Whatever calls are made on an asynchronous
    compiler, the worker pool that it holds was made from the queries that
    the compiler holds now: no query can be added while the pool exists,
    so that a worker is never started without a query of the compiler. *)
Theorem pool_holds_the_queries_of_the_compiler
    (cs : list call) (p : QueryMatcherWorkerPool) :
  workerPool (do_calls cs new_QueryCompiler) = Some p ->
  queriesAndPatterns p = compiled (do_calls cs new_QueryCompiler) /\
  forall q,
    compiled (addQuery q (do_calls cs new_QueryCompiler)).1.2
    = queriesAndPatterns p.
Proof.
  intros Hp. destruct (workerPool_calls cs p Hp) as [Hq _].
  split; [done|]. intros q.
  by rewrite (compiled_addQuery_locked q _ p Hp).
Qed.

Lemma pool_holds_the_queries_of_the_compiler_witness :
  let cs :=
    [AddQuery "tabs.create"; NewQueryMatcher 2; AddQuery "storage.local.get";
     NewQueryMatcher 4] in
  let p :=
    new_QueryMatcherWorkerPool 2
      (qc_queriesAndPatterns (MatcherProps.compiler_of ["tabs.create"])) in
  queriesAndPatterns p = compiled (do_calls cs new_QueryCompiler) /\
  forall q,
    compiled (addQuery q (do_calls cs new_QueryCompiler)).1.2
    = queriesAndPatterns p.
Proof.
  apply (pool_holds_the_queries_of_the_compiler
           [AddQuery "tabs.create"; NewQueryMatcher 2;
            AddQuery "storage.local.get"; NewQueryMatcher 4]
           (new_QueryMatcherWorkerPool 2
              (qc_queriesAndPatterns
                 (MatcherProps.compiler_of ["tabs.create"])))).
  vm_compute. reflexivity.
Defined.

End AsyncPoolProps.

(** ** The order of the output *)

Module OutputProps.
Import Output.

(** The lines from the first one up to the first whose filter has not
    resolved, with the answers of their filters. *)
Fixpoint answered (ps : list Started) : list (string * Answer) :=
  match ps with
  | [] => []
  | p :: ps' =>
      match filtered p with
      | Some (Resolves a) => (line p, a) :: answered ps'
      | _ => []
      end
  end.

(** The lines read in a sequence of events. *)
Fixpoint lines_read (es : list event) : list string :=
  match es with
  | [] => []
  | ReadLine l :: es' => l :: lines_read es'
  | _ :: es' => lines_read es'
  end.

(** The promise of a function whose [previousPromise] is [prev], once the
    function has gone on as far as it can. *)
Definition settled (prev : Promise) (f : option Filtered) : Promise :=
  match f with
  | None => Pending
  | Some (Throws e) => Rejected e
  | Some (Resolves _) => prev
  end.

Fixpoint stable (prev : Promise) (ps : list Started) : Prop :=
  match ps with
  | [] => True
  | p :: ps' =>
      pendingPromise p = settled prev (filtered p)
      /\ stable (settled prev (filtered p)) ps'
  end.

(** No function has gone on further than it can. *)
Fixpoint consistent (prev : Promise) (ps : list Started) : Prop :=
  match ps with
  | [] => True
  | p :: ps' =>
      (pendingPromise p = Pending
       \/ pendingPromise p = settled prev (filtered p))
      /\ consistent (settled prev (filtered p)) ps'
  end.

(** The functions that write when every function goes on. *)
Fixpoint newly (prev : Promise) (ps : list Started)
  : list (string * Answer) :=
  match ps with
  | [] => []
  | p :: ps' =>
      match pendingPromise p, filtered p, prev with
      | Pending, Some (Resolves a), Fulfilled => [(line p, a)]
      | _, _, _ => []
      end ++ newly (settled prev (filtered p)) ps'
  end.

Lemma go_on_spec ps : forall prev out err,
  consistent prev ps ->
  let r := go_on prev ps out err in
  map line r.1 = map line ps /\
  map filtered r.1 = map filtered ps /\
  stable prev r.1 /\
  r.2 = (out ++ flat_map (fun la => logged la.2) (newly prev ps),
         err ++ flat_map (fun la => warned la.1 la.2) (newly prev ps)).
Proof.
  induction ps as [|p ps IH]; intros prev out err Hc; cbv zeta.
  - cbn. by rewrite !app_nil_r.
  - destruct Hc as [Hp Hc]. cbn [go_on newly].
    assert (exists p',
      resume prev p out err
      = (p',
         (out ++ flat_map (fun la => logged la.2)
                   match pendingPromise p, filtered p, prev with
                   | Pending, Some (Resolves a), Fulfilled => [(line p, a)]
                   | _, _, _ => []
                   end,
          err ++ flat_map (fun la => warned la.1 la.2)
                   match pendingPromise p, filtered p, prev with
                   | Pending, Some (Resolves a), Fulfilled => [(line p, a)]
                   | _, _, _ => []
                   end))
      /\ line p' = line p /\ filtered p' = filtered p
      /\ pendingPromise p' = settled prev (filtered p)) as (p' & -> & E1 & E2 & E3).
    { unfold resume.
      destruct p as [l f pp]; cbn [line filtered pendingPromise] in *.
      destruct pp as [| |e0].
      - destruct f as [[a|e]|]; cbn [settled].
        + destruct prev as [| |e]; eexists;
            (split; [cbn; rewrite ?app_nil_r; reflexivity | done]).
        + eexists; split; [cbn; rewrite ?app_nil_r; reflexivity | done].
        + eexists; split; [cbn; rewrite ?app_nil_r; reflexivity | done].
      - destruct Hp as [Hp|Hp]; [done|].
        eexists; split; [cbn; rewrite ?app_nil_r; reflexivity | done].
      - destruct Hp as [Hp|Hp]; [done|].
        eexists; split; [cbn; rewrite ?app_nil_r; reflexivity | done]. }
    cbn [fst snd]. rewrite E3.
    specialize (IH (settled prev (filtered p))
                  (out ++ flat_map (fun la => logged la.2)
                     match pendingPromise p, filtered p, prev with
                     | Pending, Some (Resolves a), Fulfilled => [(line p, a)]
                     | _, _, _ => []
                     end)
                  (err ++ flat_map (fun la => warned la.1 la.2)
                     match pendingPromise p, filtered p, prev with
                     | Pending, Some (Resolves a), Fulfilled => [(line p, a)]
                     | _, _, _ => []
                     end) Hc).
    cbv zeta in IH.
    destruct (go_on (settled prev (filtered p)) ps _ _) as [ps'' w'].
    cbn [fst snd map stable] in *.
    destruct IH as (I1 & I2 & I3 & I4).
    rewrite E1, E2, E3, I1, I2, I4, !flat_map_app, !app_assoc. done.
Qed.

Lemma stable_consistent ps : forall prev,
  stable prev ps -> consistent prev ps.
Proof.
  induction ps as [|p ps IH]; intros prev; [done|].
  intros [H1 H2]. split; [by right | by apply IH].
Qed.

Lemma stable_Pending_consistent ps : forall prev,
  stable Pending ps -> consistent prev ps.
Proof.
  induction ps as [|p ps IH]; intros prev; [done|].
  cbn [stable consistent]. intros [H1 H2].
  destruct (filtered p) as [[a|e]|]; cbn [settled] in *.
  - split; [by left | by apply IH].
  - split; [by right | by apply stable_consistent].
  - split; [by left | by apply IH].
Qed.

Lemma newly_nil ps : forall prev,
  prev <> Fulfilled -> newly prev ps = [].
Proof.
  induction ps as [|p ps IH]; intros prev Hprev; [done|].
  cbn [newly]. rewrite IH.
  - by destruct (pendingPromise p), (filtered p) as [[?|?]|], prev.
  - by destruct (filtered p) as [[?|?]|].
Qed.

Lemma newly_answered ps :
  stable Pending ps -> newly Fulfilled ps = answered ps.
Proof.
  induction ps as [|p ps IH]; [done|].
  cbn [stable newly answered]. intros [H1 H2].
  destruct (filtered p) as [[a|e]|]; cbn [settled] in *.
  - by rewrite H1, IH.
  - rewrite newly_nil by done. by destruct (pendingPromise p).
  - rewrite newly_nil by done. by destruct (pendingPromise p).
Qed.

Lemma insert_consistent ps : forall prev i p f,
  stable prev ps -> ps !! i = Some p -> filtered p = None ->
  consistent prev
    (<[i := mkStarted (line p) (Some f) (pendingPromise p)]> ps).
Proof.
  induction ps as [|h ps IH]; intros prev [|i] p f Hs Hi Hf; try done.
  - injection Hi as ->. destruct Hs as [H1 H2]. rewrite Hf in *.
    cbn [settled] in *. split; [by left|].
    by apply stable_Pending_consistent.
  - destruct Hs as [H1 H2]. split; [by right|]. by apply IH.
Qed.

Lemma insert_answered ps : forall i p f,
  stable Fulfilled ps -> ps !! i = Some p -> filtered p = None ->
  answered ps
  ++ newly Fulfilled
       (<[i := mkStarted (line p) (Some f) (pendingPromise p)]> ps)
  = answered (<[i := mkStarted (line p) (Some f) (pendingPromise p)]> ps).
Proof.
  induction ps as [|h ps IH]; intros [|i] p f Hs Hi Hf; try done.
  - injection Hi as ->. destruct Hs as [H1 H2]. rewrite Hf in *.
    cbn [settled] in *.
    cbn [list_insert insert answered newly line filtered pendingPromise].
    rewrite Hf, H1. cbn [settled app]. destruct f as [a|e].
    + by rewrite newly_answered.
    + by rewrite newly_nil.
  - destruct Hs as [H1 H2].
    cbn [list_insert insert answered newly] in *.
    destruct (filtered h) as [[a|e]|]; cbn [settled] in *.
    + rewrite H1. cbn [app]. f_equal. by apply IH.
    + rewrite newly_nil by done. by destruct (pendingPromise h).
    + rewrite newly_nil by done. by destruct (pendingPromise h).
Qed.

Lemma answered_ext ps : forall ps',
  map line ps = map line ps' -> map filtered ps = map filtered ps' ->
  answered ps = answered ps'.
Proof.
  induction ps as [|p ps IH]; intros [|p' ps'] Hl Ha; try done.
  simpl in *. injection Hl as Hl1 Hl. injection Ha as Ha1 Ha.
  rewrite Hl1, Ha1. destruct (filtered p') as [[a|e]|]; [|done|done].
  by rewrite (IH ps').
Qed.

Lemma answered_snoc ps l :
  answered (ps ++ [mkStarted l None Pending]) = answered ps.
Proof.
  induction ps as [|p ps IH]; simpl; [done|].
  destruct (filtered p) as [[a|e]|]; [|done|done]. by rewrite IH.
Qed.

Lemma stable_snoc ps l : forall prev,
  stable prev ps -> stable prev (ps ++ [mkStarted l None Pending]).
Proof.
  induction ps as [|p ps IH]; intros prev; [done|].
  intros [H1 H2]. split; [done | by apply IH].
Qed.

(** What holds whenever no function can go on. *)
Record in_order (st : State) : Prop := {
  ord_stable : stable Fulfilled (started st);
  ord_log :
    console_log st
    = flat_map (fun la => logged la.2) (answered (started st));
  ord_warn :
    console_warn st
    = flat_map (fun la => warned la.1 la.2) (answered (started st))
}.

Lemma step_in_order e st st' :
  step e st = Some st' -> in_order st ->
  in_order st' /\
  map line (started st')
  = map line (started st)
    ++ match e with ReadLine l => [l] | _ => [] end.
Proof.
  intros Hstep [Hs Ho He]. destruct e as [l|i f]; cbn [step] in Hstep.
  - injection Hstep as <-. cbn [started].
    split; [|by rewrite map_app].
    split; cbn [started console_log console_warn];
      rewrite ?answered_snoc; try done.
    by apply stable_snoc.
  - destruct (started st !! i) as [p|] eqn:Hi; [|done].
    destruct (filtered p) eqn:Hf; [done|].
    pose proof (go_on_spec _ Fulfilled (console_log st) (console_warn st)
                  (insert_consistent _ _ _ _ f Hs Hi Hf)) as Hgo.
    cbv zeta in Hgo.
    pose proof (insert_answered _ _ _ f Hs Hi Hf) as Hans.
    destruct (go_on Fulfilled _ _ _) as [ps w].
    injection Hstep as <-. cbn [fst snd started console_log console_warn] in *.
    destruct Hgo as (G1 & G2 & G3 & ->). cbn [fst snd].
    assert (answered ps
            = answered
                (<[i := mkStarted (line p) (Some f) (pendingPromise p)]>
                   (started st))) as Hext by by apply answered_ext.
    split.
    + split; cbn [started console_log console_warn]; [done| |];
        by rewrite Hext, <- Hans, !flat_map_app, <- ?Ho, <- ?He.
    + rewrite G1, list_fmap_insert. cbn [line]. rewrite app_nil_r.
      apply list_insert_id. by rewrite list_lookup_fmap, Hi.
Qed.

Lemma run_in_order es : forall st st',
  run es st = Some st' -> in_order st ->
  in_order st' /\
  map line (started st') = map line (started st) ++ lines_read es.
Proof.
  induction es as [|e es IH]; intros st st' Hrun Hst.
  - injection Hrun as <-. by rewrite app_nil_r.
  - cbn [run] in Hrun. destruct (step e st) as [st1|] eqn:Hstep; [|done].
    destruct (step_in_order _ _ _ Hstep Hst) as [H1 Hl1].
    destruct (IH _ _ Hrun H1) as [H2 Hl2]. split; [done|].
    rewrite Hl2, Hl1, <- app_assoc. by destruct e.
Qed.

(** X24: the order of the output.  The lines are written in the order in
    which they were read, whatever
    the order in which their filters settle: at every moment at which no
    function of [main] can go on, [console.log] has been called with the
    output line of every wanted line among the leading lines whose filters
    have resolved, in the order of the input, and with nothing else; the
    same holds of the warnings.  A line behind one whose filter is still
    pending, or has thrown, is not written. *)
Theorem output_in_input_order (es : list event) (st : State) :
  run es initial = Some st ->
  map line (started st) = lines_read es /\
  console_log st
  = flat_map (fun la => if wantLine la.2 then [outputLine la.2] else [])
      (answered (started st)) /\
  console_warn st
  = flat_map
      (fun la =>
         flat_map (fun warning => ["Warning in " +:+ la.1; warning])
           (warnings la.2))
      (answered (started st)).
Proof.
  intros Hrun.
  destruct (run_in_order es initial st Hrun) as [[_ Ho He] Hl]; [by split|].
  done.
Qed.

Definition example_lines : list event :=
  [ReadLine "a"; ReadLine "b"; ReadLine "c";
   FilterSettles 1 (Resolves (mkAnswer true "b" ["w"]));
   FilterSettles 2 (Resolves (mkAnswer false "c" []));
   FilterSettles 0 (Resolves (mkAnswer true "A" []))].

Definition example_written : State :=
  Eval vm_compute in
    match run example_lines initial with Some st => st | None => initial end.

Lemma output_in_input_order_witness :
  run example_lines initial = Some example_written /\
  console_log example_written = ["A"; "b"] /\
  map line (started example_written) = lines_read example_lines.
Proof.
  split; [reflexivity|]. split; [reflexivity|].
  exact (proj1 (output_in_input_order example_lines example_written
                  eq_refl)).
Defined.

End OutputProps.
